(** * kookykangaroo: Markdown tree builder, graph writer and graph reader

    A shallow embedding of the Python package [kookykangaroo] and the
    properties its specification states about it.

    Conventions of the embedding.
    - Python objects live in a heap ([Heap], a list indexed by address);
      a reference is an address.  [MarkdownNode] objects are mutated in
      place by the tree builder and by the graph writer, and the heap makes
      that aliasing explicit.  Python has no dangling references, so a
      lookup that misses is unreachable from the states the program builds;
      reading through such a reference fails ([None]) and writing through
      it changes nothing.
    - A Python [str] is a Rocq [string]; each [ascii] stands for one code
      point below 256.
    - A Python [int] is a [Z]; counters that only grow from zero are [nat].
    - A Python list used as a stack keeps its top at the head of the Rocq
      list: [stack[-1]] is the head, [append] is a cons, [pop] drops the
      head. *)

From Stdlib Require Import ZArith Ascii String.
From stdpp Require Import base option list strings pretty gmap.

Local Open Scope string_scope.
Local Open Scope list_scope.
Local Open Scope Z_scope.

(* ===================================================================== *)
(** * Part I: definitions *)
(* ===================================================================== *)

(** ** Strings *)

(** [str.isspace] on the code points below 256. *)
Definition isspace (c : ascii) : bool :=
  let n := nat_of_ascii c in
  ((9 <=? n) && (n <=? 13) || (28 <=? n) && (n <=? 32)
   || (n =? 133) || (n =? 160))%nat.

Fixpoint lstrip (s : string) : string :=
  match s with
  | String c s' => if isspace c then lstrip s' else s
  | EmptyString => EmptyString
  end.

Fixpoint rstrip (s : string) : string :=
  match s with
  | EmptyString => EmptyString
  | String c s' =>
      match rstrip s' with
      | EmptyString => if isspace c then EmptyString else String c EmptyString
      | r => String c r
      end
  end.

(** [s.strip()] *)
Definition strip (s : string) : string := rstrip (lstrip s).

(** Python truthiness of a [str]: [if s:] *)
Definition truthy (s : string) : bool :=
  match s with EmptyString => false | _ => true end.

(** [int(c)] for a one-character string: a decimal digit, or [ValueError]
    (here [None]).  Below code point 256 the decimal digits are '0'..'9'. *)
Definition int_of_char (c : ascii) : option Z :=
  let n := nat_of_ascii c in
  if ((48 <=? n) && (n <=? 57))%nat then Some (Z.of_nat (n - 48)) else None.

(** ["c" * n] : the empty string when [n <= 0]. *)
Definition str_repeat (c : ascii) (n : Z) : string :=
  Nat.iter (Z.to_nat n) (String c) EmptyString.

(** [sep.join(lines)] *)
Fixpoint join (sep : string) (lines : list string) : string :=
  match lines with
  | [] => ""
  | [l] => l
  | l :: ls => l +:+ sep +:+ join sep ls
  end.

(** The newline character. *)
Definition nl : string := String "010"%char EmptyString.

(** ** markdown_parser.py *)

Abbreviation addr := nat (only parsing).

(** [class MarkdownNode].  The field [id] of the source is [node_id] here
    ([id] is the identity function of the libraries). *)
Record MarkdownNode := mkNode {
  node_type : string;
  content : string;
  level : Z;
  parent : option addr;
  children : list addr;
  node_id : option string
}.

Abbreviation Heap := (list MarkdownNode) (only parsing).

(** [MarkdownNode(node_type, content, level)]: [parent] is [None],
    [children] is empty, [id] is [None]. *)
Definition new_node (ty c : string) (lv : Z) : MarkdownNode :=
  mkNode ty c lv None [] None.

Definition set_parent (p : addr) (n : MarkdownNode) : MarkdownNode :=
  mkNode (node_type n) (content n) (level n) (Some p) (children n) (node_id n).

Definition append_child (c : addr) (n : MarkdownNode) : MarkdownNode :=
  mkNode (node_type n) (content n) (level n) (parent n) (children n ++ [c])
         (node_id n).

Definition set_id (i : string) (n : MarkdownNode) : MarkdownNode :=
  mkNode (node_type n) (content n) (level n) (parent n) (children n) (Some i).

(** [self.add_child(child)]:
    [child.parent = self; self.children.append(child)] *)
Definition add_child (h : Heap) (self child : addr) : Heap :=
  alter (append_child child) self (alter (set_parent self) child h).

(** [xml.etree.ElementTree.Element]: tag, text, tail and the child elements.
    An absent [text] or [tail] is the empty string ([itertext] skips both
    alike). *)
#[warnings="-register-all"]
Inductive Element : Type :=
  Elem (tag : string) (text : string) (tail : string) (kids : list Element).

Definition tag (e : Element) : string := let 'Elem t _ _ _ := e in t.
Definition tail (e : Element) : string := let 'Elem _ _ t _ := e in t.
Definition kids (e : Element) : list Element := let 'Elem _ _ _ k := e in k.

(** ["".join(element.itertext())]: the element's text, then for each child
    its inner text followed by its tail. *)
Fixpoint itertext (e : Element) : string :=
  match e with
  | Elem _ text _ ks =>
      text +:+
      (fix inner (l : list Element) : string :=
         match l with
         | [] => ""
         | k :: l' => itertext k +:+ tail k +:+ inner l'
         end) ks
  end.

(** [class MarkdownTreeProcessor]: the three attributes [__init__] sets. *)
Record MarkdownTreeProcessor := mkProcessor {
  root : addr;
  current_node : addr;
  heading_stack : list addr
}.

(** [MarkdownTreeProcessor.__init__]: a fresh root node, which is also the
    current node and the only entry of the heading stack. *)
Definition new_processor (h : Heap) : Heap * MarkdownTreeProcessor :=
  let r := length h in
  (h ++ [new_node "root" "" 0], mkProcessor r r [r]).

(** [element.tag.startswith("h") and len(element.tag) == 2]; returns
    [element.tag[1]]. *)
Definition heading_tag (t : string) : option ascii :=
  match t with
  | String "h" (String c EmptyString) => Some c
  | _ => None
  end.

(** [while len(self.heading_stack) > 1 and
           self.heading_stack[-1].level >= level:
        self.heading_stack.pop()] *)
Fixpoint pop_headings (h : Heap) (lv : Z) (stack : list addr)
  : option (list addr) :=
  match stack with
  | a :: ((_ :: _) as rest) =>
      match h !! a with
      | Some n =>
          if bool_decide (lv ≤ level n) then pop_headings h lv rest
          else Some stack
      | None => None
      end
  | _ => Some stack
  end.

(** The body of [_process_element] before it recurses into the children. *)
Definition process_tag (e : Element) (st : Heap * MarkdownTreeProcessor)
  : option (Heap * MarkdownTreeProcessor) :=
  let '(h, p) := st in
  match heading_tag (tag e) with
  | Some c =>
      lv ← int_of_char c;
      let text := strip (itertext e) in
      stack ← pop_headings h lv (heading_stack p);
      top ← head stack;
      let node := length h in
      let h1 := h ++ [new_node "heading" text lv] in
      Some (add_child h1 top node, mkProcessor (root p) node (node :: stack))
  | None =>
      if bool_decide (tag e = "p") then
        let text := strip (itertext e) in
        if truthy text then
          let node := length h in
          let h1 := h ++ [new_node "paragraph" text 0] in
          Some (add_child h1 (current_node p) node, p)
        else Some st
      else Some st
  end.

(** [MarkdownTreeProcessor._process_element]; [None] is the [ValueError] of
    [int]. *)
Fixpoint _process_element (e : Element) (st : Heap * MarkdownTreeProcessor)
  : option (Heap * MarkdownTreeProcessor) :=
  st1 ← process_tag e st;
  (fix each (l : list Element) (s : Heap * MarkdownTreeProcessor) :=
     match l with
     | [] => Some s
     | k :: l' => s' ← _process_element k s; each l' s'
     end) (kids e) st1.

(** No element carries a two-character tag [hX] whose [X] is not a decimal
    digit: on such a tag ([hr], say) [int] raises. *)
Fixpoint valid_tags (e : Element) : bool :=
  match e with
  | Elem t _ _ ks =>
      match heading_tag t with
      | Some c => bool_decide (is_Some (int_of_char c))
      | None => true
      end && forallb valid_tags ks
  end.

Definition is_heading (n : MarkdownNode) : bool :=
  bool_decide (node_type n = "heading").

(** Nodes are allocated in document order, so the nodes that precede the
    node at [a] are those at smaller addresses.  [nearest_smaller h r lv a]
    walks back from [a] to the root [r] and stops at the first heading node
    whose level is below [lv]; it answers [r] when there is none. *)
Fixpoint nearest_smaller (h : Heap) (r : addr) (lv : Z) (a : addr) : addr :=
  match a with
  | O => r
  | S b =>
      if bool_decide (b ≤ r)%nat then r
      else match h !! b with
           | Some n =>
               if is_heading n && bool_decide (level n < lv) then b
               else nearest_smaller h r lv b
           | None => nearest_smaller h r lv b
           end
  end.

(** The part of a [markdown.Markdown] instance this package touches: the
    entry of its tree-processor registry named "ast_extractor", and the
    texts the instance has converted, oldest first.
    [Registry.register] under a name that is already taken replaces the
    item.  The library's own tree processors have lower priorities than
    175, run after it and never see a [MarkdownNode].  The package never
    calls [reset()], so what the instance gathered from the earlier texts
    (the entries and the counter of its stash of raw HTML and code blocks,
    references, footnotes) stays with it: its state is a function of the
    texts it converted. *)
Record Markdown := mkMarkdown {
  ast_extractor : option MarkdownTreeProcessor;
  converted : list string
}.

(** [MarkdownParser.__init__]: [markdown.Markdown(extensions=["extra"])] *)
Definition MarkdownParser_init : Markdown := mkMarkdown None [].

Section Parser.
(** The preprocessors and the block parser of the Markdown library, an
    external collaborator: the element tree they build from the source
    text on an instance that converted the texts [before] (oldest first)
    since it was made.  [None] is a source that is blank, on which
    [convert] returns before any tree processor runs. *)
Variable block_parser : list string → string → option Element.

(** [md.convert(content)]: [MarkdownTreeProcessor.run] on the registered
    processor, as the conversion triggers it. *)
Definition convert (text : string) (h : Heap) (md : Markdown)
  : option (Heap * Markdown) :=
  match block_parser (converted md) text, ast_extractor md with
  | Some e, Some p =>
      '(h', p') ← _process_element e (h, p);
      Some (h', mkMarkdown (Some p') (converted md ++ [text]))
  | _, _ => Some (h, mkMarkdown (ast_extractor md) (converted md ++ [text]))
  end.

(** [MarkdownParser.parse]: the address of [processor.root], with the
    heap and the parser's [md] after the call. *)
Definition parse (text : string) (h : Heap) (md : Markdown)
  : option (addr * Heap * Markdown) :=
  let '(h1, processor) := new_processor h in
  let md1 := mkMarkdown (Some processor) (converted md) in
  '(h2, md2) ← convert text h1 md1;
  Some (root processor, h2, md2).
End Parser.

(** The shape and content of the tree below a node: type, content and
    level of each node, children in their stored order. *)
#[warnings="-register-all"]
Inductive Tree : Type :=
  TNode (ty : string) (c : string) (lv : Z) (ks : list Tree).

(** Reads the tree below [a] out of the heap, to depth [fuel]. *)
Fixpoint extract (fuel : nat) (h : Heap) (a : addr) : option Tree :=
  match fuel with
  | O => None
  | S f =>
      n ← h !! a;
      ks ← mapM (extract f h) (children n);
      Some (TNode (node_type n) (content n) (level n) ks)
  end.

(** The loop over the child elements at the end of [_process_element]. *)
Fixpoint process_all (l : list Element) (s : Heap * MarkdownTreeProcessor)
  : option (Heap * MarkdownTreeProcessor) :=
  match l with
  | [] => Some s
  | k :: l' => s' ← _process_element k s; process_all l' s'
  end.

(** [q] is the nearest heading node before [b] whose level is below [lv],
    or the root [r] when no heading before [b] has a level below [lv]. *)
Definition nearest_preceding (h : Heap) (r : addr) (lv : Z) (b q : addr)
  : Prop :=
  (q = r ∨
   (r < q < b)%nat ∧ ∃ n, h !! q = Some n ∧ is_heading n = true ∧ level n < lv)
  ∧ ∀ c n, (q < c < b)%nat → h !! c = Some n → is_heading n = true →
           lv ≤ level n.

(** What a node keeps of the element it was made for: type, content and
    level. *)
Definition summary (n : MarkdownNode) : string * string * Z :=
  (node_type n, content n, level n).

(** The node an element asks for: a heading element [hD] a heading of
    level [D] with its trimmed inner text, a paragraph element with text
    a paragraph. *)
Definition element_node (e : Element) : list (string * string * Z) :=
  match heading_tag (tag e) with
  | Some c =>
      match int_of_char c with
      | Some lv => [("heading", strip (itertext e), lv)]
      | None => []
      end
  | None =>
      if bool_decide (tag e = "p") && truthy (strip (itertext e))
      then [("paragraph", strip (itertext e), 0)]
      else []
  end.

(** The nodes the elements of a document ask for, in document order: an
    element before the elements inside it, these from the first on. *)
Fixpoint element_nodes (e : Element) : list (string * string * Z) :=
  match e with
  | Elem _ _ _ ks => element_node e ++ flat_map element_nodes ks
  end.

(** In the sequence [es], [j] is the nearest heading before position [k]
    whose level is below [lv]; [None]: no heading before [k] has a level
    below [lv]. *)
Definition nearest_heading_before (es : list (string * string * Z)) (k : nat)
  (lv : Z) (j : option nat) : Prop :=
  match j with
  | Some j =>
      (j < k)%nat ∧
      (∃ c lv', es !! j = Some ("heading", c, lv') ∧ lv' < lv) ∧
      ∀ i c lv', (j < i < k)%nat → es !! i = Some ("heading", c, lv') →
                 lv ≤ lv'
  | None =>
      ∀ i c lv', (i < k)%nat → es !! i = Some ("heading", c, lv') → lv ≤ lv'
  end.

(** The address of the node made for the entry [j] of the sequence by a
    processor whose root is at [r]; of the root for [None]. *)
Definition node_of (r : addr) (j : option nat) : addr :=
  match j with
  | Some j => (r + 1 + j)%nat
  | None => r
  end.

(** ** neo4j_graph.py: the graph writer *)

(** The values that travel between the package and the store: [None]
    (Cypher's null), strings and integers. *)
Inductive Value : Type :=
| VNull
| VStr (s : string)
| VInt (z : Z).

Global Instance Value_eq_dec : EqDecision Value.
Proof. solve_decision. Defined.

(** The query texts of [Neo4jGraph]. *)
Inductive Query : Type :=
| ClearGraph
    (* MATCH (n) DETACH DELETE n *)
| CreateRootNode
    (* CREATE (n:Node {id: $id, type: $type, content: $content}) RETURN n *)
| CreateNode
    (* CREATE (n:Node {id: $id, type: $type, content: $content,
                       level: $level}) RETURN n *)
| CreateRelationship
    (* MATCH (parent:Node {id: $parent_id})
       MATCH (child:Node {id: $child_id})
       CREATE (parent)-[:CONTAINS]->(child) *)
| MatchRoot
    (* MATCH (n:Node {type: 'root'}) RETURN n *)
| MatchChildren
    (* MATCH (parent:Node {id: $node_id})-[:CONTAINS]->(child:Node)
       RETURN child ORDER BY child.level, child.id *).

Global Instance Query_eq_dec : EqDecision Query.
Proof. solve_decision. Defined.

(** A statement handed to [_execute_query]: the query and its parameter
    dictionary. *)
Abbreviation Statement := (Query * gmap string Value)%type (only parsing).

(** [f"node_{n}"] *)
Definition node_name (n : nat) : string := "node_" +:+ pretty n.

(** [node.id] as a parameter value *)
Definition id_value (n : MarkdownNode) : Value :=
  match node_id n with Some i => VStr i | None => VNull end.

(** The parameters of the statement that creates the root node. *)
Definition root_params (n : MarkdownNode) : gmap string Value :=
  <["id" := id_value n]>
  (<["type" := VStr (node_type n)]>
  (<["content" := VStr (content n)]> ∅)).

(** The parameters of the statement that creates any other node. *)
Definition node_params (n : MarkdownNode) : gmap string Value :=
  <["id" := id_value n]>
  (<["type" := VStr (node_type n)]>
  (<["content" := VStr (content n)]>
  (<["level" := VInt (level n)]> ∅))).

Definition relationship_params (p c : MarkdownNode) : gmap string Value :=
  <["parent_id" := id_value p]> (<["child_id" := id_value c]> ∅).

Section Walk.
Context {A : Type}.

(** The body a traversal runs for the child at [child] of the node at
    [parent], with the value of [node_count]; it works on the heap and on
    what the traversal collects. *)
Variable visit : addr → addr → nat → Heap * A → Heap * A.

(** The traversal that five methods of [Neo4jGraph] share:
    [[
    while stack:
        parent, child_index = stack.pop()
        if child_index < len(parent.children):
            child = parent.children[child_index]
            stack.append((parent, child_index + 1))
            <body>; node_count += 1
            if child.children:
                stack.append((child, 0))
    ]]
    [fuel] bounds the number of iterations; [None] is a loop that was
    still running when the fuel ran out. *)
Fixpoint walk (fuel : nat) (stack : list (addr * nat)) (node_count : nat)
  (st : Heap * A) : option (Heap * A) :=
  match stack with
  | [] => Some st
  | (parent, child_index) :: stack' =>
      match fuel with
      | O => None
      | S fuel' =>
          pn ← st.1 !! parent;
          match children pn !! child_index with
          | None => walk fuel' stack' node_count st
          | Some child =>
              let stack1 := (parent, S child_index) :: stack' in
              let st' := visit parent child node_count st in
              cn ← st'.1 !! child;
              let stack2 :=
                match children cn with
                | [] => stack1
                | _ :: _ => (child, O) :: stack1
                end in
              walk fuel' stack2 (S node_count) st'
          end
      end
  end.
End Walk.

(** [child.id = f"node_{node_count}"] *)
Definition assign_id (child : addr) (n : nat) (h : Heap) : Heap :=
  alter (set_id (node_name n)) child h.

(** [Neo4jGraph._assign_node_ids] *)
Definition _assign_node_ids (fuel : nat) (h : Heap) (root_node : addr)
  : option Heap :=
  let h0 := alter (set_id "node_0") root_node h in
  fst <$> walk (λ _ child n st, (assign_id child n st.1, st.2))
               fuel [(root_node, O)] 1 (h0, tt).

(** The statement [_create_nodes] executes for a child, read from the heap
    after the child got its id. *)
Definition create_statement (h : Heap) (child : addr) : list Statement :=
  match h !! child with
  | Some cn => [(CreateNode, node_params cn)]
  | None => []
  end.

(** [Neo4jGraph._create_nodes]: the heap with the ids assigned and the
    statements executed, in order. *)
Definition _create_nodes (fuel : nat) (h : Heap) (root_node : addr)
  : option (Heap * list Statement) :=
  let h0 := alter (set_id "node_0") root_node h in
  rn ← h0 !! root_node;
  walk (λ _ child n st,
          let h' := assign_id child n st.1 in
          (h', st.2 ++ create_statement h' child))
       fuel [(root_node, O)] 1 (h0, [(CreateRootNode, root_params rn)]).

(** The statement [_create_relationships] executes for a child. *)
Definition relationship_statement (h : Heap) (parent child : addr)
  : list Statement :=
  match h !! parent, h !! child with
  | Some pn, Some cn => [(CreateRelationship, relationship_params pn cn)]
  | _, _ => []
  end.

(** [Neo4jGraph._create_relationships] *)
Definition _create_relationships (fuel : nat) (h : Heap) (root_node : addr)
  : option (Heap * list Statement) :=
  walk (λ parent child _ st,
          (st.1, st.2 ++ relationship_statement st.1 parent child))
       fuel [(root_node, O)] 0 (h, []).

(** [Neo4jGraph._escape_string]: [s.replace("'", "\\'")] *)
Fixpoint _escape_string (s : string) : string :=
  match s with
  | EmptyString => EmptyString
  | String c s' =>
      if Ascii.eqb c "'"%char
      then String "092"%char (String "'"%char (_escape_string s'))
      else String c (_escape_string s')
  end.

(** The line [_generate_node_queries] renders for a child that was
    numbered [k]. *)
Definition node_query (k : nat) (cn : MarkdownNode) : string :=
  "CREATE (" +:+ node_name k +:+ ":Node {id: '" +:+ node_name k +:+
  "', type: '" +:+ node_type cn +:+ "', content: '" +:+
  _escape_string (content cn) +:+ "'" +:+
  (if bool_decide (0 < level cn) then ", level: " +:+ pretty (level cn)
   else "") +:+
  "});".

Definition query_line (h : Heap) (child : addr) (k : nat) : list string :=
  match h !! child with
  | Some cn => [node_query k cn]
  | None => []
  end.

(** [Neo4jGraph._generate_node_queries]: the heap with the ids assigned
    and the lines of the script. *)
Definition _generate_node_queries (fuel : nat) (h : Heap) (root_node : addr)
  : option (Heap * list string) :=
  h0 ← _assign_node_ids fuel h root_node;
  walk (λ _ child n st,
          let h' := assign_id child n st.1 in
          (h', st.2 ++ query_line h' child n))
       fuel [(root_node, O)] 1
       (h0, ["CREATE (node_0:Node {id: 'node_0', type: 'root', content: ''});"]).

(** The text of a query, as the methods of [Neo4jGraph] write it: the
    triple-quoted texts keep the line breaks and the indentation of the
    source. *)
Definition query_text (q : Query) : string :=
  let i8 := "        " in
  let i16 := "                " in
  match q with
  | ClearGraph => "MATCH (n) DETACH DELETE n"
  | CreateRootNode =>
      nl +:+ i8 +:+ "CREATE (n:Node {id: $id, type: $type, content: $content})"
      +:+ nl +:+ i8 +:+ "RETURN n" +:+ nl +:+ i8
  | CreateNode =>
      nl +:+ i16
      +:+ "CREATE (n:Node {id: $id, type: $type, content: $content, level: $level})"
      +:+ nl +:+ i16 +:+ "RETURN n" +:+ nl +:+ i16
  | CreateRelationship =>
      nl +:+ i16 +:+ "MATCH (parent:Node {id: $parent_id})"
      +:+ nl +:+ i16 +:+ "MATCH (child:Node {id: $child_id})"
      +:+ nl +:+ i16 +:+ "CREATE (parent)-[:CONTAINS]->(child)" +:+ nl +:+ i16
  | MatchRoot =>
      nl +:+ i8 +:+ "MATCH (n:Node {type: 'root'})"
      +:+ nl +:+ i8 +:+ "RETURN n" +:+ nl +:+ i8
  | MatchChildren =>
      nl +:+ i8
      +:+ "MATCH (parent:Node {id: $node_id})-[:CONTAINS]->(child:Node)"
      +:+ nl +:+ i8 +:+ "RETURN child"
      +:+ nl +:+ i8 +:+ "ORDER BY child.level, child.id" +:+ nl +:+ i8
  end.

(** ** Effects: exceptions, the logger, the store connection *)

(** The exceptions the package can meet. *)
Inductive exn : Type :=
| KeyError (k : string)      (* d[k] on a dictionary without k *)
| TypeError                  (* "#" * s, or join over a non-string *)
| ValueError                 (* int("r") *)
| RecursionError             (* recursion deeper than the limit *)
| FileNotFoundError (file : string)  (* open(file) *)
| AttributeError             (* self.driver is None *)
| StopIteration              (* a mock that ran out of answers *)
| Neo4jError                 (* the driver or a statement failed *)
| MarkupError (markup : string).
                             (* rich's console on a text it cannot parse *)

Inductive result (A : Type) : Type :=
| Ok (a : A)
| Raise (e : exn).
Arguments Ok {A} a.
Arguments Raise {A} e.

(** What a run leaves behind. *)
Inductive Event : Type :=
| Logged (line : string)
    (* self.console.print(line, style=...) returned: rich has written the
       text of the console markup [line] to stderr, its tags applied *)
| Printed (text : string)    (* print(text) *)
| Opened                     (* neo4j.GraphDatabase.driver(...) returned *)
| Closed                     (* driver.close() *)
| Ran (q : Query) (params : gmap string Value).
                             (* session.run(query, parameters) returned *)

(** The state a run threads: the logger singleton (its level, and its
    console: the texts among those with a tag on which [Console.print]
    raises [MarkupError], a matter of rich's markup and style parsers),
    the number of calls made to the store (or to a mock of it) and the
    events so far, oldest first. *)
Record Env := mkEnv {
  log_level : string;
  console : string → bool;
  calls : nat;
  trace : list Event
}.

(** *** rich's console markup *)

(** A character that can follow the "[" of a tag: the class [[a-z#/@]] of
    [RE_TAGS]. *)
Definition tag_start (c : ascii) : bool :=
  let n := nat_of_ascii c in
  (97 <=? n)%nat && (n <=? 122)%nat
  || Ascii.eqb c "#" || Ascii.eqb c "/" || Ascii.eqb c "@".

(** Some "[" of the text is followed by such a character.  A text without
    one holds no tag: [render] takes it as plain text and raises
    nothing. *)
Fixpoint has_tag (s : string) : bool :=
  match s with
  | EmptyString => false
  | String c s' =>
      Ascii.eqb c "["
      && match s' with String d _ => tag_start d | EmptyString => false end
      || has_tag s'
  end.

(** The text of a tag that starts right after a "[": up to the first "]",
    when no "[" comes before it ([[^[]*?]] of [RE_TAGS]). *)
Fixpoint tag_body (s : string) : option string :=
  match s with
  | EmptyString => None
  | String c s' =>
      if Ascii.eqb c "]" then Some EmptyString
      else if Ascii.eqb c "[" then None
      else String c <$> tag_body s'
  end.

(** The first tag of a text with its position, as [_parse] finds it:
    [i] is the position reached, [odd] says that an odd number of
    backslashes stands right before it (such a tag is escaped and is
    text), [skip] that the position is inside an escaped tag. *)
Fixpoint first_tag (i : nat) (odd skip : bool) (s : string)
  : option (nat * string) :=
  match s with
  | EmptyString => None
  | String c s' =>
      if skip then first_tag (S i) false (negb (Ascii.eqb c "]")) s'
      else if Ascii.eqb c "092" then first_tag (S i) (negb odd) false s'
      else if Ascii.eqb c "[" then
        match s' with
        | String d _ =>
            if tag_start d then
              match tag_body s' with
              | Some body =>
                  if odd then first_tag (S i) false true s'
                  else Some (i, body)
              | None => first_tag (S i) false false s'
              end
            else first_tag (S i) false false s'
        | EmptyString => None
        end
      else first_tag (S i) false false s'
  end.

(** The first tag of the text is a closing tag.  No tag is open there,
    so [render] raises [MarkupError] on such a text whatever follows. *)
Definition closes_first (s : string) : bool :=
  match first_tag 0 false false s with
  | Some (_, String "/" _) => true
  | _ => false
  end.

(** [tag.name]: the text of the tag before its first "=". *)
Fixpoint tag_name (body : string) : string :=
  match body with
  | EmptyString => EmptyString
  | String c s' => if Ascii.eqb c "=" then EmptyString else String c (tag_name s')
  end.

(** The text of the [MarkupError] for a text whose first tag is a closing
    tag. *)
Definition closing_tag_text (s : string) : string :=
  match first_tag 0 false false s with
  | Some (i, String "/" rest as body) =>
      if truthy (strip (tag_name rest)) then
        "closing tag '[" +:+ body +:+ "]' at position " +:+ pretty i
        +:+ " doesn't match any open tag"
      else "closing tag '[/]' at position " +:+ pretty i
           +:+ " has nothing to close"
  | _ => ""
  end.

(** [Logger.__init__]: the default level is "ERROR".  The console of
    this logger rejects the texts whose first tag is a closing tag; which
    other texts rich rejects depends on its style names, and the theorems
    on loggers are stated for every console. *)
Definition initial_env : Env := mkEnv "ERROR" closes_first 0 [].

(** Computations that read and change the [Env] and may raise. *)
Definition M (A : Type) : Type := Env → result A * Env.

Global Instance M_ret : MRet M := λ A a env, (Ok a, env).

Global Instance M_bind : MBind M := λ A B f m env,
  match m env with
  | (Ok a, env') => f a env'
  | (Raise e, env') => (Raise e, env')
  end.

Definition raise {A : Type} (e : exn) : M A := λ env, (Raise e, env).

(** [try: m  except Exception as e: handler(e)] *)
Definition try_except {A : Type} (m : M A) (handler : exn → M A) : M A :=
  λ env, match m env with
         | (Raise e, env') => handler e env'
         | r => r
         end.

Definition emit (ev : Event) : M () := λ env,
  (Ok (), mkEnv (log_level env) (console env) (calls env) (trace env ++ [ev])).

(** Reads the call counter and advances it. *)
Definition tick : M nat := λ env,
  (Ok (calls env),
   mkEnv (log_level env) (console env) (S (calls env)) (trace env)).

(** A loop over a list that carries a value through its iterations. *)
Fixpoint for_each {A B : Type} (body : B → A → M B) (l : list A) (acc : B)
  : M B :=
  match l with
  | [] => mret acc
  | x :: l' => acc' ← body acc x; for_each body l' acc'
  end.

(** *** logger.py *)

(** [Logger.LEVELS] *)
Definition LEVELS (name : string) : option nat :=
  if bool_decide (name = "ERROR") then Some 0%nat
  else if bool_decide (name = "WARNING") then Some 1%nat
  else if bool_decide (name = "INFO") then Some 2%nat
  else if bool_decide (name = "DEBUG") then Some 3%nat
  else if bool_decide (name = "TRACE") then Some 4%nat
  else None.

(** [Logger.set_level] *)
Definition set_level (name : string) : M () := λ env,
  (Ok (), if bool_decide (is_Some (LEVELS name))
          then mkEnv name (console env) (calls env) (trace env) else env).

(** [Logger._should_log]:
    [self.LEVELS.get(level, 0) <= self.LEVELS.get(self.level, 0)] *)
Definition _should_log (name : string) (env : Env) : bool :=
  bool_decide (default 0%nat (LEVELS name)
               ≤ default 0%nat (LEVELS (log_level env)))%nat.

(** [self.console.print(line, style=...)]: markup is on, so the console
    parses the tags of the line. *)
Definition console_print (line : string) : M () := λ env,
  if has_tag line && console env line then (Raise (MarkupError line), env)
  else emit (Logged line) env.

(** [Logger.error], [Logger.info], [Logger.debug] and the like, by the name
    of the level. *)
Definition log (name message : string) : M () := λ env,
  if _should_log name env then console_print (name +:+ ": " +:+ message) env
  else (Ok (), env).

(** The logger raises on this message: it is logged at this level and the
    console rejects its line. *)
Definition rejected (env : Env) (name message : string) : bool :=
  _should_log name env
  && has_tag (name +:+ ": " +:+ message)
  && console env (name +:+ ": " +:+ message).

Definition logger_error : string → M () := log "ERROR".
Definition logger_info : string → M () := log "INFO".
Definition logger_debug : string → M () := log "DEBUG".

(** *** The store *)

(** A node as the driver hands it over: the dictionary of its
    properties. *)
Abbreviation Dict := (gmap string Value) (only parsing).

(** The contents of the graph store, as far as the two read queries can
    see them: the nodes labelled [Node] and the [CONTAINS] relationships,
    each from one node to another (positions in [nodes]). *)
Record Store := mkStore {
  nodes : list Dict;
  relationships : list (nat * nat)
}.

(** The server behind a driver: what it stores, and which of the
    statements run against it fail (by their number in the run). *)
Record Server := mkServer {
  store : Store;
  fails : nat → bool
}.

(** Cypher's ascending order of property values, on the values of this
    model: strings before integers, a missing property (null) last;
    strings by code points, integers by value. *)
Definition value_le (x y : option Value) : bool :=
  match x, y with
  | Some (VStr a), Some (VStr b) => String.leb a b
  | Some (VStr _), _ => true
  | Some (VInt _), Some (VStr _) => false
  | Some (VInt a), Some (VInt b) => bool_decide (a ≤ b)
  | Some (VInt _), _ => true
  | _, Some (VStr _) => false
  | _, Some (VInt _) => false
  | _, _ => true
  end.

(** [ORDER BY child.level, child.id] *)
Definition child_le (x y : Dict) : bool :=
  if value_le (x !! "level") (y !! "level")
  then if value_le (y !! "level") (x !! "level")
       then value_le (x !! "id") (y !! "id")
       else true
  else false.

Fixpoint insert_child (x : Dict) (l : list Dict) : list Dict :=
  match l with
  | [] => [x]
  | y :: l' => if child_le x y then x :: l else y :: insert_child x l'
  end.

(** A sort that is stable on ties. *)
Definition order_children (l : list Dict) : list Dict :=
  foldr insert_child [] l.

(** [MATCH (n:Node {type: 'root'}) RETURN n] *)
Definition match_root (s : Store) : list Dict :=
  filter (λ n, n !! "type" = Some (VStr "root")) (nodes s).

(** [MATCH (parent:Node {id: $node_id})-[:CONTAINS]->(child:Node)
     RETURN child ORDER BY child.level, child.id] *)
Definition match_children (s : Store) (node_id : Value) : list Dict :=
  order_children
    (omap (λ '(p, c),
             pn ← nodes s !! p;
             if bool_decide (pn !! "id" = Some node_id ∧ node_id ≠ VNull)
             then nodes s !! c else None)
          (relationships s)).

(** What the server answers to a statement.  The statements that write
    are answered from their parameters; a run of this package never reads
    the store after it wrote to it. *)
Definition answer (srv : Server) (q : Query) (params : gmap string Value)
  : list Dict :=
  match q with
  | MatchRoot => match_root (store srv)
  | MatchChildren =>
      match params !! "node_id" with
      | Some v => match_children (store srv) v
      | None => []
      end
  | CreateRootNode | CreateNode => [filter (λ kv, kv.2 ≠ VNull) params]
  | ClearGraph | CreateRelationship => []
  end.

(** *** neo4j_graph.py: the connection and the read queries *)

(** [class Neo4jGraph]: [driver] is [None] until [connect]. *)
Record Neo4jGraph := mkGraph {
  driver : option Server
}.

(** [Neo4jGraph._execute_query] *)
Definition _execute_query (g : Neo4jGraph) (q : Query)
  (params : gmap string Value) : M (list Dict) :=
  logger_debug ("Executing query: " +:+ query_text q);;
  match driver g with
  | None => raise AttributeError
  | Some srv =>
      k ← tick;
      if fails srv k then raise Neo4jError
      else emit (Ran q params);; mret (answer srv q params)
  end.

(** [Neo4jGraph.get_root_node] *)
Definition Neo4jGraph_get_root_node (g : Neo4jGraph) : M (option Dict) :=
  rows ← _execute_query g MatchRoot ∅;
  mret (head rows).

(** [Neo4jGraph.get_children] *)
Definition Neo4jGraph_get_children (g : Neo4jGraph) (node_id : Value)
  : M (list Dict) :=
  _execute_query g MatchChildren {[ "node_id" := node_id ]}.

(** ** traversal.py *)

(** What [GraphTraversal] asks of its graph; the tests pass a mock. *)
Class Graph (G : Type) := {
  get_root_node : G → M (option Dict);
  get_children : G → Value → M (list Dict)
}.

Global Instance Neo4jGraph_Graph : Graph Neo4jGraph := {
  get_root_node := Neo4jGraph_get_root_node;
  get_children := Neo4jGraph_get_children
}.

(** [d[k]] *)
Definition getitem (d : Dict) (k : string) : M Value :=
  match d !! k with
  | Some v => mret v
  | None => raise (KeyError k)
  end.

(** [f"{v}"] *)
Definition format (v : Value) : string :=
  match v with
  | VStr s => s
  | VInt z => pretty z
  | VNull => "None"
  end.

(** ["\n".join(lines)], a [TypeError] when a line is not a string. *)
Definition join_lines (lines : list Value) : M string :=
  match mapM (λ v, match v with VStr s => Some s | _ => None end) lines with
  | Some ls => mret (join nl ls)
  | None => raise TypeError
  end.

(** The body of the loop of [_traverse_node] up to the recursive call:
    the lines a child adds. *)
Definition render_child (child : Dict) (lines : list Value)
  : M (list Value) :=
  ty ← getitem child "type";
  if bool_decide (ty = VStr "heading") then
    let lv := default (VInt 1) (child !! "level") in
    heading_prefix ←
      match lv with
      | VInt n => mret (str_repeat "#" n)
      | _ => raise TypeError
      end;
    c ← getitem child "content";
    mret (lines ++ [VStr (heading_prefix +:+ " " +:+ format c); VStr ""])
  else
    ty' ← getitem child "type";
    if bool_decide (ty' = VStr "paragraph") then
      c ← getitem child "content";
      mret (lines ++ [c; VStr ""])
    else mret lines.

Section Traversal.
Context {G : Type} `{Graph G}.

(** [GraphTraversal._traverse_node]; [depth] is how deep the recursion
    may still go before the interpreter raises [RecursionError]. *)
Fixpoint _traverse_node (g : G) (depth : nat) (node_id : Value)
  (lines : list Value) : M (list Value) :=
  match depth with
  | O => raise RecursionError
  | S depth' =>
      cs ← get_children g node_id;
      for_each (λ lines child,
                  lines' ← render_child child lines;
                  child_id ← getitem child "id";
                  _traverse_node g depth' child_id lines')
               cs lines
  end.

(** [GraphTraversal.traverse_and_print] *)
Definition traverse_and_print (g : G) (depth : nat) : M string :=
  logger_info "Traversing graph";;
  root_node ← get_root_node g;
  match root_node with
  | Some d =>
      if bool_decide (d = ∅) then
        logger_error "Root node not found in graph";; mret ""
      else
        root_id ← getitem d "id";
        markdown_lines ← _traverse_node g depth root_id [];
        join_lines markdown_lines
  | None => logger_error "Root node not found in graph";; mret ""
  end.
End Traversal.

(** ** credentials.py *)

(** [a or b] on an optional string: [a] unless it is [None] or empty. *)
Definition or_else (a : option string) (b : string) : string :=
  match a with
  | Some s => if truthy s then s else b
  | None => b
  end.

(** [os.environ.get(name, fallback)] *)
Definition environ_get (environ : gmap string string) (name fallback : string)
  : string :=
  default fallback (environ !! name).

(** [get_neo4j_credentials] *)
Definition get_neo4j_credentials (environ : gmap string string)
  (uri username password : option string) : string * string * string :=
  (or_else uri (environ_get environ "NEO4J_URI" "bolt://localhost:7687"),
   or_else username (environ_get environ "NEO4J_USERNAME" "neo4j"),
   or_else password (environ_get environ "NEO4J_PASSWORD" "neo4j")).

(** ** neo4j_graph.py: connecting, and writing the graph *)

(** The world a command runs in: the environment variables, the files,
    the Markdown library's block parser, the server a driver reaches for
    a URI and credentials ([None]: the driver raises), the depth to
    which the interpreter lets the program recurse, and [str(e)] for the
    exceptions raised in it: the texts that Python, the driver and rich
    give them. *)
Record World := mkWorld {
  environ : gmap string string;
  files : gmap string string;
  block_parser : list string → string → option Element;
  open_driver : string → string → string → option Server;
  recursion_limit : nat;
  exception_text : exn → string
}.

(** The handler of [Neo4jGraph.connect]:
    [logger.error(f"Failed to connect to Neo4j: {e}"); raise] *)
Definition connect_failed (w : World) (e : exn) : M Neo4jGraph :=
  logger_error ("Failed to connect to Neo4j: " +:+ exception_text w e);;
  raise e.

(** [Neo4jGraph.connect], on a graph built by [Neo4jGraph(uri, username,
    password)]: the graph with its driver set.  The message that reports
    the connection is logged inside the [try] block. *)
Definition connect (w : World) (uri username password : string)
  : M Neo4jGraph :=
  try_except
    (match open_driver w uri username password with
     | Some srv =>
         emit Opened;;
         logger_info ("Connected to Neo4j at " +:+ uri);;
         mret (mkGraph (Some srv))
     | None => raise Neo4jError
     end)
    (connect_failed w).

(** [Neo4jGraph.disconnect] *)
Definition disconnect (g : Neo4jGraph) : M () :=
  match driver g with
  | Some _ => emit Closed;; logger_info "Disconnected from Neo4j"
  | None => mret ()
  end.

(** Executing statements one after the other.  The writer never looks at
    the answer to a statement, so the statements it executes are those the
    traversals above list, up to the first one that fails. *)
Definition execute_all (g : Neo4jGraph) (stmts : list Statement) : M () :=
  for_each (λ _ s, _execute_query g s.1 s.2;; mret ()) stmts ().

(** [Neo4jGraph.create_graph]; [None] when a traversal was still running
    as the fuel ran out. *)
Definition Neo4jGraph_create_graph (fuel : nat) (g : Neo4jGraph) (h : Heap)
  (root_node : addr) : M (option Heap) :=
  logger_info "Creating graph from markdown AST";;
  _execute_query g ClearGraph ∅;;
  match _create_nodes fuel h root_node with
  | None => mret None
  | Some (h1, stmts) =>
      execute_all g stmts;;
      match _create_relationships fuel h1 root_node with
      | None => mret None
      | Some (h2, stmts') =>
          execute_all g stmts';;
          logger_info "Graph creation completed";;
          mret (Some h2)
      end
  end.

(** ** cli.py *)

(** How a command ends: it returns, [sys.exit(code)] ends the process,
    or an exception leaves the command. *)
Inductive Outcome : Type :=
| Returned
| Exited (code : Z)
| Uncaught (e : exn).

(** [except Exception as e: logger.error(f"{what}: {e}"); sys.exit(1)] *)
Definition except_exit (w : World) (what : string) (e : exn) (env : Env)
  : Outcome * Env :=
  match logger_error (what +:+ ": " +:+ exception_text w e) env with
  | (Ok _, env') => (Exited 1, env')
  | (Raise e', env') => (Uncaught e', env')
  end.

(** The [try] block of [create_graph]. *)
Definition create_graph_body (w : World) (fuel : nat) (file : string)
  (uri username password : option string) : M (option ()) :=
  let '(uri', username', password') :=
    get_neo4j_credentials (environ w) uri username password in
  text ← match files w !! file with
         | Some c => mret c
         | None => raise (FileNotFoundError file)
         end;
  match parse (block_parser w) text [] MarkdownParser_init with
  | None => raise ValueError
  | Some (ast, h, _) =>
      graph ← connect w uri' username' password';
      r ← Neo4jGraph_create_graph fuel graph h ast;
      match r with
      | None => mret None
      | Some _ => disconnect graph;; mret (Some ())
      end
  end.

(** The command [create-graph].  [None] when a traversal of the writer
    was still running as the fuel ran out. *)
Definition create_graph (w : World) (fuel : nat) (file : string)
  (uri username password : option string) (env : Env)
  : option (Outcome * Env) :=
  match create_graph_body w fuel file uri username password env with
  | (Ok (Some _), env') => Some (Returned, env')
  | (Ok None, _) => None
  | (Raise e, env') => Some (except_exit w "Error creating graph" e env')
  end.

(** The [try] block of [traverse_graph]. *)
Definition traverse_graph_body (w : World)
  (uri username password : option string) : M () :=
  let '(uri', username', password') :=
    get_neo4j_credentials (environ w) uri username password in
  graph ← connect w uri' username' password';
  markdown ← traverse_and_print graph (recursion_limit w);
  emit (Printed markdown);;
  disconnect graph.

(** The command [traverse-graph]. *)
Definition traverse_graph (w : World) (uri username password : option string)
  (env : Env) : Outcome * Env :=
  match traverse_graph_body w uri username password env with
  | (Ok _, env') => (Returned, env')
  | (Raise e, env') => except_exit w "Error traversing graph" e env'
  end.

(** The events of a run that open or close a connection. *)
Definition is_connection_event (ev : Event) : bool :=
  match ev with
  | Opened | Closed => true
  | _ => false
  end.

Definition connection (env : Env) : list Event :=
  List.filter is_connection_event (trace env).

(** A computation that neither opens nor closes a connection. *)
Definition quiet {A : Type} (m : M A) : Prop :=
  ∀ env, connection (m env).2 = connection env.

(** The line the handler of a command passes to the console for the
    exception [e]. *)
Definition error_line (w : World) (what : string) (e : exn) : string :=
  "ERROR: " +:+ what +:+ ": " +:+ exception_text w e.

(** A command whose [try] block raised [e] and left [env1] ends in its
    handler: the handler passes the line of [e] to the logger and, once
    the line is logged, exits with status 1; when the console rejects the
    line, its [MarkupError] leaves the command and nothing is logged. *)
Definition handler_ends (w : World) (what : string) (e : exn) (env1 : Env)
  (out : Outcome) (env' : Env) : Prop :=
  let line := error_line w what e in
  if has_tag line && console env1 line
  then out = Uncaught (MarkupError line) ∧ trace env' = trace env1
  else out = Exited 1 ∧ trace env' = trace env1 ++ [Logged line].

(** ** Trees in the heap *)

(** The addresses of a tree of nodes. *)
#[warnings="-register-all"]
Inductive tree : Type := Node (a : addr) (ts : list tree).

Definition tree_addr (t : tree) : addr := let 'Node a _ := t in a.
Definition subtrees (t : tree) : list tree := let 'Node _ ts := t in ts.

(** The heap holds the tree [t]: the children of each node of [t] are the
    roots of its subtrees, in order. *)
Fixpoint represents (h : Heap) (t : tree) : bool :=
  match t with
  | Node a ts =>
      bool_decide (children <$> h !! a = Some (tree_addr <$> ts))
      && forallb (represents h) ts
  end.

(** Pre-order: a node, then its subtrees from the first child on. *)
Fixpoint preorder (t : tree) : list addr :=
  match t with
  | Node a ts => a :: flat_map preorder ts
  end.

(** The (parent, child) pairs below a node, in the order the traversal
    visits the children. *)
Fixpoint edges (p : addr) (t : tree) : list (addr * addr) :=
  match t with
  | Node a ts => (p, a) :: flat_map (edges a) ts
  end.

(** Iterations the traversal spends on a subtree, and on the frame of a
    node with subtrees [ts]. *)
Fixpoint cost (t : tree) : nat :=
  match t with
  | Node _ [] => 1
  | Node _ ts => S (S (list_sum (List.map cost ts)))
  end.

Definition frame_cost (ts : list tree) : nat :=
  S (list_sum (List.map cost ts)).

(** Running the body over a list of (parent, child) pairs, counting from
    [n]. *)
Fixpoint visit_all {A : Type}
  (visit : addr → addr → nat → Heap * A → Heap * A)
  (l : list (addr * addr)) (n : nat) (st : Heap * A) : Heap * A :=
  match l with
  | [] => st
  | (p, c) :: l' => visit_all visit l' (S n) (visit p c n st)
  end.

(** Numbering the nodes of a list from [n]. *)
Fixpoint assign_ids (l : list addr) (n : nat) (h : Heap) : Heap :=
  match l with
  | [] => h
  | a :: l' => assign_ids l' (S n) (assign_id a n h)
  end.

(** Two heaps with the same children lists at every address. *)
Definition same_shape (h h' : Heap) : Prop :=
  ∀ a, children <$> h' !! a = children <$> h !! a.

(** The iterations spent on the frame [(a, i)] visit the subtrees that
    are left below [a], in pre-order, and then drop the frame. *)
Definition walks_frame {A : Type}
  (visit : addr → addr → nat → Heap * A → Heap * A)
  (a : addr) (ts : list tree) : Prop :=
  ∀ i fuel stack n st,
    (∃ pn, st.1 !! a = Some pn ∧ drop i (children pn) = tree_addr <$> ts) →
    Forall (λ t, represents st.1 t = true) ts →
    walk visit (frame_cost ts + fuel) ((a, i) :: stack) n st
    = walk visit fuel stack (n + length (flat_map (edges a) ts))
        (visit_all visit (flat_map (edges a) ts) n st).

(** Two heaps that differ in the ids of their nodes at most. *)
Definition same_but_ids (h h' : Heap) : Prop :=
  ∀ a, set_id "" <$> h' !! a = set_id "" <$> h !! a.

(** The node-creation statements for the nodes of [l], numbered from [n],
    with type, content and level as the heap [h] has them. *)
Fixpoint node_statements (h : Heap) (l : list addr) (n : nat)
  : list Statement :=
  match l with
  | [] => []
  | a :: l' =>
      match h !! a with
      | Some cn => [(CreateNode, node_params (set_id (node_name n) cn))]
      | None => []
      end ++ node_statements h l' (S n)
  end.

(** The script lines for the nodes of [l], numbered from [n]. *)
Fixpoint node_queries (h : Heap) (l : list addr) (n : nat) : list string :=
  match l with
  | [] => []
  | a :: l' =>
      match h !! a with
      | Some cn => [node_query n cn]
      | None => []
      end ++ node_queries h l' (S n)
  end.

(** The tree below [a] in a heap, read to depth [fuel]. *)
Fixpoint tree_at (fuel : nat) (h : Heap) (a : addr) : tree :=
  match fuel with
  | O => Node a []
  | S f =>
      Node a match h !! a with
             | Some n => tree_at f h <$> children n
             | None => []
             end
  end.

(** ** Invariants of the tree builder *)

(** [h'] is [h] after some more nodes were allocated and attached: the
    nodes of [h] are still there, with the same fields except for children
    added at the end. *)
Definition extends (h h' : Heap) : Prop :=
  (length h ≤ length h')%nat ∧
  ∀ b n, h !! b = Some n →
    ∃ n', h' !! b = Some n' ∧ node_type n' = node_type n ∧
          content n' = content n ∧ level n' = level n ∧
          parent n' = parent n ∧ node_id n' = node_id n ∧
          children n `prefix_of` children n'.

(** What holds of the heap and the processor between two elements: the
    root is the bottom of the heading stack, the stack answers the
    nearest-smaller-level question for every level, and every heading
    created so far hangs below its nearest preceding smaller heading. *)
Definition builder_inv (r : addr) (st : Heap * MarkdownTreeProcessor) : Prop :=
  let '(h, p) := st in
  root p = r ∧ (r < length h)%nat ∧ (current_node p < length h)%nat ∧
  last (heading_stack p) = Some r ∧
  Forall (λ a, (a < length h)%nat) (heading_stack p) ∧
  (∀ lv, pop_headings h lv (heading_stack p) ≫= head
         = Some (nearest_smaller h r lv (length h))) ∧
  (∀ b n, (r < b)%nat → h !! b = Some n → is_heading n = true →
     ∃ qn, parent n = Some (nearest_smaller h r (level n) b) ∧
           h !! nearest_smaller h r (level n) b = Some qn ∧
           b ∈ children qn).

(** A processor and its nodes moved behind the objects of another heap:
    every address grows by the size of that heap. *)
Definition shift_node (k : nat) (n : MarkdownNode) : MarkdownNode :=
  mkNode (node_type n) (content n) (level n) (Nat.add k <$> parent n)
         (Nat.add k <$> children n) (node_id n).

Definition shift_processor (k : nat) (p : MarkdownTreeProcessor)
  : MarkdownTreeProcessor :=
  mkProcessor (k + root p) (k + current_node p) (Nat.add k <$> heading_stack p).

Definition relocate (h0 : Heap) (st : Heap * MarkdownTreeProcessor)
  : Heap * MarkdownTreeProcessor :=
  (h0 ++ (shift_node (length h0) <$> st.1), shift_processor (length h0) st.2).

(** Children are younger than their parent: the heap holds no cycle and no
    reference out of it. *)
Definition forward (h : Heap) : Prop :=
  ∀ a n, h !! a = Some n → Forall (λ c, (a < c < length h)%nat) (children n).

(** ** Concrete inputs *)

(** The headings of levels 2, 3, 1, 2 with a paragraph in between. *)
Definition C1_document : Element :=
  Elem "div" "" ""
    [Elem "h2" "A" "" []; Elem "h3" "B" "" []; Elem "p" "text" "" [];
     Elem "h1" "C" "" []; Elem "h2" "D" "" []].

(** The element tree of scenario 1: "# Header 1", "Some paragraph",
    "## Header 2", "Another paragraph". *)
Definition scenario1_document : Element :=
  Elem "div" "" ""
    [Elem "h1" "Header 1" "" []; Elem "p" "Some paragraph" "" [];
     Elem "h2" "Header 2" "" []; Elem "p" "Another paragraph" "" []].

(** What the block parser builds from a line that holds only "#". *)
Definition empty_heading : Element := Elem "h1" "" "" [].

(** The tree of the package's own test of the script generator:
    root → heading "Header 1" → [paragraph "Paragraph 1"; heading
    "Header 2"]. *)
Definition test_heap : Heap :=
  [mkNode "root" "" 0 None [1%nat] None;
   mkNode "heading" "Header 1" 1 (Some 0%nat) [2%nat; 3%nat] None;
   mkNode "paragraph" "Paragraph 1" 0 (Some 1%nat) [] None;
   mkNode "heading" "Header 2" 2 (Some 1%nat) [] None].

Definition test_tree : tree := Node 0 [Node 1 [Node 2 []; Node 3 []]].

(** A root with one paragraph. *)
Definition paragraph_heap : Heap :=
  [mkNode "root" "" 0 None [1%nat] None;
   mkNode "paragraph" "Paragraph 1" 0 (Some 0%nat) [] None].

(** The mock of the package's test of the traversal: [get_root_node]
    has a return value, [get_children] answers its calls from a list, one
    entry per call. *)
Record MockGraph := mkMock {
  root_return : option Dict;
  children_side_effect : list (list Dict)
}.

Global Instance MockGraph_Graph : Graph MockGraph := {
  get_root_node m := mret (root_return m);
  get_children m _ :=
    k ← tick;
    match children_side_effect m !! k with
    | Some l => mret l
    | None => raise StopIteration
    end
}.

Definition dict (l : list (string * Value)) : Dict := list_to_map l.

(** The mock of [test_traverse_and_print]. *)
Definition test_mock : MockGraph :=
  mkMock
    (Some (dict [("id", VStr "node_0"); ("type", VStr "root")]))
    [[dict [("id", VStr "node_1"); ("type", VStr "heading");
            ("content", VStr "Header 1"); ("level", VInt 1)]];
     [dict [("id", VStr "node_2"); ("type", VStr "paragraph");
            ("content", VStr "Paragraph 1")];
      dict [("id", VStr "node_3"); ("type", VStr "heading");
            ("content", VStr "Header 2"); ("level", VInt 2)]];
     [];
     []].

(** A store that holds the graph of scenario 2.  The paragraph has the
    level [lv]: the live-write path stores 0, a script stores none. *)
Definition scenario2_store (lv : option Value) : Store :=
  mkStore
    [dict [("id", VStr "node_0"); ("type", VStr "root"); ("content", VStr "")];
     dict [("id", VStr "node_1"); ("type", VStr "heading");
           ("content", VStr "Header 1"); ("level", VInt 1)];
     match lv with
     | Some v => dict [("id", VStr "node_2"); ("type", VStr "paragraph");
                       ("content", VStr "Paragraph 1"); ("level", v)]
     | None => dict [("id", VStr "node_2"); ("type", VStr "paragraph");
                     ("content", VStr "Paragraph 1")]
     end;
     dict [("id", VStr "node_3"); ("type", VStr "heading");
           ("content", VStr "Header 2"); ("level", VInt 2)]]
    [(0, 1); (1, 2); (1, 3)]%nat.

(** A server that holds a store and never fails. *)
Definition healthy (s : Store) : Server := mkServer s (λ _, false).

(** The rendering scenario 2 and the package's test expect. *)
Definition scenario2_expected : string :=
  "# Header 1" +:+ nl +:+ nl +:+ "Paragraph 1" +:+ nl +:+ nl +:+
  "## Header 2" +:+ nl +:+ nl.

(** Texts of exceptions for the worlds below: those CPython gives its
    own exceptions, rich's for a text that starts with a closing tag, and
    for the driver the text of a refused connection. *)
Definition python_text (e : exn) : string :=
  match e with
  | KeyError k => "'" +:+ k +:+ "'"
  | TypeError => "can't multiply sequence by non-int of type 'str'"
  | ValueError => "invalid literal for int() with base 10: 'r'"
  | RecursionError => "maximum recursion depth exceeded"
  | FileNotFoundError file =>
      "[Errno 2] No such file or directory: '" +:+ file +:+ "'"
  | AttributeError => "'NoneType' object has no attribute 'session'"
  | StopIteration => ""
  | Neo4jError => "Couldn't connect to localhost:7687"
  | MarkupError markup => closing_tag_text markup
  end.

(** A world with one file, whose server accepts the connection and then
    fails every statement. *)
Definition failing_world : World :=
  mkWorld ∅ {[ "doc.md" := "# Title" ]}
          (λ _ _, Some (Elem "div" "" "" [Elem "h1" "Title" "" []]))
          (λ _ _ _, Some (mkServer (mkStore [] []) (λ _, true)))
          1000 python_text.


(** A text that is one fenced code block. *)
Definition fenced_text : string :=
  "```" +:+ nl +:+ "print(1)" +:+ nl +:+ "```".

(** The placeholder [HtmlStash.store] returns for the entry number [n] of
    the stash: [STX + "wzxhzdk:%s" + ETX]. *)
Definition stash_placeholder (n : nat) : string :=
  String "002" ("wzxhzdk:" +:+ pretty n +:+ String "003" EmptyString).

(** What the library builds from [fenced_text] on an instance that was
    given this text only: the preprocessor of the fenced_code extension
    (a part of "extra") stores the block in [md.htmlStash] and leaves the
    placeholder of the entry in the text, which the block parser wraps in
    a paragraph.  The stash numbers its entries from [html_counter], which
    only [reset()] sets back to 0: after [n] conversions the entry has the
    number [n]. *)
Definition fenced_markdown (before : list string) (text : string)
  : option Element :=
  Some (Elem "div" "" "" [Elem "p" (stash_placeholder (length before)) "" []]).

(** A document with a horizontal rule between two paragraphs: the
    Markdown source "one", "---", "two". *)
Definition ruled_document : Element :=
  Elem "div" "" ""
    [Elem "p" "one" "" []; Elem "hr" "" "" []; Elem "p" "two" "" []].

(** A world whose file holds a horizontal rule. *)
Definition ruled_world : World :=
  mkWorld ∅ {[ "doc.md" := "one" ]} (λ _ _, Some ruled_document)
          (λ _ _ _, Some (healthy (mkStore [] []))) 1000 python_text.

(** ** More invariants of the tree builder *)

(** The last heading node before the node at [a], or the root [r] when no
    heading was created before it. *)
Fixpoint last_heading (h : Heap) (r : addr) (a : addr) : addr :=
  match a with
  | O => r
  | S b =>
      if bool_decide (b ≤ r)%nat then r
      else match h !! b with
           | Some n => if is_heading n then b else last_heading h r b
           | None => last_heading h r b
           end
  end.

(** [q] is the heading node created last before [b], or the root. *)
Definition latest_heading (h : Heap) (r : addr) (b q : addr) : Prop :=
  (q = r ∨ (r < q < b)%nat ∧ ∃ n, h !! q = Some n ∧ is_heading n = true)
  ∧ ∀ c n, (q < c < b)%nat → h !! c = Some n → is_heading n = false.

(** The node at [b] is linked below the node at [q]: [q] is its [parent]
    and it is one of the [children] of [q]. *)
Definition linked (h : Heap) (b q : addr) : Prop :=
  ∃ n qn, h !! b = Some n ∧ parent n = Some q ∧
          h !! q = Some qn ∧ b ∈ children qn.

(** What the builder knows about paragraphs between two elements. *)
Definition paragraph_inv (r : addr) (st : Heap * MarkdownTreeProcessor)
  : Prop :=
  let '(h, p) := st in
  current_node p = last_heading h r (length h) ∧
  ∀ b n, (r < b)%nat → h !! b = Some n → node_type n = "paragraph" →
         linked h b (last_heading h r b).

(** A node as the builder makes it: a heading with a one-digit level, or
    a paragraph of level 0 with text and without children; no id yet. *)
Definition built_node (n : MarkdownNode) : Prop :=
  node_id n = None ∧
  (node_type n = "heading" ∧ 0 ≤ level n ≤ 9 ∨
   node_type n = "paragraph" ∧ level n = 0 ∧ content n ≠ "" ∧
   children n = []).

Definition typing_inv (r : addr) (st : Heap * MarkdownTreeProcessor) : Prop :=
  let '(h, p) := st in
  (∃ rn, h !! r = Some rn ∧ node_type rn = "root" ∧ node_id rn = None) ∧
  ∀ b n, (r < b)%nat → h !! b = Some n → built_node n.

(** Parent references and children lists agree. *)
Definition links_inv (r : addr) (st : Heap * MarkdownTreeProcessor) : Prop :=
  let '(h, p) := st in
  (∀ b n, (r < b)%nat → h !! b = Some n →
     ∃ q, (r ≤ q < b)%nat ∧ linked h b q) ∧
  (∀ q qn c, (r ≤ q)%nat → h !! q = Some qn → c ∈ children qn →
     ∃ cn, h !! c = Some cn ∧ parent cn = Some q) ∧
  (∀ q qn, (r ≤ q)%nat → h !! q = Some qn →
     NoDup (children qn) ∧ Forall (λ c, (q < c < length h)%nat) (children qn)).

(** ** The open headings as a path into the tree *)

(** A frame of the path: an open node and the subtrees below it that are
    complete.  [close t fs] hangs [t] as the last child below the frames
    [fs], innermost first. *)
Fixpoint close (t : tree) (fs : list (addr * list tree)) : tree :=
  match fs with
  | [] => t
  | (a, done) :: fs' => close (Node a (done ++ [t])) fs'
  end.

(** The tree a path stands for. *)
Definition plug (fs : list (addr * list tree)) : option tree :=
  match fs with
  | [] => None
  | (a, done) :: fs' => Some (close (Node a done) fs')
  end.

(** The part of the pre-order that lies before the subtree a path leads
    to. *)
Fixpoint context_pre (fs : list (addr * list tree)) : list addr :=
  match fs with
  | [] => []
  | (a, done) :: fs' => context_pre fs' ++ a :: flat_map preorder done
  end.

(** The heap holds the frames of a path that leads to the node [c]. *)
Fixpoint context_rep (h : Heap) (fs : list (addr * list tree)) (c : addr)
  : bool :=
  match fs with
  | [] => true
  | (a, done) :: fs' =>
      bool_decide (children <$> h !! a = Some ((tree_addr <$> done) ++ [c]))
      && forallb (represents h) done && context_rep h fs' a
  end.

(** Between two elements the heading stack is the path from the root to
    the current node, through the last child at each step, in a tree whose
    pre-order is the order in which the nodes were created. *)
Definition spine_inv (r : addr) (st : Heap * MarkdownTreeProcessor) : Prop :=
  let '(h, p) := st in
  ∃ fs t, heading_stack p = fs.*1 ∧
          head (heading_stack p) = Some (current_node p) ∧
          plug fs = Some t ∧ represents h t = true ∧
          preorder t = seq r (length h - r).

(** ** neo4j_graph.py: the script *)






(** The (parent, child) pairs of a tree, in the order of the traversal. *)
Definition tree_edges (t : tree) : list (addr * addr) :=
  flat_map (edges (tree_addr t)) (subtrees t).

(** The statements a run executed, oldest first. *)
Definition ran (tr : list Event) : list Statement :=
  omap (λ ev, match ev with Ran q ps => Some (q, ps) | _ => None end) tr.

(** The statements of [l] up to the first one the server fails, when the
    first of them is the statement number [c] of the run. *)
Fixpoint survivors (srv : Server) (c : nat) (l : list Statement)
  : list Statement :=
  match l with
  | [] => []
  | s :: l' => if fails srv c then [] else s :: survivors srv (S c) l'
  end.

(** A server that fails the statement number [k] of a run, and no
    other. *)
Definition fails_at (k : nat) : Server :=
  mkServer (mkStore [] []) (λ i, bool_decide (i = k)).

(** ** cli.py: verbosity *)

(** [_setup_verbosity], which the callback of the application runs with
    the number of [-v] flags. *)
Definition _setup_verbosity (verbose : Z) : M () :=
  if bool_decide (verbose = 1) then set_level "INFO"
  else if bool_decide (verbose = 2) then set_level "DEBUG"
  else if bool_decide (3 ≤ verbose) then set_level "TRACE"
  else mret ().

(** ** The shape of a rendering *)

(** Lines in which an empty line follows each block. *)
Definition spaced {X : Type} (blank : X) (bs : list X) : list X :=
  flat_map (λ b, [b; blank]) bs.

(** The text in which an empty line follows each block. *)
Definition blocks_text (bs : list string) : string :=
  foldr (λ b acc, b +:+ nl +:+ nl +:+ acc) "" bs.

(** ** Standard output *)

Definition is_printed (ev : Event) : bool :=
  match ev with
  | Printed _ => true
  | _ => false
  end.

(** What a run has written to standard output, oldest first. *)
Definition printed (env : Env) : list Event :=
  List.filter is_printed (trace env).

(** A computation that writes nothing to standard output. *)
Definition mute {A : Type} (m : M A) : Prop :=
  ∀ env, printed (m env).2 = printed env.

(* ===================================================================== *)
(** * Part II: theorems *)
(* ===================================================================== *)

(** ** Tree builder *)

Lemma Element_ind' (P : Element → Prop) :
  (∀ t x tl ks, Forall P ks → P (Elem t x tl ks)) → ∀ e, P e.
Proof.
  intros H. fix IH 1. intros [t x tl ks]. apply H.
  induction ks as [|k ks IHks]; constructor; [apply IH | exact IHks].
Qed.

Lemma _process_element_unfold e st :
  _process_element e st = process_tag e st ≫= process_all (kids e).
Proof.
  destruct e as [t x tl ks]; simpl.
  destruct (process_tag _ st) as [s1|]; simpl; [|done].
  revert s1. induction ks as [|k ks IH]; intros s1; simpl; [done|].
  destruct (_process_element k s1) as [s2|]; simpl; [apply IH|done].
Qed.

(** The pop loop only drops entries above the last one. *)
Lemma pop_headings_last h lv s s' :
  pop_headings h lv s = Some s' → last s' = last s.
Proof.
  revert s'. induction s as [|a [|b rest] IH]; intros s' H; simpl in H.
  - by inversion H.
  - by inversion H.
  - destruct (h !! a) as [n|]; [|done].
    case_bool_decide.
    + rewrite (IH _ H). done.
    + by inversion H.
Qed.

Lemma pop_headings_suffix h lv s s' :
  pop_headings h lv s = Some s' → s' `suffix_of` s.
Proof.
  revert s'. induction s as [|a [|b rest] IH]; intros s' H; simpl in H.
  - by inversion H.
  - by inversion H.
  - destruct (h !! a) as [n|]; [|done].
    case_bool_decide.
    + apply suffix_cons_r. by apply IH.
    + by inversion H.
Qed.

Lemma pop_headings_nonempty h lv s s' :
  pop_headings h lv s = Some s' → s ≠ [] → s' ≠ [].
Proof.
  intros H Hs Hs'. apply pop_headings_last in H. subst s'.
  destruct s as [|a s]; [done|]. simpl in H.
  symmetry in H. apply last_None in H. done.
Qed.

Lemma pop_headings_total h lv s :
  Forall (λ a, (a < length h)%nat) s → is_Some (pop_headings h lv s).
Proof.
  induction s as [|a [|b rest] IH]; intros Hs; simpl; [by eexists..|].
  inversion Hs as [|? ? Ha Hrest]; subst.
  destruct (lookup_lt_is_Some_2 h a Ha) as [n ->].
  case_bool_decide; [by apply IH | by eexists].
Qed.

Lemma pop_headings_cons h lv a s :
  s ≠ [] →
  pop_headings h lv (a :: s) =
  match h !! a with
  | Some n =>
      if bool_decide (lv ≤ level n) then pop_headings h lv s
      else Some (a :: s)
  | None => None
  end.
Proof. by destruct s. Qed.

(** Popping for a level and then for a smaller one is popping for the
    smaller one. *)
Lemma pop_headings_twice h lv lv' s s' :
  lv' ≤ lv → pop_headings h lv s = Some s' →
  pop_headings h lv' s' = pop_headings h lv' s.
Proof.
  intros Hle. revert s'.
  induction s as [|a [|b rest] IH]; intros s' H; simpl in H.
  - by inversion H.
  - by inversion H.
  - destruct (h !! a) as [n|] eqn:Ha; [|done].
    case_bool_decide as Hlv.
    + rewrite (IH _ H). simpl. rewrite Ha.
      rewrite bool_decide_true by lia. done.
    + by inversion H.
Qed.

Lemma extends_refl h : extends h h.
Proof. split; [done|]. intros b n H. exists n. by repeat split. Qed.

Lemma extends_trans h1 h2 h3 : extends h1 h2 → extends h2 h3 → extends h1 h3.
Proof.
  intros [L1 E1] [L2 E2]. split; [lia|]. intros b n H.
  destruct (E1 _ _ H) as (n' & H' & ? & ? & ? & ? & ? & ?).
  destruct (E2 _ _ H') as (n'' & H'' & ? & ? & ? & ? & ? & ?).
  exists n''. repeat split; try congruence. by etrans.
Qed.

(** Allocating a node and attaching it below [q]. *)
Lemma attach_length h q nd :
  length (add_child (h ++ [nd]) q (length h)) = S (length h).
Proof. unfold add_child. rewrite !length_alter, length_app. simpl. lia. Qed.

Lemma attach_lookup_new h q nd :
  (q < length h)%nat →
  add_child (h ++ [nd]) q (length h) !! length h = Some (set_parent q nd).
Proof.
  intros Hq. unfold add_child.
  rewrite list_lookup_alter_ne by lia.
  rewrite list_lookup_alter_eq, lookup_app_r by lia.
  by rewrite Nat.sub_diag.
Qed.

Lemma attach_lookup_parent h q nd qn :
  h !! q = Some qn →
  add_child (h ++ [nd]) q (length h) !! q = Some (append_child (length h) qn).
Proof.
  intros Hq. pose proof (lookup_lt_Some _ _ _ Hq). unfold add_child.
  rewrite list_lookup_alter_eq, list_lookup_alter_ne by lia.
  rewrite lookup_app_l by lia. by rewrite Hq.
Qed.

Lemma attach_lookup_other h q nd b :
  (b < length h)%nat → b ≠ q →
  add_child (h ++ [nd]) q (length h) !! b = h !! b.
Proof.
  intros Hb Hne. unfold add_child.
  rewrite !list_lookup_alter_ne by lia. by rewrite lookup_app_l by lia.
Qed.

Lemma attach_extends h q nd : extends h (add_child (h ++ [nd]) q (length h)).
Proof.
  split; [rewrite attach_length; lia|]. intros b n H.
  pose proof (lookup_lt_Some _ _ _ H) as Hb.
  destruct (decide (b = q)) as [->|Hne].
  - exists (append_child (length h) n). split; [by apply attach_lookup_parent|].
    repeat split. simpl. by apply prefix_app_r.
  - exists n. split; [by rewrite attach_lookup_other|]. by repeat split.
Qed.

Lemma nearest_smaller_extends h h' r lv a :
  extends h h' → (a ≤ length h)%nat →
  nearest_smaller h' r lv a = nearest_smaller h r lv a.
Proof.
  intros [_ E]. induction a as [|b IH]; intros Ha; simpl; [done|].
  case_bool_decide; [done|].
  destruct (lookup_lt_is_Some_2 h b) as [n Hn]; [lia|].
  destruct (E _ _ Hn) as (n' & -> & Hty & _ & Hlv & _). rewrite Hn.
  unfold is_heading. rewrite Hty, Hlv, IH by lia. done.
Qed.

Lemma pop_headings_extends h h' lv s :
  extends h h' → Forall (λ a, (a < length h)%nat) s →
  pop_headings h' lv s = pop_headings h lv s.
Proof.
  intros [_ E]. induction s as [|a [|b rest] IH]; intros Hs; simpl; [done..|].
  inversion Hs as [|? ? Ha Hrest]; subst.
  destruct (lookup_lt_is_Some_2 h a Ha) as [n Hn].
  destruct (E _ _ Hn) as (n' & -> & _ & _ & -> & _). rewrite Hn.
  case_bool_decide; [by apply IH | done].
Qed.

(** What [nearest_smaller] computes. *)
Lemma nearest_smaller_spec h r lv a :
  (r < a)%nat → nearest_preceding h r lv a (nearest_smaller h r lv a).
Proof.
  induction a as [|b IH]; intros Ha; [lia|]. simpl.
  case_bool_decide as Hb.
  { split; [by left|]. intros c n Hc. lia. }
  assert (nearest_preceding h r lv (S b) (nearest_smaller h r lv b) ∨
          ∃ n, h !! b = Some n ∧ is_heading n = true ∧ level n < lv) as Hstep.
  { destruct (h !! b) as [n|] eqn:Hn.
    - destruct (is_heading n) eqn:Hh; [destruct (decide (level n < lv))|].
      + right. by exists n.
      + left. destruct IH as [IH1 IH2]; [lia|]. split.
        { destruct IH1 as [?|[? ?]]; [by left|right]. split; [lia|done]. }
        intros c n' Hc Hn' Hh'.
        destruct (decide (c = b)) as [->|Hne]; [|apply (IH2 c n'); [lia|done..]].
        rewrite Hn in Hn'. inversion Hn'; subst n'. lia.
      + left. destruct IH as [IH1 IH2]; [lia|]. split.
        { destruct IH1 as [?|[? ?]]; [by left|right]. split; [lia|done]. }
        intros c n' Hc Hn' Hh'.
        destruct (decide (c = b)) as [->|Hne]; [congruence|].
        apply (IH2 c n'); [lia|done..].
    - left. destruct IH as [IH1 IH2]; [lia|]. split.
      { destruct IH1 as [?|[? ?]]; [by left|right]. split; [lia|done]. }
      intros c n' Hc Hn' Hh'.
      destruct (decide (c = b)) as [->|Hne]; [congruence|].
      apply (IH2 c n'); [lia|done..]. }
  destruct (h !! b) as [n|] eqn:Hn.
  - destruct (is_heading n && bool_decide (level n < lv)) eqn:Hc.
    + apply andb_true_iff in Hc as [Hh Hl]. apply bool_decide_eq_true in Hl.
      split; [right; split; [lia|by exists n]|]. intros c n' Hc'. lia.
    + destruct Hstep as [?|(n' & Hn' & Hh & Hl)]; [done|].
      inversion Hn'; subst n'. rewrite Hh in Hc. simpl in Hc.
      apply bool_decide_eq_false in Hc. lia.
  - destruct Hstep as [?|(n' & Hn' & _)]; [done|congruence].
Qed.

Lemma nearest_smaller_bound h r lv a :
  (r < a)%nat → (r ≤ nearest_smaller h r lv a < a)%nat.
Proof.
  intros Ha. destruct (nearest_smaller_spec h r lv a Ha) as [[->|[? _]] _]; lia.
Qed.

(** Headings that were attached stay attached when the heap grows. *)
Lemma attached_extends h h' r b n :
  extends h h' → (b < length h)%nat → h' !! b = Some n →
  (∀ n0, h !! b = Some n0 → is_heading n0 = true →
     ∃ qn, parent n0 = Some (nearest_smaller h r (level n0) b) ∧
           h !! nearest_smaller h r (level n0) b = Some qn ∧
           b ∈ children qn) →
  is_heading n = true →
  ∃ qn, parent n = Some (nearest_smaller h' r (level n) b) ∧
        h' !! nearest_smaller h' r (level n) b = Some qn ∧
        b ∈ children qn.
Proof.
  intros Hext Hb Hn Hold Hh.
  destruct (lookup_lt_is_Some_2 h b Hb) as [n0 Hn0].
  pose proof Hext as [_ E].
  destruct (E _ _ Hn0) as (n' & Hn' & Hty & _ & Hlv & Hpar & _).
  rewrite Hn in Hn'. inversion Hn'; subst n'.
  destruct (Hold n0 Hn0) as (qn & Hp & Hq & Hin).
  { unfold is_heading in *. by rewrite <- Hty. }
  rewrite (nearest_smaller_extends h h') by (done || lia).
  destruct (E _ _ Hq) as (qn' & Hqn' & _ & _ & _ & _ & _ & Hpre).
  exists qn'. rewrite Hlv, Hpar. repeat split; [done..|].
  destruct Hpre as [k ->]. apply elem_of_app. by left.
Qed.

Lemma process_tag_inv r e st st' :
  builder_inv r st → process_tag e st = Some st' →
  builder_inv r st' ∧ extends st.1 st'.1.
Proof.
  destruct st as [h p]. intros (Hr & Hrl & Hcur & Hlast & Hval & Hstack & Hatt).
  unfold process_tag. destruct (heading_tag (tag e)) as [c|].
  - (* heading *)
    destruct (int_of_char c) as [lv|]; simpl; [|done].
    destruct (pop_headings h lv (heading_stack p)) as [s'|] eqn:Hpop;
      simpl; [|done].
    destruct (head s') as [q|] eqn:Hhead; simpl; [|done].
    intros [= <-]. unfold builder_inv.
    cbn [fst snd root current_node heading_stack].
    destruct s' as [|q' rest] eqn:Hs'; [done|]. simpl in Hhead.
    inversion Hhead; subst q'. rewrite <- Hs' in *.
    pose proof (pop_headings_suffix _ _ _ _ Hpop) as Hsuf.
    assert (Forall (λ a, (a < length h)%nat) s') as Hval'.
    { destruct Hsuf as [k Hk]. rewrite Hk in Hval.
      by apply Forall_app in Hval as [_ ?]. }
    assert (q < length h)%nat as Hq.
    { rewrite Hs' in Hval'. by inversion Hval'. }
    assert (q = nearest_smaller h r lv (length h)) as Hqns.
    { specialize (Hstack lv). rewrite Hpop, Hs' in Hstack. simpl in Hstack.
      congruence. }
    set (nd := new_node "heading" (strip (itertext e)) lv).
    pose proof (attach_extends h q nd) as Hext.
    split; [|done]. repeat split.
    + done.
    + rewrite attach_length. lia.
    + rewrite attach_length. lia.
    + rewrite last_cons, (pop_headings_last _ _ _ _ Hpop), Hlast. done.
    + constructor; [rewrite attach_length; lia|].
      eapply Forall_impl; [exact Hval'|]. intros a Ha. simpl in *.
      rewrite attach_length. lia.
    + intros lv'. rewrite attach_length. simpl nearest_smaller.
      rewrite bool_decide_false by lia.
      rewrite pop_headings_cons by (by rewrite Hs').
      rewrite attach_lookup_new by done. simpl.
      rewrite (nearest_smaller_extends h) by (done || lia).
      destruct (decide (lv < lv')) as [Hlt|Hge].
      * rewrite bool_decide_false by lia. rewrite bool_decide_true by done.
        done.
      * rewrite bool_decide_true by lia. rewrite bool_decide_false by done.
        rewrite (pop_headings_extends h) by done.
        rewrite (pop_headings_twice h lv lv' (heading_stack p) s') by (done || lia).
        apply Hstack.
    + intros b n Hb Hn Hh.
      pose proof (lookup_lt_Some _ _ _ Hn) as Hbl. rewrite attach_length in Hbl.
      destruct (decide (b = length h)) as [->|Hne].
      * rewrite attach_lookup_new in Hn by done. inversion Hn; subst n. simpl.
        rewrite (nearest_smaller_extends h) by (done || lia).
        rewrite <- Hqns.
        destruct (lookup_lt_is_Some_2 h q Hq) as [qn Hqn].
        exists (append_child (length h) qn). split; [done|].
        split; [by apply attach_lookup_parent|].
        simpl. apply elem_of_app. right. by apply list_elem_of_singleton.
      * eapply attached_extends; eauto. lia.
  - case_bool_decide; [|intros [= <-]; split; [by repeat split | apply extends_refl]].
    destruct (truthy (strip (itertext e))); 
      [|intros [= <-]; split; [by repeat split | apply extends_refl]].
    intros [= <-]. simpl.
    set (nd := new_node "paragraph" (strip (itertext e)) 0).
    pose proof (attach_extends h (current_node p) nd) as Hext.
    split; [|done]. repeat split.
    + done.
    + rewrite attach_length. lia.
    + rewrite attach_length. lia.
    + done.
    + eapply Forall_impl; [exact Hval|]. intros a Ha. simpl in *.
      rewrite attach_length. lia.
    + intros lv'. rewrite attach_length. simpl nearest_smaller.
      rewrite bool_decide_false by lia.
      rewrite attach_lookup_new by done. simpl.
      rewrite (nearest_smaller_extends h) by (done || lia).
      rewrite (pop_headings_extends h) by done. apply Hstack.
    + intros b n Hb Hn Hh.
      pose proof (lookup_lt_Some _ _ _ Hn) as Hbl. rewrite attach_length in Hbl.
      destruct (decide (b = length h)) as [->|Hne].
      * rewrite attach_lookup_new in Hn by done. by inversion Hn; subst n.
      * eapply attached_extends; eauto. lia.
Qed.

Lemma process_tag_total r e st :
  builder_inv r st →
  (∀ c, heading_tag (tag e) = Some c → is_Some (int_of_char c)) →
  is_Some (process_tag e st).
Proof.
  destruct st as [h p]. intros (Hr & Hrl & Hcur & Hlast & Hval & _) Hint.
  unfold process_tag. destruct (heading_tag (tag e)) as [c|].
  - destruct (Hint c eq_refl) as [lv ->]. simpl.
    destruct (pop_headings_total h lv _ Hval) as [s' Hpop]. rewrite Hpop. simpl.
    destruct s' as [|q rest]; [|by eexists].
    exfalso. eapply pop_headings_nonempty; [exact Hpop| |done].
    intros Hnil. by rewrite Hnil in Hlast.
  - case_bool_decide; [|by eexists].
    destruct (truthy _); by eexists.
Qed.

Lemma new_processor_inv h0 : builder_inv (length h0) (new_processor h0).
Proof.
  unfold new_processor, builder_inv. cbn [root current_node heading_stack].
  rewrite length_app. simpl. repeat split; try lia.
  - repeat constructor. lia.
  - intros lv. rewrite Nat.add_1_r. simpl.
    by rewrite bool_decide_true by lia.
  - intros b n Hb Hn. apply lookup_lt_Some in Hn.
    rewrite length_app in Hn. simpl in Hn. lia.
Qed.

Lemma valid_tags_unfold e :
  valid_tags e = true →
  (∀ c, heading_tag (tag e) = Some c → is_Some (int_of_char c)) ∧
  Forall (λ k, valid_tags k = true) (kids e).
Proof.
  destruct e as [t x tl ks]. simpl. intros H.
  apply andb_true_iff in H as [H1 H2]. split.
  - intros c Hc. rewrite Hc in H1. by apply bool_decide_eq_true in H1.
  - apply Forall_forall. intros k Hk.
    rewrite forallb_forall in H2. apply H2. by apply list_elem_of_In.
Qed.

(** A document without ill-formed heading tags is processed to the end, and
    the invariant holds afterwards. *)
Lemma _process_element_inv r e :
  ∀ st, valid_tags e = true → builder_inv r st →
  ∃ st', _process_element e st = Some st' ∧ builder_inv r st' ∧
         extends st.1 st'.1.
Proof.
  induction e as [t x tl ks IH] using Element_ind'. intros st Hv Hinv.
  apply valid_tags_unfold in Hv as [Hint Hks].
  rewrite _process_element_unfold.
  destruct (process_tag_total r _ st Hinv Hint) as [st1 H1]. rewrite H1.
  destruct (process_tag_inv _ _ _ _ Hinv H1) as [Hinv1 Hext1]. simpl.
  clear H1 Hinv Hint. revert st1 Hinv1 Hext1.
  induction ks as [|k ks IHks]; intros st1 Hinv1 Hext1; simpl.
  - by exists st1.
  - inversion IH as [|? ? IHk IHrest]; subst.
    inversion Hks as [|? ? Hk Hrest]; subst.
    destruct (IHk st1 Hk Hinv1) as (st2 & -> & Hinv2 & Hext2). simpl.
    apply IHks; [done..|]. by eapply extends_trans.
Qed.

(** The nodes a run adds are those its elements ask for, in document
    order, and it leaves type, content and level of the older nodes. *)
Lemma add_child_summary h q b :
  summary <$> add_child h q b = summary <$> h.
Proof.
  unfold add_child. apply list_eq. intros i.
  rewrite !list_lookup_fmap, !list_lookup_alter.
  repeat (case_decide; subst);
    match goal with |- context [h !! ?x] => by destruct (h !! x) as [[]|] end.
Qed.

Lemma process_tag_summary e h p h' p' :
  process_tag e (h, p) = Some (h', p') →
  summary <$> h' = (summary <$> h) ++ element_node e.
Proof.
  unfold process_tag, element_node.
  destruct (heading_tag (tag e)) as [c|].
  - destruct (int_of_char c) as [lv|]; simpl; [|done].
    destruct (pop_headings h lv (heading_stack p)) as [stack|]; simpl; [|done].
    destruct (head stack) as [top|]; simpl; [|done].
    intros [= <- <-]. by rewrite add_child_summary, fmap_app.
  - case_bool_decide; simpl.
    + destruct (truthy (strip (itertext e))).
      * intros [= <- <-]. by rewrite add_child_summary, fmap_app.
      * intros [= <- <-]. by rewrite app_nil_r.
    + intros [= <- <-]. by rewrite app_nil_r.
Qed.

Lemma element_nodes_unfold e :
  element_nodes e = element_node e ++ flat_map element_nodes (kids e).
Proof. by destruct e. Qed.

Lemma _process_element_summary e :
  ∀ st st', _process_element e st = Some st' →
  summary <$> st'.1 = (summary <$> st.1) ++ element_nodes e.
Proof.
  induction e as [t x tl ks IH] using Element_ind'. intros [h p] st' Hrun.
  rewrite _process_element_unfold in Hrun.
  rewrite element_nodes_unfold. cbn [kids].
  destruct (process_tag _ (h, p)) as [[h1 p1]|] eqn:H1; simpl in Hrun; [|done].
  apply process_tag_summary in H1. cbn [fst]. rewrite app_assoc, <- H1.
  clear H1. revert h1 p1 Hrun.
  induction ks as [|k ks IHks]; intros h1 p1 Hrun; simpl in *.
  - inversion Hrun; subst. by rewrite app_nil_r.
  - inversion IH as [|? ? IHk IHrest]; subst.
    destruct (_process_element k (h1, p1)) as [[h2 p2]|] eqn:H2;
      simpl in Hrun; [|done].
    rewrite (IHks IHrest _ _ Hrun). pose proof (IHk _ _ H2) as Hk.
    cbn [fst] in Hk. rewrite Hk. by rewrite <- app_assoc.
Qed.

(** C1.  For every document the tree builder gets (an element tree whose
    heading tags carry a digit), processing it from a fresh processor
    succeeds.  Behind the root the heap then holds one node for each
    heading element and each paragraph element with text, in document
    order, with the type, the trimmed text and the level the element
    asks for.  The node of each heading element of level [lv] is a child
    of the node of the nearest preceding heading element of a level
    strictly below [lv], or of the root when there is none: its [parent]
    is that node and it is in that node's [children].  The pop loop never
    removes the last entry of the heading stack, and the root is that
    entry at the end. *)
Theorem C1_heading_nesting (h0 : Heap) (e : Element) :
  valid_tags e = true →
  (∀ h lv s s', pop_headings h lv s = Some s' → last s' = last s) ∧
  ∃ h p, _process_element e (new_processor h0) = Some (h, p) ∧
    root p = length h0 ∧
    last (heading_stack p) = Some (root p) ∧
    summary <$> drop (S (root p)) h = element_nodes e ∧
    ∀ k c lv, element_nodes e !! k = Some ("heading", c, lv) →
      ∃ j n qn,
        nearest_heading_before (element_nodes e) k lv j ∧
        h !! (root p + 1 + k)%nat = Some n ∧
        parent n = Some (node_of (root p) j) ∧
        h !! node_of (root p) j = Some qn ∧
        (root p + 1 + k)%nat ∈ children qn.
Proof.
  intros Hv. split; [apply pop_headings_last|].
  destruct (_process_element_inv (length h0) e _ Hv (new_processor_inv h0))
    as ([h p] & Hrun & Hinv & _).
  exists h, p. split; [done|].
  destruct Hinv as (Hr & Hrl & _ & Hlast & _ & _ & Hatt).
  rewrite Hr. split; [done|]. split; [done|].
  pose proof (_process_element_summary e _ _ Hrun) as Hsum.
  cbn [fst new_processor] in Hsum.
  assert (summary <$> drop (S (length h0)) h = element_nodes e) as Hes.
  { rewrite fmap_drop, Hsum.
    rewrite drop_app_length'; [done|]. rewrite length_fmap, length_app.
    simpl. lia. }
  split; [done|].
  assert (∀ i ty c lv, element_nodes e !! i = Some (ty, c, lv) ↔
            ∃ n, h !! (length h0 + 1 + i)%nat = Some n ∧
                 summary n = (ty, c, lv)) as Hentry.
  { intros i ty c lv. rewrite <- Hes, list_lookup_fmap, lookup_drop.
    replace (S (length h0) + i)%nat with (length h0 + 1 + i)%nat by lia.
    destruct (h !! (length h0 + 1 + i)%nat) as [n|]; simpl.
    - split.
      + intros Hs. exists n. split; [done|]. congruence.
      + intros (n' & Hn' & Hs). congruence.
    - split; [done|]. by intros (n' & ? & _). }
  intros k c lv Hk.
  apply Hentry in Hk as (n & Hn & Hs). inversion Hs as [[Hty Hc Hlv]].
  destruct (Hatt (length h0 + 1 + k)%nat n) as (qn & Hp & Hq & Hin);
    [lia|done|..].
  { unfold is_heading. by apply bool_decide_eq_true. }
  assert (length h0 < length h0 + 1 + k)%nat as Hlt by lia.
  destruct (nearest_smaller_spec h (length h0) (level n)
              (length h0 + 1 + k)%nat Hlt) as [Hq1 Hq2].
  set (q := nearest_smaller h (length h0) (level n) (length h0 + 1 + k)) in *.
  clearbody q.
  destruct Hq1 as [Hroot|(Hrange & n' & Hn' & Hh' & Hlv')].
  - exists None, n, qn. cbn [node_of nearest_heading_before].
    split; [|split; [done|split; [congruence|split; [congruence|done]]]].
    intros i c' lv' Hi Hi'. apply Hentry in Hi' as (ni & Hni & Hsi).
    inversion Hsi as [[Htyi Hci Hlvi]].
    apply (Hq2 (length h0 + 1 + i)%nat ni); [lia|done|].
    unfold is_heading. by apply bool_decide_eq_true.
  - exists (Some (q - length h0 - 1)%nat), n, qn.
    cbn [node_of nearest_heading_before].
    replace (length h0 + 1 + (q - length h0 - 1))%nat with q by lia.
    split; [|done].
    split; [lia|]. split.
    + exists (content n'), (level n'). split; [|done].
      apply Hentry. exists n'.
      replace (length h0 + 1 + (q - length h0 - 1))%nat with q by lia.
      split; [done|]. unfold summary. f_equal. f_equal.
      unfold is_heading in Hh'. by apply bool_decide_eq_true in Hh'.
    + intros i c' lv' Hi Hi'. apply Hentry in Hi' as (ni & Hni & Hsi).
      inversion Hsi as [[Htyi Hci Hlvi]].
      apply (Hq2 (length h0 + 1 + i)%nat ni); [lia|done|].
      unfold is_heading. by apply bool_decide_eq_true.
Qed.

Lemma C1_heading_nesting_witness :
  valid_tags C1_document = true ∧
  ∃ h p, _process_element C1_document (new_processor []) = Some (h, p) ∧
    root p = 0%nat ∧
    last (heading_stack p) = Some (root p) ∧
    summary <$> drop (S (root p)) h = element_nodes C1_document ∧
    ∀ k c lv, element_nodes C1_document !! k = Some ("heading", c, lv) →
      ∃ j n qn,
        nearest_heading_before (element_nodes C1_document) k lv j ∧
        h !! (root p + 1 + k)%nat = Some n ∧
        parent n = Some (node_of (root p) j) ∧
        h !! node_of (root p) j = Some qn ∧
        (root p + 1 + k)%nat ∈ children qn.
Proof.
  split; [reflexivity|].
  apply (C1_heading_nesting [] C1_document). reflexivity.
Defined.

(** Scenario 1 of the specification, which is the package's own parser
    test. *)
Example scenario1_tree :
  (_process_element scenario1_document (new_processor [])
     ≫= λ st, extract 4 st.1 0)
  = Some (TNode "root" "" 0
            [TNode "heading" "Header 1" 1
               [TNode "paragraph" "Some paragraph" 0 [];
                TNode "heading" "Header 2" 2
                  [TNode "paragraph" "Another paragraph" 0 []]]]).
Proof. reflexivity. Qed.

(** The parents in the document of levels 2, 3, (paragraph), 1, 2. *)
Example C1_document_parents :
  (λ st : Heap * MarkdownTreeProcessor, List.map parent st.1) <$>
    _process_element C1_document (new_processor [])
  = Some [None; Some 0; Some 1; Some 2; Some 0; Some 4]%nat.
Proof. reflexivity. Qed.

(** A paragraph whose text is empty after trimming leaves heap and
    processor as they are. *)
Lemma empty_paragraph_skipped e st :
  tag e = "p" → strip (itertext e) = "" → process_tag e st = Some st.
Proof.
  intros Ht Hs. destruct st as [h p]. unfold process_tag.
  rewrite Ht, Hs. reflexivity.
Qed.

(** A heading allocates a node whatever its text is. *)
Lemma heading_node_created r e c lv h p :
  builder_inv r (h, p) → heading_tag (tag e) = Some c →
  int_of_char c = Some lv →
  ∃ h' p' q, process_tag e (h, p) = Some (h', p') ∧
    length h' = S (length h) ∧
    h' !! length h =
      Some (mkNode "heading" (strip (itertext e)) lv (Some q) [] None).
Proof.
  intros Hinv Ht Hc.
  destruct (process_tag_total r e (h, p) Hinv) as [[h' p'] Hrun].
  { intros c' Hc'. rewrite Ht in Hc'. inversion Hc'; subst. by eexists. }
  exists h', p'. revert Hrun. unfold process_tag. rewrite Ht, Hc. simpl.
  destruct (pop_headings h lv (heading_stack p)) as [s'|] eqn:Hpop;
    simpl; [|done].
  destruct s' as [|q rest] eqn:Hs'; simpl; [done|]. intros [= <- <-].
  exists q. split; [done|]. split; [apply attach_length|].
  apply attach_lookup_new.
  destruct Hinv as (_ & _ & _ & _ & Hval & _).
  apply pop_headings_suffix in Hpop as [k Hk]. rewrite Hk in Hval.
  apply Forall_app in Hval as [_ Hval]. by inversion Hval.
Qed.

(** C4 (the code departs from the claim).  A heading element whose text is
    empty after trimming still gets a tree node: on the element [<h1></h1>]
    the builder allocates a heading node with empty content below the root.
    Only the paragraph branch tests the text ([empty_paragraph_skipped]). *)
Theorem C4_empty_heading_creates_node :
  strip (itertext empty_heading) = "" ∧
  _process_element empty_heading (new_processor []) =
    Some ([mkNode "root" "" 0 None [1%nat] None;
           mkNode "heading" "" 1 (Some 0%nat) [] None],
          mkProcessor 0 1 [1%nat; 0%nat]).
Proof. split; reflexivity. Qed.

(** ** Parser: a processor does not depend on where its nodes live *)

Lemma relocate_lookup (h0 l : Heap) a :
  (h0 ++ (shift_node (length h0) <$> l)) !! (length h0 + a)%nat
  = shift_node (length h0) <$> l !! a.
Proof.
  rewrite lookup_app_r by lia. rewrite list_lookup_fmap.
  by replace (length h0 + a - length h0)%nat with a by lia.
Qed.

Lemma relocate_length (h0 l : Heap) :
  length (h0 ++ (shift_node (length h0) <$> l)) = (length h0 + length l)%nat.
Proof. by rewrite length_app, length_fmap. Qed.

Lemma relocate_add_child (h0 l : Heap) q a :
  add_child (h0 ++ (shift_node (length h0) <$> l))
            (length h0 + q) (length h0 + a)
  = h0 ++ (shift_node (length h0) <$> add_child l q a).
Proof.
  unfold add_child. rewrite !alter_app_r. f_equal.
  rewrite (list_fmap_alter (shift_node (length h0)) (append_child a)
             (append_child (length h0 + a))).
  - f_equal. symmetry.
    apply (list_fmap_alter (shift_node (length h0)) (set_parent q)
             (set_parent (length h0 + q))).
    apply Forall_forall. by intros [] _.
  - apply Forall_forall. intros [] _. unfold shift_node, append_child. simpl.
    by rewrite fmap_app.
Qed.

Lemma relocate_pop_headings (h0 l : Heap) lv (s : list addr) :
  pop_headings (h0 ++ (shift_node (length h0) <$> l)) lv
               (Nat.add (length h0) <$> s)
  = fmap (M:=list) (Nat.add (length h0)) <$> pop_headings l lv s.
Proof.
  induction s as [|a [|b rest] IH]; [done..|].
  change (Nat.add (length h0) <$> a :: b :: rest)
    with ((length h0 + a)%nat :: (Nat.add (length h0) <$> b :: rest)).
  rewrite !pop_headings_cons by done.
  rewrite relocate_lookup. destruct (l !! a) as [n|]; [|done]. simpl.
  case_bool_decide; [apply IH | done].
Qed.

Lemma relocate_process_tag h0 e st :
  process_tag e (relocate h0 st) = relocate h0 <$> process_tag e st.
Proof.
  destruct st as [l p]. unfold process_tag, relocate.
  cbn [fst snd shift_processor heading_stack current_node root].
  destruct (heading_tag (tag e)) as [c|].
  - destruct (int_of_char c) as [lv|]; [|done]. simpl.
    rewrite relocate_pop_headings.
    destruct (pop_headings l lv (heading_stack p)) as [s'|]; [|done]. simpl.
    destruct s' as [|q rest]; [done|]. simpl.
    rewrite relocate_length.
    replace ((h0 ++ (shift_node (length h0) <$> l)) ++
             [new_node "heading" (strip (itertext e)) lv])
      with (h0 ++ (shift_node (length h0) <$>
                   l ++ [new_node "heading" (strip (itertext e)) lv]))
      by (by rewrite fmap_app, app_assoc).
    by rewrite relocate_add_child.
  - case_bool_decide; [|done].
    destruct (truthy _); [|done]. simpl.
    rewrite relocate_length.
    replace ((h0 ++ (shift_node (length h0) <$> l)) ++
             [new_node "paragraph" (strip (itertext e)) 0])
      with (h0 ++ (shift_node (length h0) <$>
                   l ++ [new_node "paragraph" (strip (itertext e)) 0]))
      by (by rewrite fmap_app, app_assoc).
    by rewrite relocate_add_child.
Qed.

Lemma relocate_process_element h0 e :
  ∀ st, _process_element e (relocate h0 st)
        = relocate h0 <$> _process_element e st.
Proof.
  induction e as [t x tl ks IH] using Element_ind'. intros st.
  rewrite !_process_element_unfold, relocate_process_tag.
  destruct (process_tag _ st) as [st1|]; [|done]. simpl.
  revert st1. induction ks as [|k ks IHks]; intros st1; simpl; [done|].
  inversion IH as [|? ? IHk IHrest]; subst.
  rewrite IHk. destruct (_process_element k st1) as [st2|]; [|done]. simpl.
  by apply IHks.
Qed.

Lemma relocate_new_processor h0 :
  new_processor h0 = relocate h0 (new_processor []).
Proof.
  unfold new_processor, relocate, shift_processor. simpl.
  by rewrite Nat.add_0_r.
Qed.

Lemma attach_forward h q nd :
  forward h → (q < length h)%nat → children nd = [] →
  forward (add_child (h ++ [nd]) q (length h)).
Proof.
  intros Hf Hq Hnd b n Hn. rewrite attach_length.
  pose proof (lookup_lt_Some _ _ _ Hn) as Hb. rewrite attach_length in Hb.
  destruct (decide (b = length h)) as [->|Hne].
  { rewrite attach_lookup_new in Hn by done. inversion Hn; subst n. simpl.
    rewrite Hnd. constructor. }
  destruct (lookup_lt_is_Some_2 h b) as [n0 Hn0]; [lia|].
  pose proof (Hf _ _ Hn0) as Hc.
  destruct (decide (b = q)) as [->|Hnq].
  - rewrite (attach_lookup_parent _ _ _ _ Hn0) in Hn. inversion Hn; subst n.
    simpl. apply Forall_app. split.
    + eapply Forall_impl; [exact Hc|]. simpl. intros; lia.
    + repeat constructor; lia.
  - rewrite attach_lookup_other in Hn by (done || lia).
    rewrite Hn0 in Hn. inversion Hn; subst n.
    eapply Forall_impl; [exact Hc|]. simpl. intros; lia.
Qed.

Lemma process_tag_forward r e st st' :
  builder_inv r st → forward st.1 → process_tag e st = Some st' →
  forward st'.1.
Proof.
  destruct st as [h p]. intros (_ & _ & Hcur & _ & Hval & _) Hf.
  unfold process_tag. destruct (heading_tag (tag e)) as [c|].
  - destruct (int_of_char c) as [lv|]; simpl; [|done].
    destruct (pop_headings h lv (heading_stack p)) as [s'|] eqn:Hpop;
      simpl; [|done].
    destruct s' as [|q rest] eqn:Hs'; simpl; [done|]. intros [= <-]. simpl.
    apply attach_forward; [done| |done].
    apply pop_headings_suffix in Hpop as [k Hk]. rewrite Hk in Hval.
    apply Forall_app in Hval as [_ Hval]. by inversion Hval.
  - case_bool_decide; [|by intros [= <-]].
    destruct (truthy _); [|by intros [= <-]].
    intros [= <-]. simpl. by apply attach_forward.
Qed.

Lemma _process_element_forward r e :
  ∀ st st', builder_inv r st → forward st.1 →
  _process_element e st = Some st' → builder_inv r st' ∧ forward st'.1.
Proof.
  induction e as [t x tl ks IH] using Element_ind'. intros st st' Hinv Hf.
  rewrite _process_element_unfold.
  destruct (process_tag _ st) as [st1|] eqn:H1; simpl; [|done].
  pose proof (process_tag_forward _ _ _ _ Hinv Hf H1) as Hf1.
  apply (process_tag_inv r) in H1 as [Hinv1 _]; [|done].
  clear Hinv Hf. revert st1 Hinv1 Hf1.
  induction ks as [|k ks IHks]; intros st1 Hinv1 Hf1; simpl.
  - by intros [= <-].
  - inversion IH as [|? ? IHk IHrest]; subst.
    destruct (_process_element k st1) as [st2|] eqn:H2; simpl; [|done].
    destruct (IHk _ _ Hinv1 Hf1 H2). by apply IHks.
Qed.

Lemma new_processor_forward : forward (new_processor []).1.
Proof.
  intros a n Hn. simpl in *. destruct a as [|a]; [|done].
  inversion Hn; subst n. constructor.
Qed.

(** Reading a tree does not depend on where its nodes live, nor on what
    was allocated around them. *)
Lemma extract_relocate fuel (h0 l rest : Heap) :
  forward l → ∀ a, (a < length l)%nat →
  extract fuel (h0 ++ (shift_node (length h0) <$> l) ++ rest)
          (length h0 + a)
  = extract fuel l a.
Proof.
  intros Hf. induction fuel as [|f IH]; intros a Ha; simpl; [done|].
  rewrite lookup_app_r by lia.
  replace (length h0 + a - length h0)%nat with a by lia.
  rewrite lookup_app_l by (by rewrite length_fmap).
  rewrite list_lookup_fmap.
  destruct (l !! a) as [n|] eqn:Hn; simpl; [|done].
  rewrite (Forall2_mapM_ext _ (extract f l) _ (children n)); [done|].
  apply Forall2_fmap_l, Forall_Forall2_diag.
  eapply Forall_impl; [exact (Hf _ _ Hn)|]. simpl. intros c Hc.
  apply IH. lia.
Qed.

Lemma extract_total (l : Heap) :
  forward l → ∀ fuel a, (a < length l)%nat → (length l - a ≤ fuel)%nat →
  is_Some (extract fuel l a).
Proof.
  intros Hf. induction fuel as [|f IH]; intros a Ha Hfuel; [lia|]. simpl.
  destruct (lookup_lt_is_Some_2 l a Ha) as [n Hn]. rewrite Hn. simpl.
  destruct (mapM_is_Some_2 (extract f l) (children n)) as [ks ->];
    [|by eexists].
  eapply Forall_impl; [exact (Hf _ _ Hn)|]. simpl. intros c Hc.
  apply IH; lia.
Qed.

Section ParserFacts.
Variable block_parser : list string → string → option Element.

(** A parse on any heap is the parse on the empty heap, moved. *)
Lemma parse_relocate text h0 md0 :
  parse block_parser text h0 md0 =
  (λ '(r, l, md),
     ((length h0 + r)%nat, h0 ++ (shift_node (length h0) <$> l),
      mkMarkdown (shift_processor (length h0) <$> ast_extractor md)
                 (converted md)))
  <$> parse block_parser text [] md0.
Proof.
  unfold parse. rewrite (relocate_new_processor h0).
  destruct (new_processor []) as [l0 p0] eqn:Hnew.
  unfold relocate at 1. cbn [fst snd].
  unfold convert. cbn [ast_extractor converted].
  destruct (block_parser (converted md0) text) as [e|].
  - pose proof (relocate_process_element h0 e (l0, p0)) as Hrel.
    unfold relocate at 1 in Hrel. cbn [fst snd] in Hrel. rewrite Hrel.
    destruct (_process_element e (l0, p0)) as [[l p]|]; [|done].
    simpl. inversion Hnew; subst. simpl. by rewrite Nat.add_0_r.
  - simpl. inversion Hnew; subst. simpl. by rewrite Nat.add_0_r.
Qed.

(** The tree a parse on the empty heap builds has no cycle. *)
Lemma parse_forward text r l md0 md :
  parse block_parser text [] md0 = Some (r, l, md) →
  r = 0%nat ∧ (0 < length l)%nat ∧ forward l.
Proof.
  unfold parse, convert. cbn [new_processor length app ast_extractor].
  destruct (block_parser _ text) as [e|].
  - destruct (_process_element e _) as [[l' p']|] eqn:Hrun; [|done].
    simpl. intros [= <- <- <-].
    destruct (_process_element_forward 0 e _ _ (new_processor_inv [])
                new_processor_forward Hrun) as [Hinv Hf].
    destruct Hinv as (_ & Hlen & _). split; [done|]. split; [lia|done].
  - simpl. intros [= <- <- <-]. split; [done|]. split; [simpl; lia|].
    apply new_processor_forward.
Qed.

(** The instance remembers the text. *)
Lemma parse_converted text h0 md0 r h md :
  parse block_parser text h0 md0 = Some (r, h, md) →
  converted md = converted md0 ++ [text].
Proof.
  unfold parse, convert. cbn [new_processor ast_extractor converted].
  destruct (block_parser _ text) as [e|].
  - destruct (_process_element e _) as [[l' p']|]; [|done].
    simpl. by intros [= <- <- <-].
  - simpl. by intros [= <- <- <-].
Qed.

(** A parse depends on the parser's state only through the element tree
    the library builds. *)
Lemma parse_elements text h md md' :
  block_parser (converted md') text = block_parser (converted md) text →
  fst <$> parse block_parser text h md' = fst <$> parse block_parser text h md.
Proof.
  intros Hbp. unfold parse, convert.
  cbn [new_processor ast_extractor converted]. rewrite Hbp.
  destruct (block_parser (converted md) text) as [e|]; [|done].
  by destruct (_process_element e _) as [[l' p']|].
Qed.

(** X19.  Parsing a text and then parsing the same text again with the
    same parser, when the library builds the same element tree from the
    text the second time: the second parse returns a tree of the same
    shape and content (node types, contents, levels and the order of
    children, read to any depth), the tree of the first parse is still
    what it was, and it is a finite tree.  The tree builder itself keeps
    nothing from one parse to the next. *)
Theorem parse_twice_same_elements text h0 md0 r1 h1 md1 :
  parse block_parser text h0 md0 = Some (r1, h1, md1) →
  block_parser (converted md0 ++ [text]) text
    = block_parser (converted md0) text →
  ∃ r2 h2 md2, parse block_parser text h1 md1 = Some (r2, h2, md2) ∧
    (∀ fuel, extract fuel h2 r2 = extract fuel h1 r1) ∧
    (∀ fuel, extract fuel h2 r1 = extract fuel h1 r1) ∧
    is_Some (extract (length h1) h1 r1).
Proof.
  intros Hp Hbp. pose proof (parse_converted _ _ _ _ _ _ Hp) as Hconv.
  pose proof (parse_relocate text h0 md0) as Hrel. rewrite Hp in Hrel.
  destruct (parse block_parser text [] md0) as [[[r l] md]|] eqn:Hloc;
    [|done].
  simpl in Hrel. injection Hrel as Hr Hh Hmd. clear Hp.
  destruct (parse_forward _ _ _ _ _ Hloc) as (-> & Hlen & Hf).
  set (h1' := h0 ++ (shift_node (length h0) <$> l)) in *.
  assert (fst <$> parse block_parser text [] md1 = Some (0%nat, l)) as Hloc'.
  { rewrite (parse_elements text [] md0 md1), Hloc; [done|].
    by rewrite Hconv. }
  destruct (parse block_parser text [] md1) as [[[r' l'] md']|] eqn:Hloc2;
    [|done].
  simpl in Hloc'. inversion Hloc'; subst r' l'.
  eexists _, _, _. split.
  { rewrite parse_relocate, Hloc2. simpl. reflexivity. }
  subst r1 h1. pose proof (extract_relocate) as E.
  assert (∀ fuel, extract fuel h1' (length h0 + 0) = extract fuel l 0%nat)
    as E1.
  { intros fuel. unfold h1'.
    rewrite <- (app_nil_r (shift_node _ <$> l)). by apply E. }
  repeat split.
  + intros fuel. rewrite E1.
    rewrite <- (app_nil_r (shift_node (length h1') <$> l)). by apply E.
  + intros fuel. rewrite E1. unfold h1'. rewrite <- app_assoc.
    by apply E.
  + rewrite E1. apply extract_total; [done..|].
    unfold h1'. rewrite length_app, length_fmap. lia.
Qed.
End ParserFacts.

Lemma parse_twice_same_elements_witness :
  ∃ r1 h1 md1,
    parse (λ _ _, Some scenario1_document) "text" [] MarkdownParser_init
      = Some (r1, h1, md1) ∧
    ∃ r2 h2 md2,
      parse (λ _ _, Some scenario1_document) "text" h1 md1
        = Some (r2, h2, md2) ∧
      (∀ fuel, extract fuel h2 r2 = extract fuel h1 r1) ∧
      (∀ fuel, extract fuel h2 r1 = extract fuel h1 r1) ∧
      is_Some (extract (length h1) h1 r1).
Proof.
  eexists _, _, _. split; [reflexivity|].
  eapply (parse_twice_same_elements (λ _ _, Some scenario1_document) "text"
            [] MarkdownParser_init); reflexivity.
Defined.

(** C8 (the code departs from the claim).  A text that is one fenced code
    block, parsed twice with one parser: both parses return a root with
    one paragraph, but the paragraph of the first holds the placeholder
    number 0 of the library's stash and that of the second the
    placeholder number 1, since [parse] converts with the same [Markdown]
    instance and never resets it.  The trees differ in content. *)
Theorem C8_second_parse_differs :
  ∃ r1 h1 md1 r2 h2 md2,
    parse fenced_markdown fenced_text [] MarkdownParser_init
      = Some (r1, h1, md1) ∧
    parse fenced_markdown fenced_text h1 md1 = Some (r2, h2, md2) ∧
    extract 2 h2 r1
      = Some (TNode "root" "" 0
                [TNode "paragraph" (stash_placeholder 0) 0 []]) ∧
    extract 2 h2 r2
      = Some (TNode "root" "" 0
                [TNode "paragraph" (stash_placeholder 1) 0 []]) ∧
    extract 2 h2 r2 ≠ extract 2 h2 r1.
Proof.
  eexists _, _, _, _, _, _.
  split; [reflexivity|]. split; [reflexivity|].
  split; [reflexivity|]. split; [reflexivity|].
  vm_compute. discriminate.
Qed.

(** ** Graph writer: the stack-based traversal is a pre-order traversal *)

Lemma tree_ind' (P : tree → Prop) :
  (∀ a ts, Forall P ts → P (Node a ts)) → ∀ t, P t.
Proof.
  intros H. fix IH 1. intros [a ts]. apply H.
  induction ts as [|t ts IHts]; constructor; [apply IH | exact IHts].
Qed.

Lemma represents_unfold h a ts :
  represents h (Node a ts) = true ↔
  children <$> h !! a = Some (tree_addr <$> ts) ∧
  Forall (λ t, represents h t = true) ts.
Proof.
  simpl. rewrite andb_true_iff, bool_decide_eq_true, forallb_forall.
  rewrite Forall_forall. split; intros [H1 H2]; (split; [done|]); intros t Ht;
    apply H2; by apply list_elem_of_In.
Qed.

Lemma same_shape_refl h : same_shape h h.
Proof. by intros a. Qed.

Lemma same_shape_trans h1 h2 h3 :
  same_shape h1 h2 → same_shape h2 h3 → same_shape h1 h3.
Proof. intros H12 H23 a. by rewrite H23, H12. Qed.

Lemma represents_same_shape h h' t :
  same_shape h h' → represents h' t = represents h t.
Proof.
  intros Hs. induction t as [a ts IH] using tree_ind'. simpl.
  rewrite Hs. f_equal.
  induction IH as [|t ts Ht _ IHts]; simpl; [done|]. by rewrite Ht, IHts.
Qed.

Lemma alter_set_id_shape i a h : same_shape h (alter (set_id i) a h).
Proof.
  intros b. rewrite list_lookup_alter. case_decide; [subst|done].
  by destruct (h !! b).
Qed.

Lemma drop_cons_lookup {X} (l : list X) i x l' :
  drop i l = x :: l' → l !! i = Some x ∧ drop (S i) l = l'.
Proof.
  revert i. induction l as [|y l IH]; intros [|i] H; simpl in *;
    try done.
  - inversion H; subst. split; [done|]. by rewrite drop_0.
  - by apply IH.
Qed.

Lemma drop_nil_lookup {X} (l : list X) i : drop i l = [] → l !! i = None.
Proof.
  revert i. induction l as [|y l IH]; intros [|i] H; simpl in *; try done.
  by apply IH.
Qed.

Lemma visit_all_app {A} (visit : addr → addr → nat → Heap * A → Heap * A)
  l1 l2 n st :
  visit_all visit (l1 ++ l2) n st
  = visit_all visit l2 (n + length l1) (visit_all visit l1 n st).
Proof.
  revert n st. induction l1 as [|[p c] l1 IH]; intros n st; simpl.
  - by rewrite Nat.add_0_r.
  - rewrite IH. f_equal. lia.
Qed.

Section WalkFacts.
Context {A : Type}.
Variable visit : addr → addr → nat → Heap * A → Heap * A.
Hypothesis visit_shape : ∀ p c n st, same_shape st.1 (visit p c n st).1.

Lemma walk_pop fuel p i stack n st pn :
  st.1 !! p = Some pn → children pn !! i = None →
  walk visit (S fuel) ((p, i) :: stack) n st = walk visit fuel stack n st.
Proof. intros Hp Hi. simpl. rewrite Hp. simpl. by rewrite Hi. Qed.

Lemma walk_step fuel p i stack n st pn c cn :
  st.1 !! p = Some pn → children pn !! i = Some c →
  (visit p c n st).1 !! c = Some cn →
  walk visit (S fuel) ((p, i) :: stack) n st
  = walk visit fuel
      match children cn with
      | [] => (p, S i) :: stack
      | _ :: _ => (c, 0%nat) :: (p, S i) :: stack
      end (S n) (visit p c n st).
Proof.
  intros Hp Hi Hc. simpl. rewrite Hp. simpl. rewrite Hi, Hc. done.
Qed.

Lemma visit_all_shape l n st : same_shape st.1 (visit_all visit l n st).1.
Proof.
  revert n st. induction l as [|[p c] l IH]; intros n st; simpl.
  - apply same_shape_refl.
  - eapply same_shape_trans; [apply visit_shape | apply IH].
Qed.

Lemma walks_frame_step a ts :
  Forall (λ t, walks_frame visit (tree_addr t) (subtrees t)) ts →
  walks_frame visit a ts.
Proof.
  induction 1 as [|[c cs] ts Hk _ IH];
    intros i fuel stack n st (pn & Hpn & Hdrop) Hrep.
  - simpl in Hdrop. unfold frame_cost. cbn [List.map list_sum Nat.add].
    rewrite (walk_pop _ _ _ _ _ _ _ Hpn (drop_nil_lookup _ _ Hdrop)).
    simpl. by rewrite Nat.add_0_r.
  - simpl in Hdrop. apply drop_cons_lookup in Hdrop as [Hi Hdrop].
    inversion Hrep as [|? ? Hc Hts]; subst.
    apply represents_unfold in Hc as [Hcn Hcs].
    unfold frame_cost. cbn [List.map list_sum Nat.add].
    set (st' := visit a c n st).
    pose proof (visit_shape a c n st) as Hsh. fold st' in Hsh.
    assert (∃ cn, st'.1 !! c = Some cn ∧ children cn = tree_addr <$> cs)
      as (cn & Hcn' & Hch).
    { rewrite <- Hsh in Hcn. destruct (st'.1 !! c) as [cn|]; [|done].
      exists cn. split; [done|]. by inversion Hcn. }
    rewrite (walk_step _ _ _ _ _ _ _ _ cn Hpn Hi Hcn').
    assert (∃ pn', st'.1 !! a = Some pn' ∧
                   drop (S i) (children pn') = tree_addr <$> ts)
      as Hpn'.
    { specialize (Hsh a). rewrite Hpn in Hsh.
      destruct (st'.1 !! a) as [pn'|]; [|done]. exists pn'.
      split; [done|]. inversion Hsh as [Heq]. by rewrite Heq. }
    assert (Forall (λ t, represents st'.1 t = true) ts) as Hts'.
    { eapply Forall_impl; [exact Hts|]. intros t Ht.
      by rewrite (represents_same_shape st.1). }
    cbn [flat_map edges app visit_all length]. fold st'.
    destruct cs as [|k cs'].
    + rewrite Hch. cbn [fmap list_fmap]. simpl flat_map.
      cbn [cost]. rewrite Nat.add_succ_r.
      specialize (IH (S i) fuel stack (S n) st' Hpn' Hts').
      unfold frame_cost in IH. simpl in IH |- *. apply IH.
    + rewrite Hch. cbn [fmap list_fmap].
      set (ks := k :: cs') in *.
      assert (cost (Node c ks) = S (frame_cost ks)) as -> by done.
      replace (list_sum (S (frame_cost ks) :: List.map cost ts) + fuel)%nat
        with (frame_cost ks + (frame_cost ts + fuel))%nat
        by (simpl; unfold frame_cost; lia).
      rewrite (Hk 0%nat _ ((a, S i) :: stack) (S n) st').
      * rewrite visit_all_app, length_app.
        set (st'' := visit_all visit (flat_map (edges c) ks) (S n) st').
        pose proof (visit_all_shape (flat_map (edges c) ks) (S n) st')
          as Hsh2. fold st'' in Hsh2.
        rewrite (IH (S i) fuel stack _ st'').
        -- f_equal. simpl. lia.
        -- destruct Hpn' as (pn' & Hp1 & Hp2). specialize (Hsh2 a).
           rewrite Hp1 in Hsh2. destruct (st''.1 !! a) as [pn''|]; [|done].
           exists pn''. split; [done|]. inversion Hsh2 as [Heq].
           by rewrite Heq.
        -- eapply Forall_impl; [exact Hts'|]. intros t Ht.
           by rewrite (represents_same_shape st'.1).
      * exists cn. split; [done|]. by rewrite drop_0.
      * eapply Forall_impl; [exact Hcs|]. intros t Ht.
        by rewrite (represents_same_shape st.1).
Qed.

Lemma walks_frame_all a ts : walks_frame visit a ts.
Proof.
  apply walks_frame_step. apply Forall_forall. intros t _.
  induction t as [c cs IH] using tree_ind'. by apply walks_frame_step.
Qed.

(** With fuel for its iterations, the traversal from the root of a tree
    ends, having run the body on all edges of the tree in pre-order. *)
Lemma walk_tree t fuel n st :
  represents st.1 t = true → (frame_cost (subtrees t) ≤ fuel)%nat →
  walk visit fuel [(tree_addr t, 0%nat)] n st
  = Some (visit_all visit (flat_map (edges (tree_addr t)) (subtrees t)) n st).
Proof.
  destruct t as [a ts]. intros Hrep Hfuel.
  apply represents_unfold in Hrep as [Ha Hts]. simpl in *.
  replace fuel with (frame_cost ts + (fuel - frame_cost ts))%nat by lia.
  rewrite walks_frame_all; [by destruct (fuel - frame_cost ts)%nat| |done].
  destruct (st.1 !! a) as [pn|]; [|done]. exists pn. split; [done|].
  rewrite drop_0. by inversion Ha.
Qed.
End WalkFacts.

(** ** Graph writer: id assignment *)

Lemma edges_preorder p t : (edges p t).*2 = preorder t.
Proof.
  revert p. induction t as [a ts IH] using tree_ind'. intros p.
  cbn [edges preorder]. rewrite fmap_cons. cbn [snd]. f_equal.
  induction IH as [|t ts Ht _ IHts]; cbn [flat_map]; [done|].
  by rewrite fmap_app, Ht, IHts.
Qed.

Lemma flat_edges_preorder p ts :
  (flat_map (edges p) ts).*2 = flat_map preorder ts.
Proof.
  induction ts as [|t ts IH]; cbn [flat_map]; [done|].
  by rewrite fmap_app, edges_preorder, IH.
Qed.

Lemma represents_lookup h t a :
  represents h t = true → a ∈ preorder t → is_Some (h !! a).
Proof.
  revert a. induction t as [b ts IH] using tree_ind'. intros a Hrep Ha.
  apply represents_unfold in Hrep as [Hb Hts]. simpl in Ha.
  apply elem_of_cons in Ha as [->|Ha].
  { destruct (h !! b); [by eexists|done]. }
  clear Hb. induction IH as [|t ts Ht _ IHts]; simpl in Ha.
  { by apply elem_of_nil in Ha. }
  inversion Hts; subst. apply elem_of_app in Ha as [Ha|Ha]; eauto.
Qed.

Lemma same_but_ids_refl h : same_but_ids h h.
Proof. by intros a. Qed.

Lemma same_but_ids_assign h h' a n :
  same_but_ids h h' → same_but_ids h (assign_id a n h').
Proof.
  intros Hs b. unfold assign_id. rewrite <- Hs, list_lookup_alter.
  case_decide; [subst|done]. by destruct (h' !! b).
Qed.

Lemma same_but_ids_shape h h' : same_but_ids h h' → same_shape h h'.
Proof.
  intros Hs a. specialize (Hs a).
  destruct (h' !! a) as [n'|], (h !! a) as [n|]; simpl in *; try done.
  inversion Hs. by f_equal.
Qed.

Lemma assign_ids_same h l n : same_but_ids h (assign_ids l n h).
Proof.
  assert (∀ h', same_but_ids h h' → same_but_ids h (assign_ids l n h')) as H.
  { revert n. induction l as [|a l IH]; intros n h' Hs; simpl; [done|].
    by apply IH, same_but_ids_assign. }
  apply H, same_but_ids_refl.
Qed.

Lemma assign_ids_notin l n h a :
  a ∉ l → assign_ids l n h !! a = h !! a.
Proof.
  revert n h. induction l as [|b l IH]; intros n h Ha; simpl; [done|].
  apply not_elem_of_cons in Ha as [Hne Ha]. rewrite IH by done.
  unfold assign_id. by rewrite list_lookup_alter_ne.
Qed.

(** In a list without repetition, the node at position [k] ends with the
    name numbered [m + k]. *)
Lemma assign_ids_lookup l m h k a nd :
  NoDup l → l !! k = Some a → h !! a = Some nd →
  assign_ids l m h !! a = Some (set_id (node_name (m + k)) nd).
Proof.
  revert m h k. induction l as [|b l IH]; intros m h k Hnd Hk Ha; [done|].
  apply NoDup_cons in Hnd as [Hb Hnd]. destruct k as [|k]; simpl in *.
  - inversion Hk; subst b. rewrite assign_ids_notin by done.
    unfold assign_id. rewrite list_lookup_alter_eq, Ha. simpl.
    by rewrite Nat.add_0_r.
  - assert (a ≠ b) as Hne.
    { intros ->. apply Hb. by eapply list_elem_of_lookup_2. }
    rewrite (IH (S m) _ k Hnd Hk).
    + do 3 f_equal. lia.
    + unfold assign_id. by rewrite list_lookup_alter_ne.
Qed.

(** Numbering again nodes that carry their numbers changes nothing. *)
Lemma assign_ids_fixed l m h :
  (∀ k a, l !! k = Some a →
     ∃ nd, h !! a = Some nd ∧ node_id nd = Some (node_name (m + k))) →
  assign_ids l m h = h.
Proof.
  revert m. induction l as [|b l IH]; intros m H; simpl; [done|].
  assert (assign_id b m h = h) as ->.
  { destruct (H 0%nat b eq_refl) as (nd & Hb & Hid).
    rewrite Nat.add_0_r in Hid. unfold assign_id.
    apply list_eq. intros j. rewrite list_lookup_alter.
    case_decide; [subst j|done]. rewrite Hb. simpl. f_equal.
    destruct nd; simpl in *. by subst. }
  apply IH. intros k a Hk. destruct (H (S k) a Hk) as (nd & ? & ?).
  exists nd. split; [done|]. by replace (S m + k)%nat with (m + S k)%nat by lia.
Qed.

Lemma visit_all_assign (l : list (addr * addr)) n h :
  visit_all (λ _ child k (st : Heap * ()), (assign_id child k st.1, st.2))
            l n (h, ())
  = (assign_ids l.*2 n h, ()).
Proof.
  revert n h. induction l as [|[p c] l IH]; intros n h; simpl; [done|].
  apply IH.
Qed.

Lemma visit_all_create (h : Heap) (l : list (addr * addr)) n h' acc :
  same_but_ids h h' →
  visit_all (λ _ child k (st : Heap * list Statement),
               (assign_id child k st.1,
                st.2 ++ create_statement (assign_id child k st.1) child))
            l n (h', acc)
  = (assign_ids l.*2 n h', acc ++ node_statements h l.*2 n).
Proof.
  revert n h' acc. induction l as [|[p c] l IH]; intros n h' acc Hs; simpl.
  - by rewrite app_nil_r.
  - rewrite IH by (by apply same_but_ids_assign). f_equal.
    rewrite <- app_assoc. do 2 f_equal.
    unfold create_statement, assign_id. rewrite list_lookup_alter_eq.
    specialize (Hs c).
    destruct (h' !! c) as [n'|], (h !! c) as [n0|]; simpl in *; try done.
    destruct n', n0; simpl in *. by inversion Hs.
Qed.

Lemma visit_all_query (h : Heap) (l : list (addr * addr)) n h' acc :
  same_but_ids h h' →
  visit_all (λ _ child k (st : Heap * list string),
               (assign_id child k st.1,
                st.2 ++ query_line (assign_id child k st.1) child k))
            l n (h', acc)
  = (assign_ids l.*2 n h', acc ++ node_queries h l.*2 n).
Proof.
  revert n h' acc. induction l as [|[p c] l IH]; intros n h' acc Hs; simpl.
  - by rewrite app_nil_r.
  - rewrite IH by (by apply same_but_ids_assign). f_equal.
    rewrite <- app_assoc. do 2 f_equal.
    unfold query_line, assign_id. rewrite list_lookup_alter_eq.
    specialize (Hs c).
    destruct (h' !! c) as [n'|], (h !! c) as [n0|]; simpl in *; try done.
    destruct n', n0; simpl in *. by inversion Hs.
Qed.

Lemma represents_root h t :
  represents h t = true → is_Some (h !! tree_addr t).
Proof.
  intros H. apply (represents_lookup h t); [done|].
  destruct t. simpl. apply elem_of_cons. by left.
Qed.

(** What the three traversals that number the nodes compute. *)
Lemma _assign_node_ids_eq h t fuel :
  represents h t = true → (frame_cost (subtrees t) ≤ fuel)%nat →
  _assign_node_ids fuel h (tree_addr t) = Some (assign_ids (preorder t) 0 h).
Proof.
  intros Hrep Hfuel. unfold _assign_node_ids.
  rewrite walk_tree;
    [|by intros; apply alter_set_id_shape| |done].
  - rewrite visit_all_assign, flat_edges_preorder. by destruct t.
  - simpl. by rewrite (represents_same_shape h) by apply alter_set_id_shape.
Qed.

Lemma _create_nodes_eq h t fuel :
  represents h t = true → (frame_cost (subtrees t) ≤ fuel)%nat →
  ∃ rn, h !! tree_addr t = Some rn ∧
    _create_nodes fuel h (tree_addr t)
    = Some (assign_ids (preorder t) 0 h,
            (CreateRootNode, root_params (set_id "node_0" rn))
            :: node_statements h (flat_map preorder (subtrees t)) 1).
Proof.
  intros Hrep Hfuel. destruct (represents_root _ _ Hrep) as [rn Hrn].
  exists rn. split; [done|]. unfold _create_nodes.
  rewrite list_lookup_alter_eq, Hrn. simpl.
  rewrite walk_tree;
    [|by intros; apply alter_set_id_shape| |done].
  - rewrite (visit_all_create h), flat_edges_preorder.
    + by destruct t.
    + apply (same_but_ids_assign h h (tree_addr t) 0), same_but_ids_refl.
  - simpl. by rewrite (represents_same_shape h) by apply alter_set_id_shape.
Qed.

Lemma _generate_node_queries_eq h t fuel :
  represents h t = true → (frame_cost (subtrees t) ≤ fuel)%nat →
  _generate_node_queries fuel h (tree_addr t)
  = Some (assign_ids (flat_map preorder (subtrees t)) 1
            (assign_ids (preorder t) 0 h),
          "CREATE (node_0:Node {id: 'node_0', type: 'root', content: ''});"
          :: node_queries h (flat_map preorder (subtrees t)) 1).
Proof.
  intros Hrep Hfuel. unfold _generate_node_queries.
  rewrite _assign_node_ids_eq by done. simpl.
  rewrite walk_tree;
    [|by intros; apply alter_set_id_shape| |done].
  - by rewrite (visit_all_query h), flat_edges_preorder
      by apply assign_ids_same.
  - simpl. rewrite (represents_same_shape h); [done|].
    apply same_but_ids_shape, assign_ids_same.
Qed.

(** C2.  For a heap that holds a tree (no node occurs twice) and fuel for
    the traversal, id assignment ends and leaves the node at position [k]
    of the pre-order of the tree (children in stored order, the root at
    position 0) with the id "node_k"; the root gets "node_0".
    [_assign_node_ids], the live-write path [_create_nodes] and the script
    path [_generate_node_queries] leave the same heap, and each of them,
    run again on that heap, leaves it as it is. *)
Theorem C2_preorder_ids (h : Heap) (t : tree) (fuel : nat) :
  represents h t = true → NoDup (preorder t) →
  (frame_cost (subtrees t) ≤ fuel)%nat →
  ∃ h1,
    node_id <$> h1 !! tree_addr t = Some (Some "node_0") ∧
    (∀ k a, preorder t !! k = Some a →
            node_id <$> h1 !! a = Some (Some ("node_" +:+ pretty k))) ∧
    _assign_node_ids fuel h (tree_addr t) = Some h1 ∧
    fst <$> _create_nodes fuel h (tree_addr t) = Some h1 ∧
    fst <$> _generate_node_queries fuel h (tree_addr t) = Some h1 ∧
    _assign_node_ids fuel h1 (tree_addr t) = Some h1 ∧
    fst <$> _create_nodes fuel h1 (tree_addr t) = Some h1 ∧
    fst <$> _generate_node_queries fuel h1 (tree_addr t) = Some h1.
Proof.
  intros Hrep Hnd Hfuel. set (h1 := assign_ids (preorder t) 0 h).
  assert (∀ k a, preorder t !! k = Some a →
            ∃ nd, h1 !! a = Some nd ∧ node_id nd = Some (node_name (0 + k)))
    as Hids.
  { intros k a Hk.
    destruct (represents_lookup h t a Hrep) as [nd Ha].
    { by eapply list_elem_of_lookup_2. }
    exists (set_id (node_name (0 + k)) nd). split; [|done].
    by apply assign_ids_lookup. }
  assert (represents h1 t = true) as Hrep1.
  { rewrite (represents_same_shape h); [done|].
    apply same_but_ids_shape, assign_ids_same. }
  assert (assign_ids (preorder t) 0 h1 = h1) as Hfix
    by (by apply assign_ids_fixed).
  assert (assign_ids (flat_map preorder (subtrees t)) 1 h1 = h1) as Hfix'.
  { apply assign_ids_fixed. intros k a Hk.
    apply (Hids (S k) a). by destruct t. }
  exists h1. repeat split.
  - destruct (Hids 0%nat (tree_addr t)) as (nd & -> & Hid); [by destruct t|].
    simpl. by rewrite Hid.
  - intros k a Hk. destruct (Hids k a Hk) as (nd & -> & Hid).
    simpl. by rewrite Hid.
  - by apply _assign_node_ids_eq.
  - destruct (_create_nodes_eq h t fuel Hrep Hfuel) as (rn & _ & ->). done.
  - rewrite _generate_node_queries_eq by done. cbn [fmap option_fmap option_map fst].
    fold h1. by rewrite Hfix'.
  - rewrite _assign_node_ids_eq by done. by rewrite Hfix.
  - destruct (_create_nodes_eq h1 t fuel Hrep1 Hfuel) as (rn & _ & ->).
    cbn [fmap option_fmap option_map fst]. by rewrite Hfix.
  - rewrite _generate_node_queries_eq by done.
    cbn [fmap option_fmap option_map fst]. by rewrite Hfix, Hfix'.
Qed.

Lemma C2_preorder_ids_witness :
  represents test_heap test_tree = true ∧ NoDup (preorder test_tree) ∧
  (frame_cost (subtrees test_tree) ≤ 5)%nat ∧
  ∃ h1,
    node_id <$> h1 !! tree_addr test_tree = Some (Some "node_0") ∧
    (∀ k a, preorder test_tree !! k = Some a →
            node_id <$> h1 !! a = Some (Some ("node_" +:+ pretty k))) ∧
    _assign_node_ids 5 test_heap (tree_addr test_tree) = Some h1 ∧
    fst <$> _create_nodes 5 test_heap (tree_addr test_tree) = Some h1 ∧
    fst <$> _generate_node_queries 5 test_heap (tree_addr test_tree)
      = Some h1 ∧
    _assign_node_ids 5 h1 (tree_addr test_tree) = Some h1 ∧
    fst <$> _create_nodes 5 h1 (tree_addr test_tree) = Some h1 ∧
    fst <$> _generate_node_queries 5 h1 (tree_addr test_tree) = Some h1.
Proof.
  assert (NoDup (preorder test_tree)) as Hnd
    by (apply (bool_decide_unpack _); vm_compute; exact I).
  split; [reflexivity|]. split; [exact Hnd|].
  split; [vm_compute; lia|].
  apply (C2_preorder_ids test_heap test_tree 5);
    [reflexivity | exact Hnd | vm_compute; lia].
Defined.

(** ** Graph writer: the statements *)

Lemma root_params_lookup nd :
  root_params nd !! "id" = Some (id_value nd) ∧
  root_params nd !! "type" = Some (VStr (node_type nd)) ∧
  root_params nd !! "content" = Some (VStr (content nd)) ∧
  root_params nd !! "level" = None.
Proof. unfold root_params. by simplify_map_eq. Qed.

Lemma node_params_lookup nd :
  node_params nd !! "id" = Some (id_value nd) ∧
  node_params nd !! "type" = Some (VStr (node_type nd)) ∧
  node_params nd !! "content" = Some (VStr (content nd)) ∧
  node_params nd !! "level" = Some (VInt (level nd)).
Proof. unfold node_params. by simplify_map_eq. Qed.

Lemma node_statements_lookup h l n :
  Forall (λ a, is_Some (h !! a)) l →
  length (node_statements h l n) = length l ∧
  ∀ k a nd, l !! k = Some a → h !! a = Some nd →
    node_statements h l n !! k
    = Some (CreateNode, node_params (set_id (node_name (n + k)) nd)).
Proof.
  revert n. induction l as [|b l IH]; intros n Hl; simpl; [done|].
  inversion Hl as [|? ? [bn Hb] Hl']; subst. rewrite Hb. simpl.
  destruct (IH (S n) Hl') as [IH1 IH2]. split; [by rewrite IH1|].
  intros [|k] a nd Hk Ha; simpl in *.
  - inversion Hk; subst. rewrite Hb in Ha. inversion Ha; subst.
    by rewrite Nat.add_0_r.
  - rewrite (IH2 k a nd Hk Ha).
    by rewrite Nat.add_succ_r.
Qed.

Lemma node_queries_lookup h l n :
  Forall (λ a, is_Some (h !! a)) l →
  length (node_queries h l n) = length l ∧
  ∀ k a nd, l !! k = Some a → h !! a = Some nd →
    node_queries h l n !! k = Some (node_query (n + k) nd).
Proof.
  revert n. induction l as [|b l IH]; intros n Hl; simpl; [done|].
  inversion Hl as [|? ? [bn Hb] Hl']; subst. rewrite Hb. simpl.
  destruct (IH (S n) Hl') as [IH1 IH2]. split; [by rewrite IH1|].
  intros [|k] a nd Hk Ha; simpl in *.
  - inversion Hk; subst. rewrite Hb in Ha. inversion Ha; subst.
    by rewrite Nat.add_0_r.
  - rewrite (IH2 k a nd Hk Ha).
    by rewrite Nat.add_succ_r.
Qed.

Lemma represents_subtrees_lookup h t :
  represents h t = true →
  Forall (λ a, is_Some (h !! a)) (flat_map preorder (subtrees t)).
Proof.
  intros Hrep. apply Forall_forall. intros a Ha.
  apply (represents_lookup h t a Hrep). destruct t. simpl in *.
  apply elem_of_cons. by right.
Qed.

(** In live-write mode every node of the tree gets one statement, at its
    pre-order position: the root's carries id, type and content; any other
    node's carries id, type, content and the node's [level] field, a
    paragraph's 0 included. *)
Lemma _create_nodes_statements h t fuel :
  represents h t = true → (frame_cost (subtrees t) ≤ fuel)%nat →
  ∃ stmts, snd <$> _create_nodes fuel h (tree_addr t) = Some stmts ∧
    length stmts = length (preorder t) ∧
    ∀ k a nd, preorder t !! k = Some a → h !! a = Some nd →
      stmts !! k =
      Some match k with
           | O => (CreateRootNode, root_params (set_id (node_name k) nd))
           | S _ => (CreateNode, node_params (set_id (node_name k) nd))
           end.
Proof.
  intros Hrep Hfuel.
  destruct (_create_nodes_eq h t fuel Hrep Hfuel) as (rn & Hrn & ->).
  eexists. split; [reflexivity|].
  destruct (node_statements_lookup h _ 1 (represents_subtrees_lookup h t Hrep))
    as [Hlen Hlook].
  destruct t as [r ts]. simpl in *. split; [by rewrite Hlen|].
  intros [|k] a nd Hk Ha; simpl in *.
  - inversion Hk; subst. rewrite Hrn in Ha. by inversion Ha; subst.
  - by rewrite (Hlook k a nd Hk Ha).
Qed.

(** In script mode every node below the root gets one line, at its
    pre-order position, after the line of the root; the line names the
    level only when it is positive. *)
Lemma _generate_node_queries_lines h t fuel :
  represents h t = true → (frame_cost (subtrees t) ≤ fuel)%nat →
  ∃ qs, snd <$> _generate_node_queries fuel h (tree_addr t) = Some qs ∧
    length qs = length (preorder t) ∧
    qs !! 0%nat =
      Some "CREATE (node_0:Node {id: 'node_0', type: 'root', content: ''});" ∧
    ∀ k a nd, preorder t !! S k = Some a → h !! a = Some nd →
      qs !! S k = Some (node_query (S k) nd).
Proof.
  intros Hrep Hfuel. rewrite _generate_node_queries_eq by done.
  eexists. split; [reflexivity|].
  destruct (node_queries_lookup h _ 1 (represents_subtrees_lookup h t Hrep))
    as [Hlen Hlook].
  destruct t as [r ts]. simpl in *. split; [by rewrite Hlen|].
  split; [done|]. intros k a nd Hk Ha. by rewrite (Hlook k a nd Hk Ha).
Qed.

(** C3 (the code departs from the claim).  For a root with one paragraph
    the live-write path executes two statements; the root's has no [level]
    parameter, but the paragraph's passes [level] with the value 0, neither
    omitted nor absent.  The script path omits the level of the paragraph
    ([_generate_node_queries] writes it only when it is positive). *)
Theorem C3_live_paragraph_level :
  ∃ h1 ps0 ps1,
    _create_nodes 2 paragraph_heap 0
      = Some (h1, [(CreateRootNode, ps0); (CreateNode, ps1)]) ∧
    ps0 !! "level" = None ∧
    ps1 !! "type" = Some (VStr "paragraph") ∧
    ps1 !! "level" = Some (VInt 0) ∧
    snd <$> _generate_node_queries 2 paragraph_heap 0
      = Some ["CREATE (node_0:Node {id: 'node_0', type: 'root', content: ''});";
              "CREATE (node_1:Node {id: 'node_1', type: 'paragraph', content: 'Paragraph 1'});"].
Proof.
  eexists _, _, _. split; [vm_compute; reflexivity|].
  repeat split; vm_compute; reflexivity.
Qed.

(** ** Graph reader *)

(** C5 (the code departs from the claim).  On the graph of scenario 2 the
    traversal joins the six lines with five newlines, so its result ends
    in one newline, not in the two that the scenario and the package's own
    test expect.  This holds for the mock of the test and for a store in
    which the paragraph has level 0; when the paragraph has no level, the
    store's ascending order by (level, id) puts it after "Header 2".  At
    no recursion depth is the result the expected string. *)
Theorem C5_scenario2_rendering :
  fst (traverse_and_print test_mock 3 initial_env)
    = Ok ("# Header 1" +:+ nl +:+ nl +:+ "Paragraph 1" +:+ nl +:+ nl +:+
          "## Header 2" +:+ nl) ∧
  fst (traverse_and_print
         (mkGraph (Some (healthy (scenario2_store (Some (VInt 0))))))
         3 initial_env)
    = Ok ("# Header 1" +:+ nl +:+ nl +:+ "Paragraph 1" +:+ nl +:+ nl +:+
          "## Header 2" +:+ nl) ∧
  fst (traverse_and_print
         (mkGraph (Some (healthy (scenario2_store None)))) 3 initial_env)
    = Ok ("# Header 1" +:+ nl +:+ nl +:+ "## Header 2" +:+ nl +:+ nl +:+
          "Paragraph 1" +:+ nl) ∧
  ∀ depth,
    fst (traverse_and_print test_mock depth initial_env)
      ≠ Ok scenario2_expected ∧
    fst (traverse_and_print
           (mkGraph (Some (healthy (scenario2_store (Some (VInt 0))))))
           depth initial_env)
      ≠ Ok scenario2_expected ∧
    fst (traverse_and_print
           (mkGraph (Some (healthy (scenario2_store None)))) depth
           initial_env)
      ≠ Ok scenario2_expected.
Proof.
  split; [vm_compute; reflexivity|].
  split; [vm_compute; reflexivity|].
  split; [vm_compute; reflexivity|].
  intros [|[|[|d]]]; repeat split; vm_compute; discriminate.
Qed.

(** An error is logged at every level of the logger. *)
Lemma should_log_error env : _should_log "ERROR" env = true.
Proof.
  unfold _should_log. apply bool_decide_eq_true.
  change (default 0%nat (LEVELS "ERROR")) with 0%nat. lia.
Qed.

(** A message without a tag is logged, or skipped for its level. *)
Lemma log_error_spec message env :
  has_tag ("ERROR: " +:+ message) = false →
  log "ERROR" message env
  = (Ok (), mkEnv (log_level env) (console env) (calls env)
                  (trace env ++ [Logged ("ERROR: " +:+ message)])).
Proof.
  intros Hplain. unfold log, console_print. rewrite should_log_error.
  change ("ERROR" +:+ ": " +:+ message) with ("ERROR: " +:+ message).
  by rewrite Hplain.
Qed.

Lemma log_spec name message env :
  has_tag (name +:+ ": " +:+ message) = false →
  ∃ tr, log name message env
        = (Ok (), mkEnv (log_level env) (console env) (calls env)
                        (trace env ++ tr)) ∧
        Forall (λ ev, ∃ line, ev = Logged line) tr.
Proof.
  intros Hplain. unfold log, console_print. rewrite Hplain. simpl.
  destruct (_should_log name env).
  - eexists [_]. split; [reflexivity|]. repeat constructor. by eexists.
  - exists []. split; [|constructor]. destruct env. simpl.
    by rewrite app_nil_r.
Qed.

(** What the logger does with any message: it logs the line, skips it
    for its level, or raises when the console rejects the line. *)
Lemma log_cases name message env :
  if rejected env name message
  then log name message env
       = (Raise (MarkupError (name +:+ ": " +:+ message)), env)
  else ∃ tr, log name message env
             = (Ok (), mkEnv (log_level env) (console env) (calls env)
                             (trace env ++ tr)) ∧
             ((_should_log name env = true ∧
               tr = [Logged (name +:+ ": " +:+ message)]) ∨
              (_should_log name env = false ∧ tr = [])).
Proof.
  unfold rejected, log, console_print.
  destruct (_should_log name env); simpl.
  - destruct (has_tag _ && console env _); [done|].
    eexists. split; [reflexivity|]. by left.
  - exists []. split; [|by right]. destruct env. simpl. by rewrite app_nil_r.
Qed.

(** The texts of the queries hold no tag. *)
Lemma query_text_plain q :
  has_tag ("DEBUG: " +:+ "Executing query: " +:+ query_text q) = false.
Proof. destruct q; vm_compute; reflexivity. Qed.

Lemma _execute_query_ok srv q ps env :
  fails srv (calls env) = false →
  ∃ tr, _execute_query (mkGraph (Some srv)) q ps env
        = (Ok (answer srv q ps),
           mkEnv (log_level env) (console env) (S (calls env)) (trace env ++ tr)).
Proof.
  intros Hok. unfold _execute_query, logger_debug.
  destruct (log_spec "DEBUG" ("Executing query: " +:+ query_text q) env
              (query_text_plain q)) as (tr & Hl & _).
  unfold mbind, M_bind, mret, M_ret. rewrite Hl. simpl. rewrite Hok. simpl.
  exists (tr ++ [Ran q ps]). by rewrite app_assoc.
Qed.

Lemma match_root_none (s : Store) :
  (∀ n, n ∈ nodes s → n !! "type" ≠ Some (VStr "root")) → match_root s = [].
Proof.
  intros H. unfold match_root.
  induction (nodes s) as [|n l IH]; [done|].
  rewrite filter_cons. destruct (decide _) as [Hn|_].
  - exfalso. eapply H; [|exact Hn]. apply elem_of_cons. by left.
  - apply IH. intros n' Hn'. apply H. apply elem_of_cons. by right.
Qed.

(** C6.  When the store holds no node whose type is "root" and answers
    the query for the root, the traversal returns the empty string without
    raising, whatever the recursion limit and the logger's level are, and
    the logger has printed the error "Root node not found in graph". *)
Theorem C6_missing_root (srv : Server) (depth : nat) (env : Env) :
  (∀ n, n ∈ nodes (store srv) → n !! "type" ≠ Some (VStr "root")) →
  fails srv (calls env) = false →
  ∃ env', traverse_and_print (mkGraph (Some srv)) depth env = (Ok "", env') ∧
    Logged "ERROR: Root node not found in graph" ∈ trace env'.
Proof.
  intros Hroot Hok. unfold traverse_and_print, logger_info, logger_error.
  destruct (log_spec "INFO" "Traversing graph" env eq_refl) as (tr1 & Hl1 & _).
  unfold mbind at 1, M_bind. rewrite Hl1.
  unfold mbind at 1, M_bind.
  cbn [get_root_node Neo4jGraph_Graph]. unfold Neo4jGraph_get_root_node.
  unfold mbind at 1, M_bind.
  destruct (_execute_query_ok srv MatchRoot ∅
              (mkEnv (log_level env) (console env) (calls env) (trace env ++ tr1)) Hok)
    as (tr2 & ->).
  unfold mret at 1, M_ret. cbn [answer].
  rewrite (match_root_none _ Hroot). cbn [head].
  unfold mbind at 1, M_bind. rewrite log_error_spec by done.
  eexists. split; [reflexivity|]. cbn [trace].
  apply elem_of_app. right. apply elem_of_cons. by left.
Qed.

Lemma C6_missing_root_witness :
  ∃ env',
    traverse_and_print (mkGraph (Some (healthy (mkStore [] []))))
                       1000 initial_env
    = (Ok "", env') ∧
    Logged "ERROR: Root node not found in graph" ∈ trace env'.
Proof.
  apply (C6_missing_root (healthy (mkStore [] [])) 1000 initial_env).
  - intros n Hn. simpl in Hn. by apply elem_of_nil in Hn.
  - reflexivity.
Defined.

(** C9.  In the loop of [_traverse_node], a child record whose type is
    "heading" and that has no "level" key adds the line made of one '#',
    a space and its content, and an empty line after it: the level
    defaults to 1. *)
Theorem C9_heading_default_level (child : Dict) (lines : list Value)
  (c : Value) (env : Env) :
  child !! "type" = Some (VStr "heading") →
  child !! "level" = None →
  child !! "content" = Some c →
  render_child child lines env
  = (Ok (lines ++ [VStr ("# " +:+ format c); VStr ""]), env).
Proof.
  intros Hty Hlv Hc. unfold render_child, getitem.
  rewrite Hty, Hlv, Hc. reflexivity.
Qed.

Lemma C9_heading_default_level_witness :
  render_child (dict [("id", VStr "node_1"); ("type", VStr "heading");
                      ("content", VStr "Title")]) [] initial_env
  = (Ok [VStr "# Title"; VStr ""], initial_env).
Proof.
  apply (C9_heading_default_level
           (dict [("id", VStr "node_1"); ("type", VStr "heading");
                  ("content", VStr "Title")]) [] (VStr "Title") initial_env);
    reflexivity.
Defined.

(** ** Credentials *)

(** C10.  For each connection parameter, whatever the other two are: an
    explicitly passed empty string resolves like an absent one; an empty
    or absent one resolves to the value of its environment variable when
    that is set and to the hard-coded default otherwise; a non-empty one
    resolves to itself; and when the environment variable of the
    parameter is not set to the empty string, the resolved value is not
    empty. *)
Theorem C10_empty_parameter_is_absent (environ : gmap string string)
  (uri username password : option string) :
  (get_neo4j_credentials environ (Some "") username password
     = get_neo4j_credentials environ None username password ∧
   get_neo4j_credentials environ uri (Some "") password
     = get_neo4j_credentials environ uri None password ∧
   get_neo4j_credentials environ uri username (Some "")
     = get_neo4j_credentials environ uri username None) ∧
  let '(u, n, p) := get_neo4j_credentials environ uri username password in
  ((uri = None ∨ uri = Some "" →
    u = default "bolt://localhost:7687" (environ !! "NEO4J_URI")) ∧
   (∀ s, uri = Some s → s ≠ "" → u = s) ∧
   (environ !! "NEO4J_URI" ≠ Some "" → u ≠ "")) ∧
  ((username = None ∨ username = Some "" →
    n = default "neo4j" (environ !! "NEO4J_USERNAME")) ∧
   (∀ s, username = Some s → s ≠ "" → n = s) ∧
   (environ !! "NEO4J_USERNAME" ≠ Some "" → n ≠ "")) ∧
  ((password = None ∨ password = Some "" →
    p = default "neo4j" (environ !! "NEO4J_PASSWORD")) ∧
   (∀ s, password = Some s → s ≠ "" → p = s) ∧
   (environ !! "NEO4J_PASSWORD" ≠ Some "" → p ≠ "")).
Proof.
  assert (∀ a name fallback, fallback ≠ "" →
            (a = None ∨ a = Some "" →
             or_else a (environ_get environ name fallback)
             = default fallback (environ !! name)) ∧
            (∀ s, a = Some s → s ≠ "" →
               or_else a (environ_get environ name fallback) = s) ∧
            (environ !! name ≠ Some "" →
             or_else a (environ_get environ name fallback) ≠ "")) as Hone.
  { intros a name fallback Hf. unfold or_else, environ_get.
    split; [|split].
    - by intros [->| ->].
    - intros s -> Hs. by destruct s.
    - intros Hv. destruct a as [[|c s]|]; simpl; [|done|];
        destruct (environ !! name) as [[|c s]|]; done. }
  split; [done|]. unfold get_neo4j_credentials.
  split; [|split]; by apply Hone.
Qed.

Lemma C10_empty_parameter_is_absent_witness :
  get_neo4j_credentials {[ "NEO4J_USERNAME" := "" ]} (Some "") (Some "") None
  = ("bolt://localhost:7687", "", "neo4j").
Proof.
  pose proof (C10_empty_parameter_is_absent {[ "NEO4J_USERNAME" := "" ]}
                (Some "") (Some "") None) as [_ H].
  destruct (get_neo4j_credentials _ _ _ _) as [[u n] p].
  destruct H as ((Hu & _) & (Hn & _) & (Hp & _)).
  rewrite Hu, Hn, Hp by auto. reflexivity.
Defined.

(** ** Commands: when the connection is closed *)

Lemma quiet_ret {A} (a : A) : quiet (mret a).
Proof. by intros env. Qed.

Lemma quiet_raise {A} (e : exn) : quiet (raise (A := A) e).
Proof. by intros env. Qed.

Lemma quiet_bind {A B} (m : M A) (f : A → M B) :
  quiet m → (∀ a, quiet (f a)) → quiet (m ≫= f).
Proof.
  intros Hm Hf env. unfold mbind, M_bind. specialize (Hm env).
  destruct (m env) as [[a|e] env1]; simpl in *; [|done].
  by rewrite Hf.
Qed.

Lemma quiet_emit ev : is_connection_event ev = false → quiet (emit ev).
Proof.
  intros Hev env. unfold connection, emit. simpl.
  rewrite List.filter_app. simpl. rewrite Hev. by rewrite app_nil_r.
Qed.

Lemma quiet_log name message : quiet (log name message).
Proof.
  intros env. unfold log, console_print.
  destruct (_should_log name env); [|done].
  destruct (has_tag _ && console env _); [done|]. by apply quiet_emit.
Qed.

Lemma quiet_tick : quiet tick.
Proof. by intros env. Qed.

Lemma quiet_for_each {A B} (body : B → A → M B) l :
  (∀ acc x, quiet (body acc x)) → ∀ acc, quiet (for_each body l acc).
Proof.
  intros Hbody. induction l as [|x l IH]; intros acc; simpl.
  - apply quiet_ret.
  - apply quiet_bind; [apply Hbody | apply IH].
Qed.

Lemma quiet_execute_query g q ps : quiet (_execute_query g q ps).
Proof.
  unfold _execute_query. apply quiet_bind; [apply quiet_log|]. intros _.
  destruct (driver g) as [srv|]; [|apply quiet_raise].
  apply quiet_bind; [apply quiet_tick|]. intros k.
  destruct (fails srv k); [apply quiet_raise|].
  apply quiet_bind; [by apply quiet_emit|]. intros _. apply quiet_ret.
Qed.

Lemma quiet_getitem d k : quiet (getitem d k).
Proof. unfold getitem. destruct (d !! k); [apply quiet_ret|apply quiet_raise]. Qed.

Lemma quiet_render_child child lines : quiet (render_child child lines).
Proof.
  unfold render_child. apply quiet_bind; [apply quiet_getitem|]. intros ty.
  case_bool_decide.
  - apply quiet_bind.
    + destruct (default _ _); try apply quiet_raise. apply quiet_ret.
    + intros pre. apply quiet_bind; [apply quiet_getitem|]. intros c.
      apply quiet_ret.
  - apply quiet_bind; [apply quiet_getitem|]. intros ty'.
    case_bool_decide; [|apply quiet_ret].
    apply quiet_bind; [apply quiet_getitem|]. intros c. apply quiet_ret.
Qed.

Lemma quiet_traverse_node (g : Neo4jGraph) depth :
  ∀ node_id lines, quiet (_traverse_node g depth node_id lines).
Proof.
  induction depth as [|d IH]; intros node_id lines; simpl.
  - apply quiet_raise.
  - apply quiet_bind; [apply quiet_execute_query|]. intros cs.
    apply quiet_for_each. intros acc child.
    apply quiet_bind; [apply quiet_render_child|]. intros lines'.
    apply quiet_bind; [apply quiet_getitem|]. intros cid. apply IH.
Qed.

Lemma quiet_traverse_and_print (g : Neo4jGraph) depth :
  quiet (traverse_and_print g depth).
Proof.
  unfold traverse_and_print. apply quiet_bind; [apply quiet_log|]. intros _.
  apply quiet_bind.
  { cbn [get_root_node Neo4jGraph_Graph]. unfold Neo4jGraph_get_root_node.
    apply quiet_bind; [apply quiet_execute_query|]. intros rows.
    apply quiet_ret. }
  intros [d|].
  - case_bool_decide.
    + apply quiet_bind; [apply quiet_log|]. intros _. apply quiet_ret.
    + apply quiet_bind; [apply quiet_getitem|]. intros rid.
      apply quiet_bind; [apply quiet_traverse_node|]. intros ls.
      unfold join_lines. destruct (mapM _ ls); [apply quiet_ret|apply quiet_raise].
  - apply quiet_bind; [apply quiet_log|]. intros _. apply quiet_ret.
Qed.

Lemma quiet_execute_all g stmts : quiet (execute_all g stmts).
Proof.
  unfold execute_all. apply quiet_for_each. intros _ s.
  apply quiet_bind; [apply quiet_execute_query|]. intros _. apply quiet_ret.
Qed.

Lemma quiet_create_graph fuel g h r : quiet (Neo4jGraph_create_graph fuel g h r).
Proof.
  unfold Neo4jGraph_create_graph.
  apply quiet_bind; [apply quiet_log|]. intros _.
  apply quiet_bind; [apply quiet_execute_query|]. intros _.
  destruct (_create_nodes fuel h r) as [[h1 stmts]|]; [|apply quiet_ret].
  apply quiet_bind; [apply quiet_execute_all|]. intros _.
  destruct (_create_relationships fuel h1 r) as [[h2 stmts']|];
    [|apply quiet_ret].
  apply quiet_bind; [apply quiet_execute_all|]. intros _.
  apply quiet_bind; [apply quiet_log|]. intros _. apply quiet_ret.
Qed.

(** What [connect] and [disconnect] leave in the trace. *)
Lemma quiet_try_except {A} (m : M A) (handler : exn → M A) :
  quiet m → (∀ e, quiet (handler e)) → quiet (try_except m handler).
Proof.
  intros Hm Hh env. unfold try_except. specialize (Hm env).
  destruct (m env) as [[a|e] env1]; simpl in *; [done|].
  by rewrite Hh.
Qed.

Lemma connect_connection w uri username password env :
  match connect w uri username password env with
  | (Ok g, env') =>
      is_Some (driver g) ∧ connection env' = connection env ++ [Opened]
  | (Raise _, env') =>
      connection env' = connection env ∨
      connection env' = connection env ++ [Opened]
  end.
Proof.
  assert (∀ e env1,
            match connect_failed w e env1 with
            | (Ok g, env') => False
            | (Raise _, env') => connection env' = connection env1
            end) as Hhandler.
  { intros e env1. unfold connect_failed, mbind, M_bind.
    pose proof (quiet_log "ERROR" ("Failed to connect to Neo4j: "
                                   +:+ exception_text w e) env1) as Hq.
    unfold logger_error.
    by destruct (log "ERROR" _ env1) as [[[]|x] env2]. }
  unfold connect, try_except.
  destruct (open_driver w uri username password) as [srv|].
  - unfold mbind at 1, M_bind at 1, emit at 1.
    set (env0 := mkEnv (log_level env) (console env) (calls env)
                       (trace env ++ [Opened])).
    assert (connection env0 = connection env ++ [Opened]) as Hc0.
    { unfold connection, env0. simpl. by rewrite List.filter_app. }
    unfold mbind at 1, M_bind at 1.
    pose proof (quiet_log "INFO" ("Connected to Neo4j at " +:+ uri) env0)
      as Hq. unfold logger_info.
    destruct (log "INFO" _ env0) as [[[]|x] env1]; simpl in Hq.
    + unfold mret, M_ret. split; [by eexists|]. by rewrite Hq.
    + specialize (Hhandler x env1).
      destruct (connect_failed w x env1) as [[g|y] env2]; [done|].
      right. by rewrite Hhandler, Hq.
  - unfold raise at 1. specialize (Hhandler Neo4jError env).
    destruct (connect_failed w Neo4jError env) as [[g|y] env2];
      [done|]. by left.
Qed.

Lemma disconnect_connection g env :
  is_Some (driver g) →
  ∃ env', disconnect g env = (Ok (), env') ∧
          connection env' = connection env ++ [Closed].
Proof.
  intros [srv Hd]. unfold disconnect. rewrite Hd.
  unfold mbind, M_bind, emit. simpl.
  match goal with |- context [logger_info ?m ?e] =>
    destruct (log_spec "INFO" m e eq_refl) as (tr & Hl & Htr) end.
  unfold logger_info. rewrite Hl. eexists. split; [reflexivity|].
  unfold connection. simpl. rewrite !List.filter_app. simpl.
  replace (List.filter is_connection_event tr) with (@nil Event);
    [by rewrite app_nil_r|].
  clear Hl. induction Htr as [|ev tr [line ->] _ IH]; [done|]. by simpl.
Qed.

Lemma elem_of_connection ev env :
  is_connection_event ev = true → ev ∈ trace env ↔ ev ∈ connection env.
Proof.
  intros Hev. unfold connection. rewrite !list_elem_of_In, List.filter_In.
  tauto.
Qed.

Lemma except_exit_connection w what e env :
  connection (except_exit w what e env).2 = connection env.
Proof.
  unfold except_exit, logger_error.
  pose proof (quiet_log "ERROR" (what +:+ ": " +:+ exception_text w e) env)
    as Hq.
  by destruct (log "ERROR" _ env) as [[[]|x] env1].
Qed.

Lemma except_exit_ends w what e env :
  handler_ends w what e env (except_exit w what e env).1
               (except_exit w what e env).2.
Proof.
  unfold handler_ends, except_exit, error_line, logger_error, log,
    console_print.
  rewrite should_log_error.
  change ("ERROR" +:+ ": " +:+ what +:+ ": " +:+ exception_text w e)
    with ("ERROR: " +:+ what +:+ ": " +:+ exception_text w e).
  by destruct (has_tag _ && console env _).
Qed.

Lemma except_exit_returned w what e env :
  (except_exit w what e env).1 ≠ Returned.
Proof.
  unfold except_exit. by destruct (logger_error _ env) as [[[]|x] env1].
Qed.

(** The three ways [create-graph] can end: before a connection was
    opened, with the connection left open, or with the connection closed;
    it returns in the last case only. *)
Lemma create_graph_connection w fuel file uri username password env out env' :
  create_graph w fuel file uri username password env = Some (out, env') →
  (out ≠ Returned ∧ connection env' = connection env) ∨
  (out ≠ Returned ∧ connection env' = connection env ++ [Opened]) ∨
  (out = Returned ∧ connection env' = connection env ++ [Opened; Closed]).
Proof.
  assert (∀ e env1 (c : list Event), connection env1 = c →
            Some (except_exit w "Error creating graph" e env1)
              = Some (out, env') →
            out ≠ Returned ∧ connection env' = c) as Hexit.
  { intros e env1 c Hc [= Hx].
    pose proof (except_exit_returned w "Error creating graph" e env1).
    pose proof (except_exit_connection w "Error creating graph" e env1).
    rewrite Hx in *. simpl in *. split; [done|congruence]. }
  unfold create_graph, create_graph_body.
  destruct (get_neo4j_credentials _ _ _ _) as [[u n] p].
  unfold mbind at 1, M_bind at 1.
  destruct (files w !! file) as [text|]; simpl.
  2:{ intros Hx. left. by eapply Hexit. }
  destruct (parse (block_parser w) text [] MarkdownParser_init)
    as [[[ast h] md]|]; simpl.
  2:{ intros Hx. left. by eapply Hexit. }
  unfold mbind at 1, M_bind at 1.
  pose proof (connect_connection w u n p env) as Hc.
  destruct (connect w u n p env) as [[g|x] env1].
  2:{ intros Hx. destruct Hc as [Hc|Hc]; [left|right; left];
        by eapply Hexit. }
  destruct Hc as [Hd Hc1].
  unfold mbind at 1, M_bind at 1.
  pose proof (quiet_create_graph fuel g h ast env1) as Hq.
  destruct (Neo4jGraph_create_graph fuel g h ast env1) as [[[h2|]|x] env2];
    simpl in Hq.
  - destruct (disconnect_connection g env2 Hd) as (env3 & Hdis & Hc3).
    unfold mbind, M_bind. rewrite Hdis. simpl. intros [= <- <-].
    right; right. split; [done|].
    by rewrite Hc3, Hq, Hc1, <- app_assoc.
  - done.
  - intros Hx. right; left. eapply Hexit; [|exact Hx]. by rewrite Hq.
Qed.

Lemma traverse_graph_connection w uri username password env out env' :
  traverse_graph w uri username password env = (out, env') →
  (out ≠ Returned ∧ connection env' = connection env) ∨
  (out ≠ Returned ∧ connection env' = connection env ++ [Opened]) ∨
  (out = Returned ∧ connection env' = connection env ++ [Opened; Closed]).
Proof.
  assert (∀ e env1 (c : list Event), connection env1 = c →
            except_exit w "Error traversing graph" e env1 = (out, env') →
            out ≠ Returned ∧ connection env' = c) as Hexit.
  { intros e env1 c Hc Hx.
    pose proof (except_exit_returned w "Error traversing graph" e env1).
    pose proof (except_exit_connection w "Error traversing graph" e env1).
    rewrite Hx in *. simpl in *. split; [done|congruence]. }
  unfold traverse_graph, traverse_graph_body.
  destruct (get_neo4j_credentials _ _ _ _) as [[u n] p].
  unfold mbind at 1, M_bind at 1.
  pose proof (connect_connection w u n p env) as Hc.
  destruct (connect w u n p env) as [[g|x] env1].
  2:{ intros Hx. destruct Hc as [Hc|Hc]; [left|right; left];
        by eapply Hexit. }
  destruct Hc as [Hd Hc1].
  unfold mbind at 1, M_bind at 1.
  pose proof (quiet_traverse_and_print g (recursion_limit w) env1) as Hq.
  destruct (traverse_and_print g (recursion_limit w) env1) as [[md|x] env2];
    simpl in Hq.
  - unfold mbind at 1, M_bind at 1.
    pose proof (quiet_emit (Printed md) eq_refl env2) as Hp.
    destruct (emit (Printed md) env2) as [[[]|x] env3] eqn:He; [|done].
    simpl in Hp.
    destruct (disconnect_connection g env3 Hd) as (env4 & -> & Hc4).
    intros [= <- <-]. right; right. split; [done|].
    by rewrite Hc4, Hp, Hq, Hc1, <- app_assoc.
  - intros Hx. right; left. eapply Hexit; [|exact Hx]. by rewrite Hq.
Qed.

Lemma closed_when_returned env env' out :
  trace env = [] →
  (out ≠ Returned ∧ connection env' = connection env) ∨
  (out ≠ Returned ∧ connection env' = connection env ++ [Opened]) ∨
  (out = Returned ∧ connection env' = connection env ++ [Opened; Closed]) →
  Opened ∈ trace env' → (Closed ∈ trace env' ↔ out = Returned).
Proof.
  intros Hnil Hcases. rewrite !elem_of_connection by done.
  assert (connection env = []) as Hc0 by (unfold connection; by rewrite Hnil).
  rewrite Hc0 in Hcases. simpl in Hcases.
  destruct Hcases as [[Hout ->]|[[Hout ->]|[-> ->]]]; intros Ho.
  - by apply elem_of_nil in Ho.
  - split; [|done]. intros Hc. apply elem_of_cons in Hc as [?|Hc]; [done|].
    by apply elem_of_nil in Hc.
  - split; [done|]. intros _. apply elem_of_cons. right.
    apply elem_of_cons. by left.
Qed.

(** A command that does not return has raised in its [try] block and
    ends in its handler. *)
Lemma create_graph_handler w fuel file uri username password env out env' :
  create_graph w fuel file uri username password env = Some (out, env') →
  out ≠ Returned →
  ∃ e env1,
    create_graph_body w fuel file uri username password env
      = (Raise e, env1) ∧
    connection env' = connection env1 ∧
    handler_ends w "Error creating graph" e env1 out env'.
Proof.
  unfold create_graph.
  destruct (create_graph_body w fuel file uri username password env)
    as [[[[]|]|e] env1]; [by intros [= <- <-]|done|].
  intros [= Hx] _. exists e, env1. split; [done|].
  pose proof (except_exit_connection w "Error creating graph" e env1).
  pose proof (except_exit_ends w "Error creating graph" e env1).
  rewrite Hx in *. by simpl in *.
Qed.

Lemma traverse_graph_handler w uri username password env out env' :
  traverse_graph w uri username password env = (out, env') →
  out ≠ Returned →
  ∃ e env1,
    traverse_graph_body w uri username password env = (Raise e, env1) ∧
    connection env' = connection env1 ∧
    handler_ends w "Error traversing graph" e env1 out env'.
Proof.
  unfold traverse_graph.
  destruct (traverse_graph_body w uri username password env)
    as [[[]|e] env1]; [by intros [= <- <-]|].
  intros Hx _. exists e, env1. split; [done|].
  pose proof (except_exit_connection w "Error traversing graph" e env1).
  pose proof (except_exit_ends w "Error traversing graph" e env1).
  rewrite Hx in *. by simpl in *.
Qed.

Lemma not_closed env env1 env' :
  trace env = [] → connection env' = connection env1 →
  Opened ∈ trace env' →
  (connection env' = connection env ∨
   connection env' = connection env ++ [Opened]) →
  Opened ∈ trace env1 ∧ Closed ∉ trace env1.
Proof.
  intros Hnil Heq Ho Hc. rewrite !elem_of_connection in * by done.
  assert (connection env = []) as Hc0 by (unfold connection; by rewrite Hnil).
  rewrite Hc0 in Hc. rewrite <- Heq.
  destruct Hc as [Hc|Hc]; rewrite Hc in *; simpl in *.
  - by apply elem_of_nil in Ho.
  - split; [done|]. intros H. apply elem_of_cons in H as [?|H]; [done|].
    by apply elem_of_nil in H.
Qed.

(** C7, amended.  In a run of [create-graph] or [traverse-graph] that
    opened a store connection, the connection is closed by the end of the
    command exactly when the command returns.  When it does not return, a
    step of its [try] block raised after the connection was opened and
    before [disconnect] was called, and the command ends in its handler,
    which never calls [disconnect]: the handler passes the error to the
    logger and, once the line is logged, exits with status 1 (when the
    console rejects the line, its exception leaves the command). *)
Theorem C7_closed_iff_returned (w : World) (fuel : nat) (file : string)
  (uri username password : option string) (lvl : string)
  (con : string → bool) :
  (∀ out env',
     create_graph w fuel file uri username password (mkEnv lvl con 0 [])
       = Some (out, env') →
     Opened ∈ trace env' →
     (Closed ∈ trace env' ↔ out = Returned) ∧
     (out ≠ Returned →
      ∃ e env1,
        create_graph_body w fuel file uri username password
          (mkEnv lvl con 0 []) = (Raise e, env1) ∧
        Opened ∈ trace env1 ∧ (Closed ∉ trace env1) ∧
        handler_ends w "Error creating graph" e env1 out env')) ∧
  (∀ out env',
     traverse_graph w uri username password (mkEnv lvl con 0 [])
       = (out, env') →
     Opened ∈ trace env' →
     (Closed ∈ trace env' ↔ out = Returned) ∧
     (out ≠ Returned →
      ∃ e env1,
        traverse_graph_body w uri username password (mkEnv lvl con 0 [])
          = (Raise e, env1) ∧
        Opened ∈ trace env1 ∧ (Closed ∉ trace env1) ∧
        handler_ends w "Error traversing graph" e env1 out env')).
Proof.
  split; intros out env' Hrun Ho.
  - pose proof (create_graph_connection _ _ _ _ _ _ _ _ _ Hrun) as Hcases.
    split; [apply (closed_when_returned (mkEnv lvl con 0 [])); done|].
    intros Hout.
    destruct (create_graph_handler _ _ _ _ _ _ _ _ _ Hrun Hout)
      as (e & env1 & Hbody & Hconn & Hend).
    exists e, env1. split; [done|].
    destruct (not_closed (mkEnv lvl con 0 []) env1 env') as [? ?];
      [done|done|done| |done].
    destruct Hcases as [[_ ?]|[[_ ?]|[? _]]]; [by left|by right|done].
  - pose proof (traverse_graph_connection _ _ _ _ _ _ _ Hrun) as Hcases.
    split; [apply (closed_when_returned (mkEnv lvl con 0 [])); done|].
    intros Hout.
    destruct (traverse_graph_handler _ _ _ _ _ _ _ Hrun Hout)
      as (e & env1 & Hbody & Hconn & Hend).
    exists e, env1. split; [done|].
    destruct (not_closed (mkEnv lvl con 0 []) env1 env') as [? ?];
      [done|done|done| |done].
    destruct Hcases as [[_ ?]|[[_ ?]|[? _]]]; [by left|by right|done].
Qed.

(** The claim as stated fails: against a server that accepts the
    connection and fails the first statement, both commands open the
    connection and exit with status 1 without closing it. *)
Lemma C7_counterexample :
  (∃ env', create_graph failing_world 10 "doc.md" None None None initial_env
           = Some (Exited 1, env') ∧
           Opened ∈ trace env' ∧ Closed ∉ trace env') ∧
  (∃ env', traverse_graph failing_world None None None initial_env
           = (Exited 1, env') ∧
           Opened ∈ trace env' ∧ Closed ∉ trace env').
Proof.
  split; eexists; (split; [vm_compute; reflexivity|]); split.
  - apply elem_of_cons. by left.
  - intros H. repeat (apply elem_of_cons in H as [H|H]; [discriminate|]).
    by apply elem_of_nil in H.
  - apply elem_of_cons. by left.
  - intros H. repeat (apply elem_of_cons in H as [H|H]; [discriminate|]).
    by apply elem_of_nil in H.
Qed.

(** ** Commands: [create-graph] ends *)

Lemma tree_at_addr fuel h a : tree_addr (tree_at fuel h a) = a.
Proof. by destruct fuel. Qed.

(** A heap whose children are younger than their parents holds a tree
    below each of its nodes. *)
Lemma forward_represents h :
  forward h → ∀ fuel a, (a < length h)%nat → (length h - a ≤ fuel)%nat →
  represents h (tree_at fuel h a) = true.
Proof.
  intros Hf. induction fuel as [|f IH]; intros a Ha Hfuel; [lia|].
  cbn [tree_at]. destruct (lookup_lt_is_Some_2 h a Ha) as [n Hn].
  rewrite Hn. apply represents_unfold. split.
  - rewrite Hn. simpl. f_equal. rewrite <- list_fmap_compose.
    rewrite <- (list_fmap_id (children n)) at 1.
    apply list_fmap_ext. intros i c _. simpl. by rewrite tree_at_addr.
  - apply Forall_fmap. eapply Forall_impl; [exact (Hf _ _ Hn)|].
    simpl. intros c Hc. apply IH; lia.
Qed.

Lemma _create_relationships_total h t fuel :
  represents h t = true → (frame_cost (subtrees t) ≤ fuel)%nat →
  is_Some (_create_relationships fuel h (tree_addr t)).
Proof.
  intros Hrep Hfuel. unfold _create_relationships.
  rewrite walk_tree; [by eexists| |done..].
  intros p c n st. apply same_shape_refl.
Qed.

(** When both traversals end, [Neo4jGraph.create_graph] returns or
    raises. *)
Lemma create_graph_returns fuel g h r env :
  is_Some (_create_nodes fuel h r) →
  (∀ h1 stmts, _create_nodes fuel h r = Some (h1, stmts) →
               is_Some (_create_relationships fuel h1 r)) →
  (Neo4jGraph_create_graph fuel g h r env).1 ≠ Ok None.
Proof.
  intros [[h1 stmts] Hn] Hr. destruct (Hr _ _ Hn) as [[h2 stmts'] Hrel].
  unfold Neo4jGraph_create_graph. rewrite Hn, Hrel.
  unfold mbind, M_bind.
  destruct (logger_info _ env) as [[[]|x] e1]; [|done].
  destruct (_execute_query g ClearGraph ∅ e1) as [[rows|x] e2]; [|done].
  destruct (execute_all g stmts e2) as [[[]|x] e3]; [|done].
  destruct (execute_all g stmts' e3) as [[[]|x] e4]; [|done].
  by destruct (logger_info _ e4) as [[[]|x] e5].
Qed.

(** With fuel for the traversals of the writer, [create-graph] ends: it
    returns, exits, or an exception leaves it. *)
Lemma create_graph_ends w file uri username password env :
  ∃ N, ∀ fuel, (N ≤ fuel)%nat →
    is_Some (create_graph w fuel file uri username password env).
Proof.
  unfold create_graph, create_graph_body.
  destruct (get_neo4j_credentials _ _ _ _) as [[u n] p].
  unfold mbind at 1, M_bind at 1.
  destruct (files w !! file) as [text|]; simpl;
    [|exists 0%nat; by eexists].
  destruct (parse (block_parser w) text [] MarkdownParser_init)
    as [[[ast h] md]|] eqn:Hparse; simpl; [|exists 0%nat; by eexists].
  destruct (parse_forward _ _ _ _ _ _ Hparse) as (-> & Hlen & Hf).
  set (t := tree_at (length h) h 0).
  assert (represents h t = true) as Hrep
    by (apply forward_represents; [done|lia..]).
  exists (frame_cost (subtrees t)). intros fuel Hfuel.
  unfold mbind at 1, M_bind at 1.
  destruct (connect w u n p env) as [[g|x] env1]; [|by eexists].
  unfold mbind at 1, M_bind at 1.
  pose proof (create_graph_returns fuel g h 0 env1) as Hret.
  destruct (Neo4jGraph_create_graph fuel g h 0 env1) as [[[h2|]|x] env2].
  - unfold mbind, M_bind.
    destruct (disconnect g env2) as [[[]|x] env3]; by eexists.
  - exfalso. apply Hret; [| |done].
    + destruct (_create_nodes_eq h t fuel Hrep Hfuel) as (rn & _ & Hcn).
      unfold t in Hcn at 1. rewrite tree_at_addr in Hcn. by eexists.
    + intros h1 stmts Hcn.
      destruct (_create_nodes_eq h t fuel Hrep Hfuel) as (rn & _ & Hcn').
      unfold t in Hcn' at 1. rewrite tree_at_addr in Hcn'.
      rewrite Hcn in Hcn'. inversion Hcn'; subst h1.
      replace 0%nat with (tree_addr t) by apply tree_at_addr.
      apply _create_relationships_total; [|done].
      rewrite (represents_same_shape h); [done|].
      apply same_but_ids_shape, assign_ids_same.
  - by eexists.
Qed.

(* ===================================================================== *)
(** * Part III: further properties of the code *)
(* ===================================================================== *)

(** ** Tree builder: when parsing raises *)

(** What every element keeps, the whole document keeps. *)
Lemma _process_element_preserves (I : Heap * MarkdownTreeProcessor → Prop) :
  (∀ e st st', I st → process_tag e st = Some st' → I st') →
  ∀ e st st', I st → _process_element e st = Some st' → I st'.
Proof.
  intros Hstep. induction e as [t x tl ks IH] using Element_ind'.
  intros st st' Hst. rewrite _process_element_unfold.
  destruct (process_tag _ st) as [st1|] eqn:H1; simpl; [|done].
  apply Hstep in H1; [|done]. clear Hst. revert st1 H1.
  induction ks as [|k ks IHks]; intros st1 H1; simpl.
  - by intros [= <-].
  - inversion IH as [|? ? IHk IHrest]; subst.
    destruct (_process_element k st1) as [st2|] eqn:H2; simpl; [|done].
    apply IHks; [done|]. by eapply IHk.
Qed.

Lemma _process_element_raises r e :
  ∀ st, builder_inv r st → valid_tags e = false →
  _process_element e st = None.
Proof.
  induction e as [t x tl ks IH] using Element_ind'. intros st Hinv Hv.
  rewrite _process_element_unfold. simpl in Hv.
  destruct (process_tag (Elem t x tl ks) st) as [st1|] eqn:H1; [|done].
  simpl. apply andb_false_iff in Hv as [Hv|Hv].
  - exfalso. destruct st as [h p]. unfold process_tag in H1. simpl in H1.
    destruct (heading_tag t) as [c|]; [|done].
    apply bool_decide_eq_false in Hv.
    destruct (int_of_char c); [|done]. apply Hv. by eexists.
  - apply (process_tag_inv r) in H1 as [Hinv1 _]; [|done].
    clear Hinv. revert st1 Hinv1.
    induction ks as [|k ks IHks]; intros st1 Hinv1; [done|].
    inversion IH as [|? ? IHk IHrest]; subst. simpl in *.
    destruct (valid_tags k) eqn:Hk.
    + destruct (_process_element_inv r k st1 Hk Hinv1)
        as (st2 & -> & Hinv2 & _).
      simpl. by apply IHks.
    + by rewrite (IHk st1 Hinv1).
Qed.

Lemma parse_raises (block_parser : list string → string → option Element)
  (text : string) (h : Heap) (md : Markdown) :
  (∃ e, block_parser (converted md) text = Some e ∧ valid_tags e = false) →
  parse block_parser text h md = None.
Proof.
  intros (e & He & Hv). unfold parse, convert.
  cbn [new_processor ast_extractor converted]. rewrite He.
  pose proof (new_processor_inv h) as Hinv. unfold new_processor in Hinv.
  by rewrite (_process_element_raises _ e _ Hinv Hv).
Qed.

(** X1.  [parse] raises (the [ValueError] of [int]) exactly when the
    element tree the library builds from the text holds a two-character
    tag [hX] whose [X] is not a decimal digit, a horizontal rule [hr] for
    one; on every other text it returns. *)
Theorem parse_raises_iff
  (block_parser : list string → string → option Element)
  (text : string) (h : Heap) (md : Markdown) :
  parse block_parser text h md = None ↔
  ∃ e, block_parser (converted md) text = Some e ∧ valid_tags e = false.
Proof.
  unfold parse, convert. cbn [new_processor ast_extractor converted].
  pose proof (new_processor_inv h) as Hinv. unfold new_processor in Hinv.
  destruct (block_parser (converted md) text) as [e|]; simpl.
  - destruct (valid_tags e) eqn:Hv.
    + destruct (_process_element_inv _ e _ Hv Hinv) as ([h' p'] & -> & _).
      simpl. split; [done|]. intros (e' & [= <-] & Hv'). congruence.
    + rewrite (_process_element_raises _ e _ Hinv Hv). simpl.
      split; [|done]. intros _. by exists e.
  - split; [done|]. by intros (e & ? & _).
Qed.

(** A horizontal rule makes the parser raise. *)
Example ruled_document_raises :
  _process_element ruled_document (new_processor []) = None.
Proof. reflexivity. Qed.

(** X2.  When the file cannot be read, or its text makes the parser
    raise, [create-graph] ends in its handler before it opens a
    connection or runs a statement: the handler passes the line "ERROR:
    Error creating graph: " with the text of the exception to the
    console; the command exits with status 1 and the line is the only
    event of the run, unless the console rejects the line, in which case
    its [MarkupError] leaves the command and the run has no event. *)
Theorem create_graph_input_error (w : World) (fuel : nat) (file : string)
  (uri username password : option string) (env : Env) (e : exn) :
  (files w !! file = None ∧ e = FileNotFoundError file) ∨
  (∃ text el, files w !! file = Some text ∧
              block_parser w [] text = Some el ∧ valid_tags el = false ∧
              e = ValueError) →
  ∃ out env',
    create_graph w fuel file uri username password env = Some (out, env') ∧
    handler_ends w "Error creating graph" e env out env'.
Proof.
  intros Hin.
  assert (create_graph_body w fuel file uri username password env
          = (Raise e, env)) as Hbody.
  { unfold create_graph_body.
    destruct (get_neo4j_credentials _ _ _ _) as [[u n] p].
    unfold mbind at 1, M_bind at 1.
    destruct Hin as [[-> ->]|(text & el & -> & Hbp & Hv & ->)]; [done|].
    cbn [mret M_ret].
    assert (parse (block_parser w) text [] MarkdownParser_init = None) as ->;
      [|done].
    apply parse_raises. by exists el. }
  unfold create_graph. rewrite Hbody.
  pose proof (except_exit_ends w "Error creating graph" e env) as Hends.
  destruct (except_exit w "Error creating graph" e env) as [out env'].
  by exists out, env'.
Qed.

Lemma create_graph_input_error_witness :
  ∃ out env',
    create_graph ruled_world 0 "doc.md" None None None initial_env
      = Some (out, env') ∧
    handler_ends ruled_world "Error creating graph" ValueError initial_env
                 out env'.
Proof.
  apply (create_graph_input_error ruled_world 0 "doc.md" None None None
           initial_env ValueError).
  right. exists "one", ruled_document. repeat split; reflexivity.
Defined.

(** The two ends of the handler: a missing file is reported in one line
    and ends the process with status 1; a missing file whose name holds a
    closing tag makes the console raise, and the command ends with that
    exception. *)
Example missing_file_reported :
  create_graph ruled_world 0 "notes.md" None None None initial_env
  = Some (Exited 1,
          mkEnv "ERROR" closes_first 0
            [Logged ("ERROR: Error creating graph: [Errno 2] No such file "
                     +:+ "or directory: 'notes.md'")]).
Proof. vm_compute. reflexivity. Qed.

Example missing_file_with_tag :
  create_graph ruled_world 0 "a[/b].md" None None None initial_env
  = Some (Uncaught
            (MarkupError ("ERROR: Error creating graph: [Errno 2] No such "
                          +:+ "file or directory: 'a[/b].md'")),
          initial_env).
Proof. vm_compute. reflexivity. Qed.

(** ** Tree builder: paragraphs, node shapes, parent links *)

Lemma last_heading_extends h h' r a :
  extends h h' → (a ≤ length h)%nat →
  last_heading h' r a = last_heading h r a.
Proof.
  intros [_ E]. induction a as [|b IH]; intros Ha; simpl; [done|].
  case_bool_decide; [done|].
  destruct (lookup_lt_is_Some_2 h b) as [n Hn]; [lia|].
  destruct (E _ _ Hn) as (n' & -> & Hty & _). rewrite Hn.
  unfold is_heading. rewrite Hty, IH by lia. done.
Qed.

Lemma last_heading_spec h r a :
  (r < a)%nat → latest_heading h r a (last_heading h r a).
Proof.
  induction a as [|b IH]; intros Ha; [lia|]. simpl.
  case_bool_decide as Hb.
  { split; [by left|]. intros c n Hc. lia. }
  destruct IH as [IH1 IH2]; [lia|].
  assert (latest_heading h r (S b) (last_heading h r b) ∨
          ∃ n, h !! b = Some n ∧ is_heading n = true) as Hstep.
  { destruct (h !! b) as [n|] eqn:Hn; [destruct (is_heading n) eqn:Hh|].
    - right. by exists n.
    - left. split.
      { destruct IH1 as [?|[? ?]]; [by left|right]. split; [lia|done]. }
      intros c n' Hc Hn'.
      destruct (decide (c = b)) as [->|Hne]; [congruence|].
      apply (IH2 c n'); [lia|done].
    - left. split.
      { destruct IH1 as [?|[? ?]]; [by left|right]. split; [lia|done]. }
      intros c n' Hc Hn'.
      destruct (decide (c = b)) as [->|Hne]; [congruence|].
      apply (IH2 c n'); [lia|done]. }
  destruct (h !! b) as [n|] eqn:Hn.
  - destruct (is_heading n) eqn:Hh.
    + split; [right; split; [lia|by exists n]|]. intros c n' Hc. lia.
    + destruct Hstep as [?|(n' & Hn' & Hh')]; [done|congruence].
  - destruct Hstep as [?|(n' & Hn' & _)]; [done|congruence].
Qed.

Lemma linked_extends h h' b q : extends h h' → linked h b q → linked h' b q.
Proof.
  intros [_ E] (n & qn & Hn & Hp & Hq & Hin).
  destruct (E _ _ Hn) as (n' & Hn' & _ & _ & _ & Hp' & _).
  destruct (E _ _ Hq) as (qn' & Hqn' & _ & _ & _ & _ & _ & [k Hk]).
  exists n', qn'. repeat split; [done|congruence|done|].
  rewrite Hk. apply elem_of_app. by left.
Qed.

Lemma attach_linked h q nd :
  (q < length h)%nat → linked (add_child (h ++ [nd]) q (length h)) (length h) q.
Proof.
  intros Hq. destruct (lookup_lt_is_Some_2 h q Hq) as [qn Hqn].
  exists (set_parent q nd), (append_child (length h) qn).
  split; [by apply attach_lookup_new|]. split; [done|].
  split; [by apply attach_lookup_parent|].
  simpl. apply elem_of_app. right. by apply list_elem_of_singleton.
Qed.

(** The step of the builder that allocates a node: where it attaches it,
    and what the processor is afterwards. *)
Lemma process_tag_cases r e h p h' p' :
  builder_inv r (h, p) → process_tag e (h, p) = Some (h', p') →
  (h' = h ∧ p' = p) ∨
  (∃ lv c, heading_tag (tag e) = Some c ∧ int_of_char c = Some lv ∧
     let q := nearest_smaller h r lv (length h) in
     (q < length h)%nat ∧
     h' = add_child (h ++ [new_node "heading" (strip (itertext e)) lv])
                    q (length h) ∧
     current_node p' = length h ∧ root p' = root p) ∨
  (strip (itertext e) ≠ "" ∧ (current_node p < length h)%nat ∧
   h' = add_child (h ++ [new_node "paragraph" (strip (itertext e)) 0])
                  (current_node p) (length h) ∧
   p' = p).
Proof.
  intros (Hr & Hrl & Hcur & Hlast & Hval & Hstack & Hatt).
  unfold process_tag. destruct (heading_tag (tag e)) as [c|] eqn:Htag.
  - destruct (int_of_char c) as [lv|] eqn:Hint; simpl; [|done].
    pose proof (Hstack lv) as Htop.
    destruct (pop_headings h lv (heading_stack p)) as [s'|] eqn:Hpop;
      simpl in *; [|done].
    destruct s' as [|q rest]; simpl in *; [done|].
    inversion Htop as [Hq]. intros [= <- <-].
    right; left. exists lv, c. split; [done|]. split; [done|].
    assert (q < length h)%nat as Hlt.
    { apply pop_headings_suffix in Hpop as [k Hk]. rewrite Hk in Hval.
      apply Forall_app in Hval as [_ Hval]. by inversion Hval. }
    rewrite <- Hq. by repeat split.
  - case_bool_decide; [|intros [= <- <-]; by left].
    destruct (strip (itertext e)) as [|ch s] eqn:Hs; simpl;
      [intros [= <- <-]; by left|].
    intros [= <- <-]. right; right. by repeat split.
Qed.

Lemma paragraph_inv_step r e st st' :
  builder_inv r st ∧ paragraph_inv r st → process_tag e st = Some st' →
  builder_inv r st' ∧ paragraph_inv r st'.
Proof.
  destruct st as [h p], st' as [h' p']. intros [Hinv [Hcur Hpar]] Hrun.
  split; [by eapply process_tag_inv|].
  pose proof Hinv as (_ & Hrl & Hc & _).
  destruct (process_tag_cases r e h p h' p' Hinv Hrun)
    as [[-> ->]|[(lv & c & _ & _ & Hq & -> & Hcn & _)|(_ & _ & -> & ->)]];
    [done| |].
  - pose proof (attach_extends h (nearest_smaller h r lv (length h))
                  (new_node "heading" (strip (itertext e)) lv)) as Hext.
    split.
    + rewrite Hcn, attach_length. simpl.
      rewrite bool_decide_false by lia.
      by rewrite attach_lookup_new.
    + intros b n Hb Hn Hty.
      pose proof (lookup_lt_Some _ _ _ Hn) as Hbl.
      rewrite attach_length in Hbl.
      destruct (decide (b = length h)) as [->|Hne].
      { rewrite attach_lookup_new in Hn by done. by inversion Hn; subst. }
      rewrite (last_heading_extends h) by (done || lia).
      destruct (lookup_lt_is_Some_2 h b) as [n0 Hn0]; [lia|].
      apply (linked_extends h); [done|]. apply (Hpar b n0); [done..|].
      destruct Hext as [_ E]. destruct (E _ _ Hn0) as (n' & Hn' & Hty' & _).
      congruence.
  - pose proof (attach_extends h (current_node p)
                  (new_node "paragraph" (strip (itertext e)) 0)) as Hext.
    split.
    + rewrite attach_length. simpl. rewrite bool_decide_false by lia.
      rewrite attach_lookup_new by done. simpl.
      by rewrite (last_heading_extends h) by (done || lia).
    + intros b n Hb Hn Hty.
      pose proof (lookup_lt_Some _ _ _ Hn) as Hbl.
      rewrite attach_length in Hbl.
      rewrite (last_heading_extends h) by (done || lia).
      destruct (decide (b = length h)) as [->|Hne].
      { rewrite <- Hcur. by apply attach_linked. }
      destruct (lookup_lt_is_Some_2 h b) as [n0 Hn0]; [lia|].
      apply (linked_extends h); [done|]. apply (Hpar b n0); [done..|].
      destruct Hext as [_ E]. destruct (E _ _ Hn0) as (n' & Hn' & Hty' & _).
      congruence.
Qed.

Lemma new_processor_paragraph_inv h0 :
  paragraph_inv (length h0) (new_processor h0).
Proof.
  unfold new_processor, paragraph_inv. cbn [current_node]. split.
  - rewrite length_app, Nat.add_1_r. simpl.
    by rewrite bool_decide_true by lia.
  - intros b n Hb Hn. apply lookup_lt_Some in Hn.
    rewrite length_app in Hn. simpl in Hn. lia.
Qed.

(** X3.  Every paragraph node is a child of the heading node that was
    created last before it, whatever that heading's level, or of the root
    when no heading precedes it; this holds for paragraphs nested in other
    elements too. *)
Theorem paragraph_under_latest_heading (h0 : Heap) (e : Element) :
  valid_tags e = true →
  ∃ h p, _process_element e (new_processor h0) = Some (h, p) ∧
    ∀ b n, (length h0 < b)%nat → h !! b = Some n →
      node_type n = "paragraph" →
      ∃ q, latest_heading h (length h0) b q ∧ linked h b q.
Proof.
  intros Hv.
  destruct (_process_element_inv (length h0) e _ Hv (new_processor_inv h0))
    as ([h p] & Hrun & _ & _).
  exists h, p. split; [done|].
  destruct (_process_element_preserves
              (λ st, builder_inv (length h0) st ∧ paragraph_inv (length h0) st)
              (paragraph_inv_step (length h0)) e _ _
              (conj (new_processor_inv h0) (new_processor_paragraph_inv h0))
              Hrun) as [_ [_ Hpar]].
  intros b n Hb Hn Hty. exists (last_heading h (length h0) b).
  split; [by apply last_heading_spec | by eapply Hpar].
Qed.

Lemma paragraph_under_latest_heading_witness :
  ∃ h p, _process_element scenario1_document (new_processor []) = Some (h, p) ∧
    ∀ b n, (0 < b)%nat → h !! b = Some n → node_type n = "paragraph" →
      ∃ q, latest_heading h 0 b q ∧ linked h b q.
Proof.
  apply (paragraph_under_latest_heading [] scenario1_document). reflexivity.
Defined.

Lemma last_heading_bound h r a :
  (r < a)%nat → (r ≤ last_heading h r a < a)%nat.
Proof.
  intros Ha. destruct (last_heading_spec h r a Ha) as [[->|[? _]] _]; lia.
Qed.

Lemma int_of_char_range c lv : int_of_char c = Some lv → 0 ≤ lv ≤ 9.
Proof.
  unfold int_of_char. destruct (_ && _)%bool eqn:Hc; [|done].
  intros [= <-]. apply andb_true_iff in Hc as [H1 H2].
  apply Nat.leb_le in H1, H2. lia.
Qed.

Lemma typing_attach r h p p' q nd :
  typing_inv r (h, p) → (r < length h)%nat → (q < length h)%nat →
  (q = r ∨ ∃ n, h !! q = Some n ∧ is_heading n = true) →
  built_node nd →
  typing_inv r (add_child (h ++ [nd]) q (length h), p').
Proof.
  intros [(rn & Hrn & Hrt & Hri) Hnodes] Hr Hq Htarget Hnd. split.
  - destruct (decide (r = q)) as [->|Hne].
    + exists (append_child (length h) rn).
      split; [by apply attach_lookup_parent|done].
    + exists rn. split; [|done]. by rewrite attach_lookup_other by lia.
  - intros b n Hb Hn.
    pose proof (lookup_lt_Some _ _ _ Hn) as Hbl. rewrite attach_length in Hbl.
    destruct (decide (b = length h)) as [->|Hne].
    { rewrite attach_lookup_new in Hn by done. by inversion Hn; subst. }
    destruct (decide (b = q)) as [->|Hnq].
    + destruct Htarget as [->|(n0 & Hn0 & Hh)]; [lia|].
      rewrite (attach_lookup_parent _ _ _ _ Hn0) in Hn. inversion Hn; subst n.
      destruct (Hnodes q n0 Hb Hn0) as [Hid [Hhd|(Hty & _)]].
      * split; [done|]. by left.
      * unfold is_heading in Hh. apply bool_decide_eq_true in Hh. congruence.
    + rewrite attach_lookup_other in Hn by lia. by eapply Hnodes.
Qed.

Lemma links_attach r h p p' q nd :
  links_inv r (h, p) → (r ≤ q < length h)%nat → children nd = [] →
  links_inv r (add_child (h ++ [nd]) q (length h), p').
Proof.
  intros (Hup & Hdown & Hnd) Hq Hkids.
  pose proof (attach_extends h q nd) as Hext. split; [|split].
  - intros b n Hb Hn.
    pose proof (lookup_lt_Some _ _ _ Hn) as Hbl. rewrite attach_length in Hbl.
    destruct (decide (b = length h)) as [->|Hne].
    { exists q. split; [lia|]. apply attach_linked. lia. }
    destruct (lookup_lt_is_Some_2 h b) as [n0 Hn0]; [lia|].
    destruct (Hup b n0 Hb Hn0) as (q' & Hq' & Hl).
    exists q'. split; [done|]. by apply (linked_extends h).
  - intros q' qn c Hq' Hqn Hc.
    pose proof (lookup_lt_Some _ _ _ Hqn) as Hql.
    rewrite attach_length in Hql.
    destruct (decide (q' = length h)) as [->|Hne].
    { rewrite attach_lookup_new in Hqn by lia. inversion Hqn; subst qn.
      simpl in Hc. rewrite Hkids in Hc. by apply elem_of_nil in Hc. }
    destruct (lookup_lt_is_Some_2 h q') as [qn0 Hqn0]; [lia|].
    assert (c ∈ children qn0 ∨ c = length h ∧ q' = q) as [Hc0|[-> ->]].
    { destruct (decide (q' = q)) as [->|Hnq].
      - rewrite (attach_lookup_parent _ _ _ _ Hqn0) in Hqn.
        inversion Hqn; subst qn. simpl in Hc.
        apply elem_of_app in Hc as [?|Hc]; [by left|right].
        apply list_elem_of_singleton in Hc. done.
      - rewrite attach_lookup_other in Hqn by lia. left. congruence. }
    + destruct (Hdown q' qn0 c Hq' Hqn0 Hc0) as (cn & Hcn & Hp).
      destruct Hext as [_ E].
      destruct (E _ _ Hcn) as (cn' & Hcn' & _ & _ & _ & Hp' & _).
      exists cn'. split; [done|congruence].
    + exists (set_parent q nd). split; [|done].
      apply attach_lookup_new. lia.
  - intros q' qn Hq' Hqn.
    pose proof (lookup_lt_Some _ _ _ Hqn) as Hql.
    rewrite attach_length in Hql |- *.
    destruct (decide (q' = length h)) as [->|Hne].
    { rewrite attach_lookup_new in Hqn by lia. inversion Hqn; subst qn.
      simpl. rewrite Hkids. split; constructor. }
    destruct (lookup_lt_is_Some_2 h q') as [qn0 Hqn0]; [lia|].
    destruct (Hnd q' qn0 Hq' Hqn0) as [Hno Hall].
    destruct (decide (q' = q)) as [->|Hnq].
    + rewrite (attach_lookup_parent _ _ _ _ Hqn0) in Hqn.
      inversion Hqn; subst qn. simpl. split.
      * apply NoDup_app. split; [done|]. split; [|apply NoDup_singleton].
        intros c Hc Hc'. apply list_elem_of_singleton in Hc'. subst c.
        rewrite Forall_forall in Hall. specialize (Hall _ Hc). lia.
      * apply Forall_app. split.
        -- eapply Forall_impl; [exact Hall|]. simpl. intros; lia.
        -- repeat constructor; lia.
    + rewrite attach_lookup_other in Hqn by lia.
      rewrite Hqn0 in Hqn. inversion Hqn; subst qn. split; [done|].
      eapply Forall_impl; [exact Hall|]. simpl. intros; lia.
Qed.

Lemma shape_inv_step r e st st' :
  builder_inv r st ∧ paragraph_inv r st ∧ typing_inv r st ∧ links_inv r st →
  process_tag e st = Some st' →
  builder_inv r st' ∧ paragraph_inv r st' ∧ typing_inv r st' ∧ links_inv r st'.
Proof.
  intros (Hinv & Hpar & Hty & Hli) Hrun.
  destruct (paragraph_inv_step r e st st' (conj Hinv Hpar) Hrun)
    as [Hinv' Hpar'].
  split; [done|]. split; [done|].
  destruct st as [h p], st' as [h' p'].
  pose proof Hinv as (_ & Hrl & _).
  destruct (process_tag_cases r e h p h' p' Hinv Hrun)
    as [[-> ->]|[(lv & c & _ & Hint & Hq & -> & _ & _)
                |(Htext & Hc & -> & ->)]];
    [done| |].
  - pose proof (nearest_smaller_spec h r lv (length h) Hrl) as [Hns _].
    pose proof (nearest_smaller_bound h r lv (length h) Hrl) as Hb.
    split.
    + apply (typing_attach r h p); [done..| |].
      * destruct Hns as [?|(_ & n & ? & ? & _)]; [by left|right; by exists n].
      * split; [done|]. left. split; [done|].
        by apply int_of_char_range in Hint.
    + apply (links_attach r h p); [done|lia|done].
  - destruct Hpar as [Hcur _].
    pose proof (last_heading_spec h r (length h) Hrl) as [Hlh _].
    pose proof (last_heading_bound h r (length h) Hrl) as Hb.
    rewrite <- Hcur in Hlh, Hb. split.
    + apply (typing_attach r h p); [done..| |].
      * destruct Hlh as [?|(_ & n & ? & ?)]; [by left|right; by exists n].
      * split; [done|]. right. by repeat split.
    + apply (links_attach r h p); [done|lia|done].
Qed.

Lemma new_processor_shape_inv h0 :
  typing_inv (length h0) (new_processor h0) ∧
  links_inv (length h0) (new_processor h0).
Proof.
  unfold new_processor, typing_inv, links_inv.
  assert (∀ b (n : MarkdownNode),
            (length h0 < b)%nat → (h0 ++ [new_node "root" "" 0]) !! b = Some n →
            False) as Hnone.
  { intros b n Hb Hn. apply lookup_lt_Some in Hn.
    rewrite length_app in Hn. simpl in Hn. lia. }
  assert (∀ q (qn : MarkdownNode),
            (length h0 ≤ q)%nat → (h0 ++ [new_node "root" "" 0]) !! q = Some qn →
            qn = new_node "root" "" 0) as Hroot.
  { intros q qn Hq Hqn. pose proof (lookup_lt_Some _ _ _ Hqn) as Hl.
    rewrite length_app in Hl. simpl in Hl.
    replace q with (length h0 + 0)%nat in Hqn by lia.
    rewrite lookup_app_r, Nat.add_comm, Nat.add_sub in Hqn by lia.
    by inversion Hqn. }
  split; [split|split; [|split]].
  - exists (new_node "root" "" 0). split; [|done].
    rewrite lookup_app_r by lia. by rewrite Nat.sub_diag.
  - intros b n Hb Hn. by destruct (Hnone b n).
  - intros b n Hb Hn. by destruct (Hnone b n).
  - intros q qn c Hq Hqn Hc. rewrite (Hroot q qn Hq Hqn) in Hc.
    by apply elem_of_nil in Hc.
  - intros q qn Hq Hqn. rewrite (Hroot _ _ Hq Hqn). split; constructor.
Qed.

Lemma built_shape (h0 : Heap) (e : Element) h p :
  _process_element e (new_processor h0) = Some (h, p) →
  builder_inv (length h0) (h, p) ∧ paragraph_inv (length h0) (h, p) ∧
  typing_inv (length h0) (h, p) ∧ links_inv (length h0) (h, p).
Proof.
  intros Hrun.
  apply (_process_element_preserves
           (λ st, builder_inv (length h0) st ∧ paragraph_inv (length h0) st ∧
                  typing_inv (length h0) st ∧ links_inv (length h0) st)
           (shape_inv_step (length h0)) e (new_processor h0) (h, p));
    [|done].
  destruct (new_processor_shape_inv h0).
  split; [apply new_processor_inv|].
  split; [apply new_processor_paragraph_inv|done].
Qed.

(** X4.  The nodes of a parsed tree: the root has type "root"; every other
    node is a heading with a level from 0 to 9, or a paragraph with level
    0, non-empty content and no children; no node has an id before the
    graph writer runs. *)
Theorem built_nodes (h0 : Heap) (e : Element) h p :
  _process_element e (new_processor h0) = Some (h, p) →
  (∃ rn, h !! length h0 = Some rn ∧ node_type rn = "root" ∧
         node_id rn = None) ∧
  ∀ b n, (length h0 < b)%nat → h !! b = Some n → built_node n.
Proof. intros Hrun. by destruct (built_shape h0 e h p Hrun) as (_ & _ & ? & _). Qed.

Lemma built_nodes_witness :
  ∃ h p, _process_element scenario1_document (new_processor []) = Some (h, p) ∧
    (∃ rn, h !! 0%nat = Some rn ∧ node_type rn = "root" ∧ node_id rn = None) ∧
    ∀ b n, (0 < b)%nat → h !! b = Some n → built_node n.
Proof.
  eexists _, _. split; [reflexivity|].
  eapply (built_nodes [] scenario1_document). reflexivity.
Defined.

(** X5.  Parent references and children lists of a parsed tree agree:
    every node but the root is linked below exactly one older node, every
    entry of a children list has that node as its parent, and no children
    list names a node twice or names a node that is not younger. *)
Theorem built_links (h0 : Heap) (e : Element) h p :
  _process_element e (new_processor h0) = Some (h, p) →
  (∀ b n, (length h0 < b)%nat → h !! b = Some n →
     ∃ q, (length h0 ≤ q < b)%nat ∧ linked h b q ∧
          ∀ q', (length h0 ≤ q')%nat → linked h b q' → q' = q) ∧
  (∀ q qn c, (length h0 ≤ q)%nat → h !! q = Some qn → c ∈ children qn →
     ∃ cn, h !! c = Some cn ∧ parent cn = Some q) ∧
  (∀ q qn, (length h0 ≤ q)%nat → h !! q = Some qn →
     NoDup (children qn) ∧
     Forall (λ c, (q < c < length h)%nat) (children qn)).
Proof.
  intros Hrun.
  destruct (built_shape h0 e h p Hrun) as (_ & _ & _ & Hup & Hdown & Hnd).
  split; [|done]. intros b n Hb Hn.
  destruct (Hup b n Hb Hn) as (q & Hq & Hl). exists q.
  split; [done|]. split; [done|].
  intros q' Hq' (n' & qn' & Hn' & Hp' & _).
  destruct Hl as (n'' & qn & Hn'' & Hp & _). congruence.
Qed.

Lemma built_links_witness :
  ∃ h p, _process_element scenario1_document (new_processor []) = Some (h, p) ∧
  (∀ b n, (0 < b)%nat → h !! b = Some n →
     ∃ q, (0 ≤ q < b)%nat ∧ linked h b q ∧
          ∀ q', (0 ≤ q')%nat → linked h b q' → q' = q) ∧
  (∀ q qn c, (0 ≤ q)%nat → h !! q = Some qn → c ∈ children qn →
     ∃ cn, h !! c = Some cn ∧ parent cn = Some q) ∧
  (∀ q qn, (0 ≤ q)%nat → h !! q = Some qn →
     NoDup (children qn) ∧
     Forall (λ c, (q < c < length h)%nat) (children qn)).
Proof.
  eexists _, _. split; [reflexivity|].
  eapply (built_links [] scenario1_document). reflexivity.
Defined.

(** ** Tree builder: the tree is built in pre-order *)

Lemma flat_map_snoc {X Y} (f : X → list Y) l x :
  flat_map f (l ++ [x]) = flat_map f l ++ f x.
Proof. rewrite flat_map_app. simpl. by rewrite app_nil_r. Qed.

Lemma preorder_close s fs : preorder (close s fs) = context_pre fs ++ preorder s.
Proof.
  revert s. induction fs as [|[a dn] fs IH]; intros s; simpl; [done|].
  rewrite IH. simpl. rewrite flat_map_snoc, <- app_assoc. done.
Qed.

Lemma forallb_snoc {X} (f : X → bool) l x :
  forallb f (l ++ [x]) = forallb f l && f x.
Proof. rewrite forallb_app. simpl. by rewrite andb_true_r. Qed.

Lemma represents_close h s fs :
  represents h (close s fs)
  = represents h s && context_rep h fs (tree_addr s).
Proof.
  revert s. induction fs as [|[a dn] fs IH]; intros s; simpl.
  - by rewrite andb_true_r.
  - rewrite IH. simpl. rewrite fmap_app, forallb_snoc. simpl.
    destruct (bool_decide _), (forallb _ dn), (represents h s),
      (context_rep h fs a); done.
Qed.

Lemma represents_agree h h' t :
  (∀ x, x ∈ preorder t → children <$> h' !! x = children <$> h !! x) →
  represents h' t = represents h t.
Proof.
  induction t as [a ts IH] using tree_ind'. intros Hag. simpl.
  rewrite Hag; [|simpl; apply elem_of_cons; by left]. f_equal.
  assert (∀ x, x ∈ flat_map preorder ts →
               children <$> h' !! x = children <$> h !! x) as Hts.
  { intros x Hx. apply Hag. simpl. apply elem_of_cons. by right. }
  clear Hag. induction IH as [|t ts Ht _ IHts]; simpl; [done|].
  rewrite Ht, IHts; [done| |].
  - intros x Hx. apply Hts. simpl. apply elem_of_app. by right.
  - intros x Hx. apply Hts. simpl. apply elem_of_app. by left.
Qed.

Lemma forallb_represents_agree h h' (ts : list tree) :
  (∀ x, x ∈ flat_map preorder ts →
        children <$> h' !! x = children <$> h !! x) →
  forallb (represents h') ts = forallb (represents h) ts.
Proof.
  induction ts as [|t ts IH]; intros Hag; simpl; [done|].
  rewrite (represents_agree h h' t), IH; [done| |].
  - intros x Hx. apply Hag. simpl. apply elem_of_app. by right.
  - intros x Hx. apply Hag. simpl. apply elem_of_app. by left.
Qed.

Lemma context_rep_agree h h' fs c :
  (∀ x, x ∈ context_pre fs → children <$> h' !! x = children <$> h !! x) →
  context_rep h' fs c = context_rep h fs c.
Proof.
  revert c. induction fs as [|[a dn] fs IH]; intros c Hag; simpl; [done|].
  simpl in Hag. rewrite Hag, (forallb_represents_agree h h' dn), IH.
  - done.
  - intros x Hx. apply Hag. apply elem_of_app. by left.
  - intros x Hx. apply Hag. apply elem_of_app. right.
    apply elem_of_cons. by right.
  - apply elem_of_app. right. apply elem_of_cons. by left.
Qed.

(** Popping the stack closes frames of the path; the tree stays. *)
Lemma pop_frames h lv (fs : list (addr * list tree)) :
  ∀ a dn s',
    pop_headings h lv (a :: fs.*1) = Some s' →
    ∃ fs', s' = fs'.*1 ∧ plug fs' = plug ((a, dn) :: fs) ∧ fs' ≠ [].
Proof.
  induction fs as [|[b db] fs IH]; intros a dn s' Hpop.
  - simpl in Hpop. inversion Hpop; subst. by exists [(a, dn)].
  - rewrite fmap_cons in Hpop. cbn [fst] in Hpop.
    rewrite pop_headings_cons in Hpop by done.
    destruct (h !! a) as [n|]; [|done]. case_bool_decide.
    + destruct (IH b (db ++ [Node a dn]) s' Hpop) as (fs' & -> & Hpl & Hne).
      by exists fs'.
    + inversion Hpop; subst. by exists ((a, dn) :: (b, db) :: fs).
Qed.

(** Attaching a new leaf below the node the path leads to. *)
Lemma attach_tree h r q dn rest nd :
  represents h (close (Node q dn) rest) = true →
  preorder (close (Node q dn) rest) = seq r (length h - r) →
  children nd = [] →
  (q < length h)%nat ∧
  represents (add_child (h ++ [nd]) q (length h))
             (close (Node q (dn ++ [Node (length h) []])) rest) = true ∧
  preorder (close (Node q (dn ++ [Node (length h) []])) rest)
  = seq r (length (add_child (h ++ [nd]) q (length h)) - r).
Proof.
  intros Hrep Hpre Hnd. rewrite preorder_close in Hpre. simpl in Hpre.
  assert (NoDup (context_pre rest ++ q :: flat_map preorder dn)) as Hno
    by (rewrite Hpre; apply NoDup_seq).
  assert (∀ x, x ∈ context_pre rest ++ q :: flat_map preorder dn →
               (r ≤ x < length h)%nat) as Hrange.
  { intros x Hx. rewrite Hpre in Hx. apply elem_of_seq in Hx. lia. }
  assert (r ≤ q < length h)%nat as Hq.
  { apply Hrange. apply elem_of_app. right. apply elem_of_cons. by left. }
  apply NoDup_app in Hno as (_ & Hdisj & Hno2).
  apply NoDup_cons in Hno2 as [Hqd _].
  split; [lia|]. split.
  - rewrite represents_close in Hrep |- *.
    apply andb_true_iff in Hrep as [Hs Hc].
    apply represents_unfold in Hs as [Hqn Hdone].
    apply andb_true_iff. split.
    + apply represents_unfold. split.
      * destruct (h !! q) as [qn|] eqn:Hl; [|done].
        rewrite (attach_lookup_parent _ _ _ _ Hl). simpl.
        inversion Hqn as [Hch]. by rewrite Hch, fmap_app.
      * apply Forall_app. split.
        -- rewrite Forall_forall in Hdone |- *. intros t Ht.
           rewrite <- (Hdone t Ht). apply represents_agree. intros x Hx.
           assert (x ∈ flat_map preorder dn) as Hxd.
           { apply list_elem_of_In, in_flat_map. exists t.
             split; by apply list_elem_of_In. }
           rewrite attach_lookup_other; [done| |by intros ->].
           apply Hrange. apply elem_of_app. right. apply elem_of_cons.
           by right.
        -- repeat constructor. simpl.
           rewrite attach_lookup_new by lia. simpl.
           rewrite Hnd. by rewrite bool_decide_true.
    + simpl in Hc |- *. rewrite <- Hc. apply context_rep_agree.
      intros x Hx. rewrite attach_lookup_other; [done| |].
      * apply Hrange. apply elem_of_app. by left.
      * intros ->. apply (Hdisj q Hx). apply elem_of_cons. by left.
  - rewrite preorder_close. simpl. rewrite flat_map_snoc. simpl.
    rewrite attach_length.
    replace (S (length h) - r)%nat with (S (length h - r)) by lia.
    rewrite seq_S, <- Hpre, <- app_assoc. simpl.
    by replace (r + (length h - r))%nat with (length h) by lia.
Qed.

Lemma spine_inv_step r e st st' :
  spine_inv r st → process_tag e st = Some st' → spine_inv r st'.
Proof.
  destruct st as [h p]. intros (fs & t & Hst & Hcur & Hpl & Hrep & Hpre).
  unfold process_tag. destruct (heading_tag (tag e)) as [c|].
  - destruct (int_of_char c) as [lv|]; simpl; [|done].
    destruct fs as [|[a0 d0] fs0]; [done|]. rewrite Hst. 
    destruct (pop_headings h lv ((a0, d0) :: fs0).*1) as [s'|] eqn:Hpop;
      simpl; [|done].
    destruct (pop_frames h lv fs0 a0 d0 s' Hpop) as (fs' & -> & Hpl' & Hne).
    destruct fs' as [|[q dn] rest]; [done|]. simpl.
    intros [= <-]. rewrite Hpl in Hpl'. simpl in Hpl'.
    inversion Hpl'; subst t.
    destruct (attach_tree h r q dn rest
                (new_node "heading" (strip (itertext e)) lv) Hrep Hpre eq_refl)
      as (Hq & Hrep' & Hpre').
    exists ((length h, []) :: (q, dn) :: rest), 
           (close (Node q (dn ++ [Node (length h) []])) rest).
    by repeat split.
  - case_bool_decide; [|intros [= <-]; by exists fs, t].
    destruct (truthy _); [|intros [= <-]; by exists fs, t].
    intros [= <-].
    destruct fs as [|[q dn] rest]; [done|]. simpl in Hpl.
    inversion Hpl; subst t. rewrite Hst in Hcur. simpl in Hcur.
    inversion Hcur as [Hq']. 
    destruct (attach_tree h r q dn rest
                (new_node "paragraph" (strip (itertext e)) 0) Hrep Hpre eq_refl)
      as (Hq & Hrep' & Hpre').
    exists ((q, dn ++ [Node (length h) []]) :: rest),
           (close (Node q (dn ++ [Node (length h) []])) rest).
    rewrite <- Hq'. rewrite Hst. simpl. by repeat split.
Qed.

Lemma new_processor_spine_inv h0 : spine_inv (length h0) (new_processor h0).
Proof.
  exists [(length h0, [])], (Node (length h0) []).
  unfold new_processor. cbn [heading_stack current_node].
  repeat split. 
  - simpl. rewrite lookup_app_r by lia. by rewrite Nat.sub_diag.
  - rewrite length_app. simpl.
    by replace (length h0 + 1 - length h0)%nat with 1%nat by lia.
Qed.

(** The heap a processor leaves holds a tree below the root whose
    pre-order is the order of creation. *)
Lemma built_tree (h0 : Heap) (e : Element) h p :
  _process_element e (new_processor h0) = Some (h, p) →
  ∃ t, represents h t = true ∧ tree_addr t = length h0 ∧
       preorder t = seq (length h0) (length h - length h0) ∧
       (length h0 < length h)%nat.
Proof.
  intros Hrun.
  destruct (_process_element_preserves (spine_inv (length h0))
              (spine_inv_step (length h0)) e _ _
              (new_processor_spine_inv h0) Hrun)
    as (fs & t & _ & _ & _ & Hrep & Hpre).
  exists t. split; [done|].
  destruct t as [a ts]. simpl in *.
  destruct (length h - length h0)%nat as [|n] eqn:Hn; [done|].
  simpl in Hpre. inversion Hpre; subst a. repeat split; [done|lia].
Qed.

(** X6.  The tree a parse builds is laid out in document order: below the
    root the heap holds a tree whose pre-order traversal (children in
    stored order) visits the nodes in the order in which the parser
    created them, each node once. *)
Theorem built_in_preorder (h0 : Heap) (e : Element) h p :
  _process_element e (new_processor h0) = Some (h, p) →
  ∃ t, represents h t = true ∧ tree_addr t = length h0 ∧
       preorder t = seq (length h0) (length h - length h0) ∧
       NoDup (preorder t).
Proof.
  intros Hrun. destruct (built_tree h0 e h p Hrun) as (t & Hrep & Ha & Hpre & _).
  exists t. repeat split; [done..|]. rewrite Hpre. apply NoDup_seq.
Qed.

Lemma built_in_preorder_witness :
  ∃ h p t,
    _process_element C1_document (new_processor []) = Some (h, p) ∧
    represents h t = true ∧ tree_addr t = 0%nat ∧
    preorder t = seq 0 (length h - 0) ∧ NoDup (preorder t).
Proof.
  destruct (built_in_preorder [] C1_document
              [mkNode "root" "" 0 None [1; 4]%nat None;
               mkNode "heading" "A" 2 (Some 0%nat) [2%nat] None;
               mkNode "heading" "B" 3 (Some 1%nat) [3%nat] None;
               mkNode "paragraph" "text" 0 (Some 2%nat) [] None;
               mkNode "heading" "C" 1 (Some 0%nat) [5%nat] None;
               mkNode "heading" "D" 2 (Some 4%nat) [] None]
              (mkProcessor 0 5 [5; 4; 0]%nat) eq_refl) as (t & Ht).
  eexists _, _, t. split; [reflexivity|exact Ht].
Defined.

(** ** Graph writer: the traversals end within two iterations per node *)

Lemma cost_sum_bound (ts : list tree) :
  Forall (λ t, (cost t + 1 ≤ 2 * length (preorder t))%nat) ts →
  (list_sum (List.map cost ts) + length ts
   ≤ 2 * length (flat_map preorder ts))%nat.
Proof.
  induction 1 as [|t ts Ht _ IH]; simpl; [lia|].
  rewrite length_app. lia.
Qed.

Lemma cost_bound t : (cost t + 1 ≤ 2 * length (preorder t))%nat.
Proof.
  induction t as [a ts IH] using tree_ind'.
  pose proof (cost_sum_bound ts IH) as Hsum.
  destruct ts as [|t ts]; simpl in *; lia.
Qed.

Lemma frame_cost_bound t :
  (frame_cost (subtrees t) ≤ 2 * length (preorder t))%nat.
Proof.
  destruct t as [a ts]. unfold frame_cost. simpl.
  pose proof (cost_sum_bound ts) as Hsum.
  assert (Forall (λ t, (cost t + 1 ≤ 2 * length (preorder t))%nat) ts) as Hall
    by (apply Forall_forall; intros; apply cost_bound).
  specialize (Hsum Hall). lia.
Qed.

(** X7.  On a heap that holds a tree of [n] nodes, each stack-based
    traversal of the graph writer ends within [2 * n] iterations of its
    loop. *)
Theorem writer_loops_are_linear (h : Heap) (t : tree) (fuel : nat) :
  represents h t = true → (2 * length (preorder t) ≤ fuel)%nat →
  is_Some (_assign_node_ids fuel h (tree_addr t)) ∧
  is_Some (_create_nodes fuel h (tree_addr t)) ∧
  is_Some (_create_relationships fuel h (tree_addr t)) ∧
  is_Some (_generate_node_queries fuel h (tree_addr t)).
Proof.
  intros Hrep Hfuel. pose proof (frame_cost_bound t) as Hb.
  assert (frame_cost (subtrees t) ≤ fuel)%nat as Hf by lia.
  repeat split.
  - rewrite _assign_node_ids_eq by done. by eexists.
  - destruct (_create_nodes_eq h t fuel Hrep Hf) as (rn & _ & ->). by eexists.
  - by apply _create_relationships_total.
  - rewrite _generate_node_queries_eq by done. by eexists.
Qed.

Lemma writer_loops_are_linear_witness :
  is_Some (_assign_node_ids 8 test_heap (tree_addr test_tree)) ∧
  is_Some (_create_nodes 8 test_heap (tree_addr test_tree)) ∧
  is_Some (_create_relationships 8 test_heap (tree_addr test_tree)) ∧
  is_Some (_generate_node_queries 8 test_heap (tree_addr test_tree)).
Proof.
  apply (writer_loops_are_linear test_heap test_tree 8);
    [reflexivity | vm_compute; lia].
Defined.

(** ** Parser and writer together *)

(** X8.  Parsing a document and numbering the tree: the traversal ends
    within two iterations per node, and the node the parser created as its
    [k]-th (the root being the 0-th) gets the id "node_k", so the ids
    follow the document order; the live-write path assigns the same
    ids. *)
Theorem parsed_ids_follow_document (h0 : Heap) (e : Element) h p :
  _process_element e (new_processor h0) = Some (h, p) →
  let n := (length h - length h0)%nat in
  ∃ h1, _assign_node_ids (2 * n) h (length h0) = Some h1 ∧
        fst <$> _create_nodes (2 * n) h (length h0) = Some h1 ∧
        ∀ k, (k < n)%nat →
          node_id <$> h1 !! (length h0 + k)%nat
          = Some (Some ("node_" +:+ pretty k)).
Proof.
  intros Hrun n.
  destruct (built_tree h0 e h p Hrun) as (t & Hrep & Ha & Hpre & Hlt).
  pose proof (frame_cost_bound t) as Hb.
  assert (frame_cost (subtrees t) ≤ 2 * n)%nat as Hf.
  { rewrite Hpre, length_seq in Hb. done. }
  exists (assign_ids (preorder t) 0 h). rewrite <- Ha. split; [|split].
  - by apply _assign_node_ids_eq.
  - destruct (_create_nodes_eq h t (2 * n) Hrep Hf) as (rn & _ & ->). done.
  - intros k Hk.
    assert (preorder t !! k = Some (tree_addr t + k)%nat) as Hlook.
    { rewrite Hpre, Ha. by apply lookup_seq_lt. }
    destruct (represents_lookup h t (tree_addr t + k)%nat Hrep) as [nd Hnd].
    { by eapply list_elem_of_lookup_2. }
    rewrite (assign_ids_lookup _ 0 h k _ nd); [done| |done..].
    rewrite Hpre. apply NoDup_seq.
Qed.

Lemma parsed_ids_follow_document_witness :
  ∃ h p, _process_element scenario1_document (new_processor []) = Some (h, p) ∧
    ∃ h1, _assign_node_ids (2 * (length h - 0)) h 0 = Some h1 ∧
          fst <$> _create_nodes (2 * (length h - 0)) h 0 = Some h1 ∧
          ∀ k, (k < length h - 0)%nat →
            node_id <$> h1 !! (0 + k)%nat = Some (Some ("node_" +:+ pretty k)).
Proof.
  eexists _, _. split; [reflexivity|].
  eapply (parsed_ids_follow_document [] scenario1_document). reflexivity.
Defined.

(** ** Graph writer: relationships and the script *)

Lemma visit_all_relationships (h : Heap) (l : list (addr * addr)) n acc :
  visit_all (λ parent child (_ : nat) (st : Heap * list Statement),
               (st.1, st.2 ++ relationship_statement st.1 parent child))
            l n (h, acc)
  = (h, acc ++ flat_map (λ pc, relationship_statement h pc.1 pc.2) l).
Proof.
  revert n acc. induction l as [|[p c] l IH]; intros n acc; simpl.
  - by rewrite app_nil_r.
  - rewrite IH. by rewrite <- app_assoc.
Qed.


Lemma _create_relationships_eq h t fuel :
  represents h t = true → (frame_cost (subtrees t) ≤ fuel)%nat →
  _create_relationships fuel h (tree_addr t)
  = Some (h, flat_map (λ pc, relationship_statement h pc.1 pc.2)
                      (tree_edges t)).
Proof.
  intros Hrep Hfuel. unfold _create_relationships.
  rewrite walk_tree; [|by intros; apply same_shape_refl|done..].
  by rewrite visit_all_relationships.
Qed.


(** The parent of an edge below [p] is [p] or a node of the subtree. *)
Lemma edges_parent p t q c :
  (q, c) ∈ edges p t → q = p ∨ q ∈ preorder t.
Proof.
  revert p. induction t as [a ts IH] using tree_ind'. intros p Hin.
  simpl in Hin. apply elem_of_cons in Hin as [[= -> ->]|Hin]; [by left|].
  right. simpl. apply list_elem_of_In, in_flat_map in Hin as (t & Ht & Hin).
  apply list_elem_of_In in Ht, Hin. rewrite Forall_forall in IH.
  destruct (IH t Ht a Hin) as [->|Hq].
  - apply elem_of_cons. by left.
  - apply elem_of_cons. right. apply list_elem_of_In, in_flat_map.
    exists t. split; by apply list_elem_of_In.
Qed.

Lemma tree_edges_children t : (tree_edges t).*2 = flat_map preorder (subtrees t).
Proof. apply flat_edges_preorder. Qed.

Lemma tree_edges_endpoints t q c :
  (q, c) ∈ tree_edges t → q ∈ preorder t ∧ c ∈ preorder t.
Proof.
  intros Hin. destruct t as [a ts]. unfold tree_edges in Hin. simpl in *.
  split.
  - apply list_elem_of_In, in_flat_map in Hin as (t & Ht & Hin).
    apply list_elem_of_In in Ht, Hin.
    destruct (edges_parent a t q c Hin) as [->|Hq].
    + apply elem_of_cons. by left.
    + apply elem_of_cons. right. apply list_elem_of_In, in_flat_map.
      exists t. split; by apply list_elem_of_In.
  - apply elem_of_cons. right. rewrite <- (flat_edges_preorder a).
    apply list_elem_of_fmap. by exists (q, c).
Qed.

(** One entry per edge whose two nodes are in the heap. *)
Lemma per_edge_lookup {X} (f : MarkdownNode → MarkdownNode → X)
  (g : addr * addr → list X) (h : Heap) (l : list (addr * addr)) :
  (∀ pc, g pc = match h !! pc.1, h !! pc.2 with
                | Some pn, Some cn => [f pn cn]
                | _, _ => []
                end) →
  Forall (λ pc, is_Some (h !! pc.1) ∧ is_Some (h !! pc.2)) l →
  length (flat_map g l) = length l ∧
  ∀ k p c pn cn, l !! k = Some (p, c) → h !! p = Some pn → h !! c = Some cn →
    flat_map g l !! k = Some (f pn cn).
Proof.
  intros Hg. induction 1 as [|[p c] l [[pn Hp] [cn Hc]] _ [IH1 IH2]];
    simpl; [done|].
  rewrite (Hg (p, c)). simpl in *. rewrite Hp, Hc. simpl.
  split; [by rewrite IH1|].
  intros [|k] p' c' pn' cn' Hk Hp' Hc'; simpl in *.
  - inversion Hk; subst. congruence.
  - by apply (IH2 k p' c').
Qed.

Lemma tree_edges_in_heap h t :
  represents h t = true →
  Forall (λ pc, is_Some (h !! pc.1) ∧ is_Some (h !! pc.2)) (tree_edges t).
Proof.
  intros Hrep. apply Forall_forall. intros [q c] Hin.
  destruct (tree_edges_endpoints t q c Hin).
  split; by eapply represents_lookup.
Qed.

Lemma tree_edges_length t : length (tree_edges t) = (length (preorder t) - 1)%nat.
Proof.
  rewrite <- (length_fmap snd), tree_edges_children.
  destruct t. simpl. lia.
Qed.

Lemma tree_edges_child t k p c :
  tree_edges t !! k = Some (p, c) → preorder t !! S k = Some c.
Proof.
  intros Hk. destruct t as [a ts]. simpl.
  rewrite <- (flat_edges_preorder a ts), list_lookup_fmap.
  unfold tree_edges in Hk. simpl in Hk. by rewrite Hk.
Qed.

(** X9.  After [_create_nodes] numbered a tree, [_create_relationships]
    leaves the heap as it is and lists one statement per parent-child pair
    of the tree, in traversal order: the [k]-th statement (from 0) joins
    the id of the parent (its pre-order position) to "node_(k+1)", the id
    of the child. *)
Theorem relationships_follow_tree (h : Heap) (t : tree) (fuel : nat) :
  represents h t = true → NoDup (preorder t) →
  (frame_cost (subtrees t) ≤ fuel)%nat →
  ∃ h1 ns rs,
    _create_nodes fuel h (tree_addr t) = Some (h1, ns) ∧
    _create_relationships fuel h1 (tree_addr t) = Some (h1, rs) ∧
    length rs = (length (preorder t) - 1)%nat ∧
    ∀ k p c i, tree_edges t !! k = Some (p, c) → preorder t !! i = Some p →
      rs !! k = Some (CreateRelationship,
                      <["parent_id" := VStr ("node_" +:+ pretty i)]>
                      (<["child_id" := VStr ("node_" +:+ pretty (S k))]> ∅)).
Proof.
  intros Hrep Hnd Hfuel.
  destruct (_create_nodes_eq h t fuel Hrep Hfuel) as (rn & _ & Hcn).
  set (h1 := assign_ids (preorder t) 0 h) in *.
  assert (represents h1 t = true) as Hrep1.
  { rewrite (represents_same_shape h); [done|].
    apply same_but_ids_shape, assign_ids_same. }
  eexists h1, _, _. split; [exact Hcn|].
  split; [by apply _create_relationships_eq|].
  destruct (per_edge_lookup
              (λ pn cn, (CreateRelationship, relationship_params pn cn))
              (λ pc, relationship_statement h1 pc.1 pc.2) h1 (tree_edges t))
    as [Hlen Hlook].
  { intros [q c]. done. }
  { by apply tree_edges_in_heap. }
  split; [by rewrite Hlen, tree_edges_length|].
  intros k p c i Hk Hi.
  pose proof (tree_edges_child t k p c Hk) as Hc.
  destruct (represents_lookup h t p Hrep) as [pn Hpn];
    [by eapply list_elem_of_lookup_2|].
  destruct (represents_lookup h t c Hrep) as [cn Hcn'];
    [by eapply list_elem_of_lookup_2|].
  rewrite (Hlook k p c (set_id (node_name (0 + i)) pn)
             (set_id (node_name (0 + S k)) cn) Hk).
  - done.
  - by apply assign_ids_lookup.
  - by apply assign_ids_lookup.
Qed.

Lemma relationships_follow_tree_witness :
  ∃ h1 ns rs,
    _create_nodes 5 test_heap (tree_addr test_tree) = Some (h1, ns) ∧
    _create_relationships 5 h1 (tree_addr test_tree) = Some (h1, rs) ∧
    length rs = (length (preorder test_tree) - 1)%nat ∧
    ∀ k p c i, tree_edges test_tree !! k = Some (p, c) →
      preorder test_tree !! i = Some p →
      rs !! k = Some (CreateRelationship,
                      <["parent_id" := VStr ("node_" +:+ pretty i)]>
                      (<["child_id" := VStr ("node_" +:+ pretty (S k))]> ∅)).
Proof.
  apply (relationships_follow_tree test_heap test_tree 5).
  - reflexivity.
  - apply (bool_decide_unpack _). vm_compute. exact I.
  - vm_compute. lia.
Defined.




(** ** Live write: which statements run *)

Lemma ran_app tr tr' : ran (tr ++ tr') = ran tr ++ ran tr'.
Proof. apply omap_app. Qed.

Lemma ran_logged tr : Forall (λ ev, ∃ line, ev = Logged line) tr → ran tr = [].
Proof. induction 1 as [|ev tr [line ->] _ IH]; [done|]. exact IH. Qed.

Lemma _execute_query_run srv q ps env :
  ∃ env', log_level env' = log_level env ∧ calls env' = S (calls env) ∧
    if fails srv (calls env)
    then _execute_query (mkGraph (Some srv)) q ps env
           = (Raise Neo4jError, env') ∧
         ran (trace env') = ran (trace env)
    else _execute_query (mkGraph (Some srv)) q ps env
           = (Ok (answer srv q ps), env') ∧
         ran (trace env') = ran (trace env) ++ [(q, ps)].
Proof.
  unfold _execute_query, logger_debug.
  destruct (log_spec "DEBUG" ("Executing query: " +:+ query_text q) env
              (query_text_plain q)) as (tr & Hl & Htr).
  unfold mbind, M_bind, mret, M_ret. rewrite Hl. simpl.
  destruct (fails srv (calls env)); simpl.
  - exists (mkEnv (log_level env) (console env) (S (calls env)) (trace env ++ tr)).
    repeat split. simpl. by rewrite ran_app, (ran_logged tr), app_nil_r.
  - exists (mkEnv (log_level env) (console env) (S (calls env))
                  ((trace env ++ tr) ++ [Ran q ps])).
    repeat split. simpl. by rewrite !ran_app, (ran_logged tr), app_nil_r.
Qed.

Lemma execute_all_run srv l env :
  ∃ res env', execute_all (mkGraph (Some srv)) l env = (res, env') ∧
    log_level env' = log_level env ∧
    ran (trace env') = ran (trace env) ++ survivors srv (calls env) l ∧
    ((survivors srv (calls env) l = l ∧ res = Ok () ∧
      calls env' = (calls env + length l)%nat) ∨
     (survivors srv (calls env) l ≠ l ∧ res = Raise Neo4jError)).
Proof.
  revert env. induction l as [|[q ps] l IH]; intros env.
  - exists (Ok ()), env. simpl. rewrite app_nil_r.
    split; [done|]. split; [done|]. split; [done|]. left.
    split; [done|]. split; [done|lia].
  - unfold execute_all. cbn [for_each survivors fst snd].
    destruct (_execute_query_run srv q ps env) as (env1 & Hll & Hc & Hq).
    unfold mbind at 1. unfold M_bind at 1. unfold mbind at 1. unfold M_bind at 1.
    destruct (fails srv (calls env)).
    + destruct Hq as [-> Hran]. eexists _, env1. split; [reflexivity|].
      split; [done|]. split; [by rewrite app_nil_r|]. by right.
    + destruct Hq as [-> Hran]. unfold mret at 1. unfold M_ret at 1.
      destruct (IH env1) as (res & env' & Hrun & Hll' & Hran' & Hres).
      unfold execute_all in Hrun. rewrite Hrun. exists res, env'.
      split; [done|]. split; [congruence|]. rewrite Hc in *.
      split; [by rewrite Hran', Hran, <- app_assoc|].
      destruct Hres as [(Hs & -> & Hc')|(Hs & ->)].
      * left. rewrite Hs. split; [done|]. split; [done|]. simpl. lia.
      * right. split; [congruence|done].
Qed.

Lemma survivors_app srv c l l' :
  survivors srv c l = l →
  survivors srv c (l ++ l') = l ++ survivors srv (c + length l) l'.
Proof.
  revert c. induction l as [|s l IH]; intros c H; simpl in *.
  - by rewrite Nat.add_0_r.
  - destruct (fails srv c); [done|]. inversion H as [H'].
    rewrite H', (IH _ H'). do 3 f_equal. lia.
Qed.

Lemma survivors_app_stop srv c l l' :
  survivors srv c l ≠ l → survivors srv c (l ++ l') = survivors srv c l.
Proof.
  revert c. induction l as [|s l IH]; intros c H; simpl in *; [done|].
  destruct (fails srv c); [done|]. f_equal. apply IH. congruence.
Qed.

Lemma survivors_length srv c l : (length (survivors srv c l) ≤ length l)%nat.
Proof.
  revert c. induction l as [|s l IH]; intros c; simpl; [done|].
  destruct (fails srv c); simpl; [lia|]. specialize (IH (S c)). lia.
Qed.

Lemma survivors_short srv c l l' :
  survivors srv c l ≠ l → survivors srv c l ≠ l ++ l'.
Proof.
  revert c. induction l as [|s l IH]; intros c H; simpl in *; [done|].
  destruct (fails srv c); [done|]. intros [= H'].
  apply (IH (S c)); [congruence|done].
Qed.

(** X11.  [Neo4jGraph.create_graph] stops at the first statement the store
    fails: of the statements it would run (the wipe of the graph first,
    then one per node, then one per relationship) it runs exactly those
    before the first failing one, in this order and nothing else; it
    returns when all of them ran and raises otherwise. *)
Theorem create_graph_runs_a_prefix (srv : Server) (fuel : nat) (h : Heap)
  (r : addr) (env : Env) h1 ns h2 rs :
  _create_nodes fuel h r = Some (h1, ns) →
  _create_relationships fuel h1 r = Some (h2, rs) →
  ∃ res env',
    Neo4jGraph_create_graph fuel (mkGraph (Some srv)) h r env = (res, env') ∧
    ran (trace env')
    = ran (trace env)
      ++ survivors srv (calls env) ((ClearGraph, ∅) :: ns ++ rs) ∧
    (res = Ok (Some h2) ↔
     survivors srv (calls env) ((ClearGraph, ∅) :: ns ++ rs)
     = (ClearGraph, ∅) :: ns ++ rs) ∧
    (res = Ok (Some h2) ∨ res = Raise Neo4jError).
Proof.
  intros Hn Hr. unfold Neo4jGraph_create_graph. rewrite Hn, Hr.
  unfold logger_info.
  destruct (log_spec "INFO" "Creating graph from markdown AST" env eq_refl)
    as (tr0 & Hl0 & Htr0).
  unfold mbind at 1. unfold M_bind at 1. rewrite Hl0.
  set (env0 := mkEnv (log_level env) (console env) (calls env) (trace env ++ tr0)).
  assert (ran (trace env0) = ran (trace env)) as Hran0.
  { simpl. by rewrite ran_app, (ran_logged tr0), app_nil_r. }
  destruct (_execute_query_run srv ClearGraph ∅ env0) as (env1 & Hll1 & Hc1 & Hq).
  unfold mbind at 1. unfold M_bind at 1. cbn [survivors].
  change (calls env0) with (calls env) in *.
  destruct (fails srv (calls env)).
  { destruct Hq as [-> Hran]. eexists _, env1. split; [reflexivity|].
    split; [by rewrite app_nil_r, Hran|]. split; [split; done|by right]. }
  destruct Hq as [-> Hran1]. rewrite Hran0 in Hran1.
  destruct (execute_all_run srv ns env1)
    as (res2 & env2 & Hrun2 & Hll2 & Hran2 & Hres2).
  unfold mbind at 1. unfold M_bind at 1. rewrite Hrun2. rewrite Hc1 in *.
  destruct Hres2 as [(Hs2 & -> & Hc2)|(Hs2 & ->)].
  2:{ eexists _, env2. split; [reflexivity|].
      rewrite (survivors_app_stop _ _ _ _ Hs2).
      split; [by rewrite Hran2, Hran1, <- app_assoc|].
      split; [|by right]. split; [done|]. intros [= H]. exfalso.
      by apply (survivors_short srv (S (calls env)) ns rs). }
  destruct (execute_all_run srv rs env2)
    as (res3 & env3 & Hrun3 & Hll3 & Hran3 & Hres3).
  unfold mbind at 1. unfold M_bind at 1. rewrite Hrun3. rewrite Hc2 in *.
  rewrite (survivors_app _ _ _ _ Hs2).
  destruct Hres3 as [(Hs3 & -> & Hc3)|(Hs3 & ->)].
  2:{ eexists _, env3. split; [reflexivity|].
      split; [by rewrite Hran3, Hran2, Hs2, Hran1, <- !app_assoc|].
      split; [|by right]. split; [done|]. intros [= H]. exfalso.
      by apply app_inv_head in H. }
  destruct (log_spec "INFO" "Graph creation completed" env3 eq_refl)
    as (tr4 & Hl4 & Htr4).
  unfold mbind at 1. unfold M_bind at 1. rewrite Hl4.
  eexists _, _. split; [reflexivity|]. cbn [trace mret M_ret].
  split; [|split; [|by left]].
  - rewrite ran_app, (ran_logged tr4), app_nil_r by done.
    by rewrite Hran3, Hs3, Hran2, Hs2, Hran1, <- !app_assoc.
  - by rewrite Hs3.
Qed.

Lemma create_graph_runs_a_prefix_witness :
  ∃ res env',
    Neo4jGraph_create_graph 5 (mkGraph (Some (fails_at 2))) test_heap 0
      initial_env = (res, env') ∧
    ran (trace env')
    = ran (trace initial_env)
      ++ survivors (fails_at 2) (calls initial_env)
           ((ClearGraph, ∅)
            :: (default [] (snd <$> _create_nodes 5 test_heap 0))
            ++ default []
                 (snd <$> _create_relationships 5
                    (default [] (fst <$> _create_nodes 5 test_heap 0)) 0)) ∧
    (res = Ok (Some (default [] (fst <$> _create_nodes 5 test_heap 0))) ↔
     survivors (fails_at 2) (calls initial_env)
       ((ClearGraph, ∅)
        :: (default [] (snd <$> _create_nodes 5 test_heap 0))
        ++ default []
             (snd <$> _create_relationships 5
                (default [] (fst <$> _create_nodes 5 test_heap 0)) 0))
     = (ClearGraph, ∅)
       :: (default [] (snd <$> _create_nodes 5 test_heap 0))
       ++ default []
            (snd <$> _create_relationships 5
               (default [] (fst <$> _create_nodes 5 test_heap 0)) 0)) ∧
    (res = Ok (Some (default [] (fst <$> _create_nodes 5 test_heap 0)))
     ∨ res = Raise Neo4jError).
Proof.
  apply (create_graph_runs_a_prefix (fails_at 2) 5 test_heap 0 initial_env
           (default [] (fst <$> _create_nodes 5 test_heap 0))).
  - vm_compute. reflexivity.
  - vm_compute. reflexivity.
Defined.

(** ** Escaping *)

Lemma _escape_string_head s s' : _escape_string s ≠ String "'"%char s'.
Proof.
  destruct s as [|c s]; simpl; [done|].
  destruct (Ascii.eqb_spec c "'"%char); congruence.
Qed.

(** X12.  [_escape_string] keeps contents apart (two contents with the
    same escaped text are equal), and in its result every quote directly
    follows a backslash. *)
Theorem escape_string_faithful :
  (∀ s s', _escape_string s = _escape_string s' → s = s') ∧
  (∀ s i, String.get i (_escape_string s) = Some "'"%char →
     ∃ j, i = S j ∧ String.get j (_escape_string s) = Some "092"%char).
Proof.
  split.
  - induction s as [|c s IH]; intros [|c' s'] Heq; simpl in *.
    + done.
    + destruct (Ascii.eqb c' "'"%char); discriminate.
    + destruct (Ascii.eqb c "'"%char); discriminate.
    + destruct (Ascii.eqb_spec c "'"%char) as [->|Hc],
               (Ascii.eqb_spec c' "'"%char) as [->|Hc'].
      * inversion Heq as [Heq']. f_equal. by apply IH.
      * inversion Heq as [[Hc'' Heq']]. symmetry in Heq'.
        by apply _escape_string_head in Heq'.
      * inversion Heq as [[Hc'' Heq']].
        by apply _escape_string_head in Heq'.
      * inversion Heq as [[Hc'' Heq']]. f_equal. by apply IH.
  - induction s as [|c s IH]; intros i Hi; simpl in *.
    + by destruct i.
    + destruct (Ascii.eqb_spec c "'"%char) as [->|Hc].
      * destruct i as [|[|i]]; simpl in *; [done| |].
        { by exists 0%nat. }
        destruct (IH i Hi) as (j & -> & Hj). by exists (S (S j)).
      * destruct i as [|i]; simpl in *; [congruence|].
        destruct (IH i Hi) as (j & -> & Hj). by exists (S j).
Qed.

(** ** Verbosity *)

Lemma _setup_verbosity_rank v env :
  log_level env = "ERROR" →
  default 0%nat (LEVELS (log_level (_setup_verbosity v env).2))
  = if bool_decide (v = 1) then 2%nat
    else if bool_decide (v = 2) then 3%nat
    else if bool_decide (3 ≤ v) then 4%nat else 0%nat.
Proof.
  intros Hl. unfold _setup_verbosity.
  repeat case_bool_decide; simpl; try done. by rewrite Hl.
Qed.

(** X13.  On the logger as the package creates it (level "ERROR"), more
    [-v] flags never hide a message: what is logged after
    [_setup_verbosity v] is logged after [_setup_verbosity v'] for every
    [v' ≥ v]. *)
Theorem verbosity_is_monotone (v v' : Z) (name : string) (env : Env) :
  log_level env = "ERROR" → v ≤ v' →
  _should_log name (_setup_verbosity v env).2 = true →
  _should_log name (_setup_verbosity v' env).2 = true.
Proof.
  intros Hl Hv. unfold _should_log.
  rewrite !_setup_verbosity_rank by done.
  intros Hlog%bool_decide_eq_true. apply bool_decide_eq_true.
  repeat case_bool_decide; lia.
Qed.

Lemma verbosity_is_monotone_witness :
  _should_log "INFO" (_setup_verbosity 3 initial_env).2 = true.
Proof.
  apply (verbosity_is_monotone 1 3 "INFO" initial_env).
  - reflexivity.
  - lia.
  - vm_compute. reflexivity.
Defined.

(** ** The shape of a rendering *)

Lemma spaced_app {X} (blank : X) bs bs' :
  spaced blank (bs ++ bs') = spaced blank bs ++ spaced blank bs'.
Proof. unfold spaced. by rewrite flat_map_app. Qed.

Lemma render_child_spaced child lines env r env' :
  render_child child lines env = (Ok r, env') →
  ∃ bs, r = lines ++ spaced (VStr "") bs.
Proof.
  unfold render_child, getitem, mbind, M_bind, mret, M_ret, raise.
  intros Hr.
  repeat (case_match; simplify_eq);
    first [ by exists []; rewrite app_nil_r | by eexists [_] ].
Qed.

Lemma for_each_spaced {X} (body : list Value → X → M (list Value)) l :
  (∀ acc x env r env', x ∈ l → body acc x env = (Ok r, env') →
     ∃ bs, r = acc ++ spaced (VStr "") bs) →
  ∀ acc env r env', for_each body l acc env = (Ok r, env') →
    ∃ bs, r = acc ++ spaced (VStr "") bs.
Proof.
  induction l as [|x l IH]; intros Hbody acc env r env' Hr; simpl in Hr.
  - inversion Hr; subst. exists []. by rewrite app_nil_r.
  - unfold mbind, M_bind in Hr.
    destruct (body acc x env) as [[acc1|e] env1] eqn:Hb; [|done].
    destruct (Hbody acc x env acc1 env1) as [bs ->]; [by left|done|].
    destruct (IH (λ acc x env r env' Hx, Hbody acc x env r env'
                    (list_elem_of_further _ _ _ Hx))
                 _ _ _ _ Hr) as [bs' ->].
    exists (bs ++ bs'). by rewrite spaced_app, app_assoc.
Qed.

Lemma mapM_spaced bs ls :
  mapM (λ v, match v with VStr s => Some s | _ => None end)
       (spaced (VStr "") bs) = Some ls →
  ∃ ss, ls = spaced "" ss ∧ length ss = length bs.
Proof.
  revert ls. induction bs as [|b bs IH]; intros ls Hm.
  - inversion Hm. by exists [].
  - change (spaced (VStr "") (b :: bs))
      with (b :: VStr "" :: spaced (VStr "") bs) in Hm.
    rewrite !mapM_cons in Hm || cbn [mapM] in Hm.
    destruct b as [|s|z]; simpl in Hm; try done.
    destruct (mapM _ (spaced (VStr "") bs)) as [ls'|] eqn:Hm'; [|done].
    simpl in Hm. inversion Hm; subst.
    destruct (IH ls' eq_refl) as (ss & -> & Hlen).
    exists (s :: ss). split; [done|]. simpl. by rewrite Hlen.
Qed.

Lemma append_assoc (a b c : string) : (a +:+ b) +:+ c = a +:+ b +:+ c.
Proof.
  induction a as [|x a IH]; [done|].
  change (String x ((a +:+ b) +:+ c) = String x (a +:+ b +:+ c)).
  by f_equal.
Qed.

Lemma join_spaced b bs :
  join nl (spaced "" (b :: bs)) +:+ nl = blocks_text (b :: bs).
Proof.
  revert b. induction bs as [|b' bs IH]; intros b.
  - simpl. by rewrite append_assoc.
  - specialize (IH b').
    change (spaced "" (b :: b' :: bs))
      with (b :: "" :: spaced "" (b' :: bs)).
    change (spaced "" (b' :: bs)) with (b' :: "" :: spaced "" bs) in *.
    cbn [join] in *. cbn [blocks_text foldr] in *.
    rewrite <- IH, !append_assoc. reflexivity.
Qed.

Section TraversalFacts.
Context {G : Type} `{Graph G}.

Lemma _traverse_node_spaced (g : G) depth node_id lines env r env' :
  _traverse_node g depth node_id lines env = (Ok r, env') →
  ∃ bs, r = lines ++ spaced (VStr "") bs.
Proof.
  revert node_id lines env r env'.
  induction depth as [|depth IH]; intros node_id lines env r env' Hr;
    simpl in Hr; [done|].
  unfold mbind at 1, M_bind at 1 in Hr.
  destruct (get_children g node_id env) as [[cs|e] env1]; [|done].
  eapply for_each_spaced; [|exact Hr].
  clear Hr. intros acc child env2 r2 env2' _ Hr.
  unfold mbind at 1, M_bind at 1 in Hr.
  destruct (render_child child acc env2) as [[acc1|e] env3] eqn:Hrc; [|done].
  destruct (render_child_spaced _ _ _ _ _ Hrc) as [bs ->].
  unfold mbind at 1, M_bind at 1 in Hr.
  destruct (getitem child "id" env3) as [[cid|e] env4]; [|done].
  destruct (IH _ _ _ _ _ Hr) as [bs' ->].
  exists (bs ++ bs'). by rewrite spaced_app, app_assoc.
Qed.

(** X14.  Whatever the graph answers, a rendering that
    [traverse_and_print] returns consists of blocks, each followed by one
    empty line, joined by newlines: it is empty, or it is the text of the
    blocks with an empty line after each, less the last newline. *)
Theorem rendering_is_blocks (g : G) (depth : nat) (env : Env) (s : string)
  (env' : Env) :
  traverse_and_print g depth env = (Ok s, env') →
  ∃ bs, s = join nl (spaced "" bs) ∧
        (bs = [] → s = "") ∧
        (bs ≠ [] → s +:+ nl = blocks_text bs).
Proof.
  assert (∀ bs, ∃ bs', join nl (spaced "" bs) = join nl (spaced "" bs') ∧
            (bs' = [] → join nl (spaced "" bs) = "") ∧
            (bs' ≠ [] → join nl (spaced "" bs) +:+ nl = blocks_text bs'))
    as Hshape.
  { intros bs. exists bs. split; [done|]. split; [by intros ->|].
    destruct bs as [|b bs]; [done|]. intros _. apply join_spaced. }
  unfold traverse_and_print, logger_info, logger_error. intros Hr.
  destruct (log_spec "INFO" "Traversing graph" env eq_refl) as (tr & Hl & _).
  unfold mbind at 1, M_bind at 1 in Hr. rewrite Hl in Hr.
  unfold mbind at 1, M_bind at 1 in Hr.
  destruct (get_root_node g _) as [[[d|]|e] env1]; [| |done].
  2:{ unfold mbind, M_bind in Hr. rewrite log_error_spec in Hr by done.
      inversion Hr; subst. apply (Hshape []). }
  case_bool_decide.
  { unfold mbind, M_bind in Hr. rewrite log_error_spec in Hr by done.
    inversion Hr; subst. apply (Hshape []). }
  unfold mbind at 1, M_bind at 1 in Hr.
  destruct (getitem d "id" env1) as [[rid|e] env2]; [|done].
  unfold mbind at 1, M_bind at 1 in Hr.
  destruct (_traverse_node g depth rid [] env2) as [[ls|e] env3] eqn:Ht;
    [|done].
  destruct (_traverse_node_spaced _ _ _ _ _ _ _ Ht) as [bs ->].
  unfold join_lines in Hr. simpl in Hr.
  destruct (mapM _ (spaced (VStr "") bs)) as [ss|] eqn:Hm; [|done].
  destruct (mapM_spaced _ _ Hm) as (ss' & -> & _).
  inversion Hr; subst. apply Hshape.
Qed.
End TraversalFacts.

Lemma rendering_is_blocks_witness :
  ∃ bs,
    "# Header 1" +:+ nl +:+ nl +:+ "Paragraph 1" +:+ nl +:+ nl +:+
    "## Header 2" +:+ nl = join nl (spaced "" bs) ∧
    (bs = [] →
     "# Header 1" +:+ nl +:+ nl +:+ "Paragraph 1" +:+ nl +:+ nl +:+
     "## Header 2" +:+ nl = "") ∧
    (bs ≠ [] →
     ("# Header 1" +:+ nl +:+ nl +:+ "Paragraph 1" +:+ nl +:+ nl +:+
      "## Header 2" +:+ nl) +:+ nl = blocks_text bs).
Proof.
  apply (rendering_is_blocks test_mock 3 initial_env _
           (traverse_and_print test_mock 3 initial_env).2).
  vm_compute. reflexivity.
Defined.

(** ** The command create-graph on a store that answers *)



(** [connect] returns when the driver does and the logger takes the
    message that reports the connection. *)
Lemma connect_ok w uri username password srv env :
  open_driver w uri username password = Some srv →
  rejected env "INFO" ("Connected to Neo4j at " +:+ uri) = false →
  ∃ env', connect w uri username password env
          = (Ok (mkGraph (Some srv)), env') ∧
    log_level env' = log_level env ∧ console env' = console env ∧
    calls env' = calls env ∧ ran (trace env') = ran (trace env).
Proof.
  intros Hopen Hlog. unfold connect, try_except. rewrite Hopen.
  unfold mbind at 1, M_bind at 1, emit at 1.
  set (env0 := mkEnv (log_level env) (console env) (calls env)
                     (trace env ++ [Opened])).
  pose proof (log_cases "INFO" ("Connected to Neo4j at " +:+ uri) env0)
    as Hcases.
  change (rejected env0 "INFO" ("Connected to Neo4j at " +:+ uri))
    with (rejected env "INFO" ("Connected to Neo4j at " +:+ uri)) in Hcases.
  rewrite Hlog in Hcases. destruct Hcases as (tr & Hl & Htr).
  unfold mbind at 1, M_bind at 1, logger_info. rewrite Hl.
  eexists. split; [reflexivity|]. cbn [log_level console calls trace env0].
  repeat split. rewrite !ran_app.
  destruct Htr as [[_ ->]|[_ ->]]; simpl; by rewrite !app_nil_r.
Qed.





(** ** Standard output *)

Lemma mute_ret {A} (a : A) : mute (mret a).
Proof. by intros env. Qed.

Lemma mute_raise {A} (e : exn) : mute (raise (A := A) e).
Proof. by intros env. Qed.

Lemma mute_bind {A B} (m : M A) (f : A → M B) :
  mute m → (∀ a, mute (f a)) → mute (m ≫= f).
Proof.
  intros Hm Hf env. unfold mbind, M_bind. specialize (Hm env).
  destruct (m env) as [[a|e] env1]; simpl in *; [|done].
  by rewrite Hf.
Qed.

Lemma mute_emit ev : is_printed ev = false → mute (emit ev).
Proof.
  intros Hev env. unfold printed, emit. simpl.
  rewrite List.filter_app. simpl. rewrite Hev. by rewrite app_nil_r.
Qed.

Lemma mute_log name message : mute (log name message).
Proof.
  intros env. unfold log, console_print.
  destruct (_should_log name env); [|done].
  destruct (has_tag _ && console env _); [done|]. by apply mute_emit.
Qed.

Lemma mute_tick : mute tick.
Proof. by intros env. Qed.

Lemma mute_for_each {A B} (body : B → A → M B) l :
  (∀ acc x, mute (body acc x)) → ∀ acc, mute (for_each body l acc).
Proof.
  intros Hbody. induction l as [|x l IH]; intros acc; simpl.
  - apply mute_ret.
  - apply mute_bind; [apply Hbody | apply IH].
Qed.

Lemma mute_execute_query g q ps : mute (_execute_query g q ps).
Proof.
  unfold _execute_query. apply mute_bind; [apply mute_log|]. intros _.
  destruct (driver g) as [srv|]; [|apply mute_raise].
  apply mute_bind; [apply mute_tick|]. intros k.
  destruct (fails srv k); [apply mute_raise|].
  apply mute_bind; [by apply mute_emit|]. intros _. apply mute_ret.
Qed.

Lemma mute_getitem d k : mute (getitem d k).
Proof. unfold getitem. destruct (d !! k); [apply mute_ret|apply mute_raise]. Qed.

Lemma mute_render_child child lines : mute (render_child child lines).
Proof.
  unfold render_child. apply mute_bind; [apply mute_getitem|]. intros ty.
  case_bool_decide.
  - apply mute_bind.
    + destruct (default _ _); try apply mute_raise. apply mute_ret.
    + intros pre. apply mute_bind; [apply mute_getitem|]. intros c.
      apply mute_ret.
  - apply mute_bind; [apply mute_getitem|]. intros ty'.
    case_bool_decide; [|apply mute_ret].
    apply mute_bind; [apply mute_getitem|]. intros c. apply mute_ret.
Qed.

Lemma mute_traverse_node (g : Neo4jGraph) depth :
  ∀ node_id lines, mute (_traverse_node g depth node_id lines).
Proof.
  induction depth as [|d IH]; intros node_id lines; simpl.
  - apply mute_raise.
  - apply mute_bind; [apply mute_execute_query|]. intros cs.
    apply mute_for_each. intros acc child.
    apply mute_bind; [apply mute_render_child|]. intros lines'.
    apply mute_bind; [apply mute_getitem|]. intros cid. apply IH.
Qed.

Lemma mute_traverse_and_print (g : Neo4jGraph) depth :
  mute (traverse_and_print g depth).
Proof.
  unfold traverse_and_print. apply mute_bind; [apply mute_log|]. intros _.
  apply mute_bind.
  { cbn [get_root_node Neo4jGraph_Graph]. unfold Neo4jGraph_get_root_node.
    apply mute_bind; [apply mute_execute_query|]. intros rows.
    apply mute_ret. }
  intros [d|].
  - case_bool_decide.
    + apply mute_bind; [apply mute_log|]. intros _. apply mute_ret.
    + apply mute_bind; [apply mute_getitem|]. intros rid.
      apply mute_bind; [apply mute_traverse_node|]. intros ls.
      unfold join_lines. destruct (mapM _ ls); [apply mute_ret|apply mute_raise].
  - apply mute_bind; [apply mute_log|]. intros _. apply mute_ret.
Qed.

Lemma mute_execute_all g stmts : mute (execute_all g stmts).
Proof.
  unfold execute_all. apply mute_for_each. intros _ s.
  apply mute_bind; [apply mute_execute_query|]. intros _. apply mute_ret.
Qed.

Lemma mute_create_graph fuel g h r : mute (Neo4jGraph_create_graph fuel g h r).
Proof.
  unfold Neo4jGraph_create_graph.
  apply mute_bind; [apply mute_log|]. intros _.
  apply mute_bind; [apply mute_execute_query|]. intros _.
  destruct (_create_nodes fuel h r) as [[h1 stmts]|]; [|apply mute_ret].
  apply mute_bind; [apply mute_execute_all|]. intros _.
  destruct (_create_relationships fuel h1 r) as [[h2 stmts']|];
    [|apply mute_ret].
  apply mute_bind; [apply mute_execute_all|]. intros _.
  apply mute_bind; [apply mute_log|]. intros _. apply mute_ret.
Qed.

Lemma mute_try_except {A} (m : M A) (handler : exn → M A) :
  mute m → (∀ e, mute (handler e)) → mute (try_except m handler).
Proof.
  intros Hm Hh env. unfold try_except. specialize (Hm env).
  destruct (m env) as [[a|e] env1]; simpl in *; [done|].
  by rewrite Hh.
Qed.

Lemma mute_connect w uri username password :
  mute (connect w uri username password).
Proof.
  unfold connect. apply mute_try_except.
  - destruct (open_driver w uri username password); [|apply mute_raise].
    apply mute_bind; [by apply mute_emit|]. intros _.
    apply mute_bind; [apply mute_log|]. intros _. apply mute_ret.
  - intros e. unfold connect_failed.
    apply mute_bind; [apply mute_log|]. intros _. apply mute_raise.
Qed.

Lemma mute_disconnect g : mute (disconnect g).
Proof.
  unfold disconnect. destruct (driver g); [|apply mute_ret].
  apply mute_bind; [by apply mute_emit|]. intros _. apply mute_log.
Qed.

Lemma connect_driver w uri username password env g env' :
  connect w uri username password env = (Ok g, env') → is_Some (driver g).
Proof.
  intros Hc. pose proof (connect_connection w uri username password env) as H.
  rewrite Hc in H. by destruct H.
Qed.

(** The handler of a command prints nothing, and ends the command with
    status 1 or with an exception. *)
Lemma except_exit_printed w what e env :
  printed (except_exit w what e env).2 = printed env ∧
  ((except_exit w what e env).1 = Exited 1 ∨
   ∃ e', (except_exit w what e env).1 = Uncaught e').
Proof.
  unfold except_exit, logger_error.
  pose proof (mute_log "ERROR" (what +:+ ": " +:+ exception_text w e) env)
    as Hm.
  destruct (log "ERROR" _ env) as [[[]|x] env1]; simpl in *.
  - split; [done|]. by left.
  - split; [done|]. right. by eexists.
Qed.

(** X16.  [traverse-graph] writes to standard output exactly when it
    returns: then it has printed one text, and this text is what
    [traverse_and_print] returned in this run, on the graph [connect]
    returned and from the state [connect] left.  When the command exits,
    the status is 1 and it has printed nothing; nor has it when an
    exception leaves it. *)
Theorem traverse_graph_prints_on_success (w : World)
  (uri username password : option string) (env : Env) :
  let '(u, n, p) :=
    get_neo4j_credentials (environ w) uri username password in
  match traverse_graph w uri username password env with
  | (Returned, env') =>
      ∃ g env1 text env2,
        connect w u n p env = (Ok g, env1) ∧
        traverse_and_print g (recursion_limit w) env1 = (Ok text, env2) ∧
        printed env' = printed env ++ [Printed text]
  | (Exited code, env') => code = 1 ∧ printed env' = printed env
  | (Uncaught _, env') => printed env' = printed env
  end.
Proof.
  assert (∀ e env1, printed env1 = printed env →
            match except_exit w "Error traversing graph" e env1 with
            | (Returned, env') => False
            | (Exited code, env') => code = 1 ∧ printed env' = printed env
            | (Uncaught _, env') => printed env' = printed env
            end) as Hexit.
  { intros e env1 Hp.
    destruct (except_exit_printed w "Error traversing graph" e env1)
      as [Hm Hout].
    destruct (except_exit w "Error traversing graph" e env1) as [out env'].
    simpl in *. destruct Hout as [->|[e' ->]].
    - split; [done|congruence].
    - congruence. }
  unfold traverse_graph, traverse_graph_body.
  destruct (get_neo4j_credentials _ _ _ _) as [[u n] p].
  unfold mbind at 1, M_bind at 1.
  pose proof (mute_connect w u n p env) as Hc.
  destruct (connect w u n p env) as [[g|x] env1] eqn:Hcon; simpl in Hc.
  2:{ specialize (Hexit x env1 Hc).
      by destruct (except_exit _ _ x env1) as [[|code|e'] env']. }
  unfold mbind at 1, M_bind at 1.
  pose proof (mute_traverse_and_print g (recursion_limit w) env1) as Ht.
  destruct (traverse_and_print g (recursion_limit w) env1)
    as [[text|x] env2] eqn:Hrun; simpl in Ht.
  2:{ assert (printed env2 = printed env) as Hp by congruence.
      specialize (Hexit x env2 Hp).
      by destruct (except_exit _ _ x env2) as [[|code|e'] env']. }
  unfold mbind at 1, M_bind at 1. unfold emit at 1.
  destruct (disconnect_connection g
              (mkEnv (log_level env2) (console env2) (calls env2)
                     (trace env2 ++ [Printed text]))
              (connect_driver _ _ _ _ _ _ _ Hcon)) as (env3 & Hd & _).
  pose proof (mute_disconnect g
                (mkEnv (log_level env2) (console env2) (calls env2)
                       (trace env2 ++ [Printed text]))) as Hm.
  rewrite Hd in *. cbn [snd] in Hm.
  exists g, env1, text, env2. split; [done|]. split; [done|].
  rewrite Hm. unfold printed at 1. cbn [trace]. rewrite List.filter_app.
  simpl. fold (printed env2). congruence.
Qed.

(** X17.  [create-graph] writes nothing to standard output, however it
    ends. *)
Theorem create_graph_prints_nothing (w : World) (fuel : nat) (file : string)
  (uri username password : option string) (env : Env) :
  match create_graph w fuel file uri username password env with
  | Some (_, env') => printed env' = printed env
  | None => True
  end.
Proof.
  unfold create_graph.
  assert (mute (create_graph_body w fuel file uri username password)) as Hm.
  { unfold create_graph_body.
    destruct (get_neo4j_credentials _ _ _ _) as [[u n] p].
    apply mute_bind.
    { destruct (files w !! file); [apply mute_ret|apply mute_raise]. }
    intros text.
    destruct (parse (block_parser w) text [] MarkdownParser_init)
      as [[[ast h] md]|]; [|apply mute_raise].
    apply mute_bind; [apply mute_connect|]. intros g.
    apply mute_bind; [apply mute_create_graph|]. intros [h2|];
      [|apply mute_ret].
    apply mute_bind; [apply mute_disconnect|]. intros _. apply mute_ret. }
  specialize (Hm env).
  destruct (create_graph_body w fuel file uri username password env)
    as [[[[]|]|x] env1]; simpl in Hm; [done|done|].
  destruct (except_exit_printed w "Error creating graph" x env1) as [Hp _].
  destruct (except_exit w "Error creating graph" x env1) as [out env'].
  simpl in *. congruence.
Qed.

(** ** The command traverse-graph on a store without a root *)

Lemma traverse_and_print_rootless srv depth env :
  (∀ n, n ∈ nodes (store srv) → n !! "type" ≠ Some (VStr "root")) →
  fails srv (calls env) = false →
  ∃ tr, traverse_and_print (mkGraph (Some srv)) depth env
        = (Ok "", mkEnv (log_level env) (console env) (S (calls env)) (trace env ++ tr)) ∧
        Logged "ERROR: Root node not found in graph" ∈ tr.
Proof.
  intros Hroot Hok. unfold traverse_and_print, logger_info, logger_error.
  destruct (log_spec "INFO" "Traversing graph" env eq_refl) as (tr1 & Hl1 & _).
  unfold mbind at 1, M_bind. rewrite Hl1.
  unfold mbind at 1, M_bind.
  cbn [get_root_node Neo4jGraph_Graph]. unfold Neo4jGraph_get_root_node.
  unfold mbind at 1, M_bind.
  destruct (_execute_query_ok srv MatchRoot ∅
              (mkEnv (log_level env) (console env) (calls env) (trace env ++ tr1)) Hok)
    as (tr2 & ->).
  unfold mret at 1, M_ret. cbn [answer].
  rewrite (match_root_none _ Hroot). cbn [head].
  unfold mbind at 1, M_bind. rewrite log_error_spec by done.
  cbn [log_level calls trace].
  exists (tr1 ++ tr2 ++ [Logged "ERROR: Root node not found in graph"]).
  split; [by rewrite <- !app_assoc|].
  rewrite !elem_of_app. right; right. apply elem_of_cons. by left.
Qed.

Lemma disconnect_trace srv env :
  ∃ tr, disconnect (mkGraph (Some srv)) env
        = (Ok (), mkEnv (log_level env) (console env) (calls env) (trace env ++ tr)).
Proof.
  unfold disconnect. cbn [driver]. unfold mbind, M_bind, emit, logger_info.
  match goal with |- context [log "INFO" ?m ?e] =>
    destruct (log_spec "INFO" m e eq_refl) as (tr & -> & Htr) end.
  exists ([Closed] ++ tr). cbn [log_level calls trace].
  by rewrite <- app_assoc.
Qed.

(** X18.  On a store that holds no node of type "root" (an empty store
    for one) [traverse-graph] returns normally, when the logger takes the
    message that reports the connection (it is below the logger's level,
    or the console does not reject its line): it logs the error "Root
    node not found in graph", prints one empty text and closes the
    connection; it does not exit with status 1. *)
Theorem traverse_graph_without_root (w : World)
  (uri username password : option string) (env : Env) (srv : Server) :
  (let '(u, n, p) := get_neo4j_credentials (environ w) uri username password
   in open_driver w u n p) = Some srv →
  (let '(u, n, p) := get_neo4j_credentials (environ w) uri username password
   in rejected env "INFO" ("Connected to Neo4j at " +:+ u)) = false →
  (∀ n, n ∈ nodes (store srv) → n !! "type" ≠ Some (VStr "root")) →
  fails srv (calls env) = false →
  ∃ env', traverse_graph w uri username password env = (Returned, env') ∧
    printed env' = printed env ++ [Printed ""] ∧
    Logged "ERROR: Root node not found in graph" ∈ trace env' ∧
    connection env' = connection env ++ [Opened; Closed].
Proof.
  intros Hopen Hlog Hroot Hok.
  assert (∃ env', traverse_graph w uri username password env
                  = (Returned, env') ∧
            printed env' = printed env ++ [Printed ""] ∧
            Logged "ERROR: Root node not found in graph" ∈ trace env')
    as (env' & Hrun & Hp & Hl).
  { unfold traverse_graph, traverse_graph_body.
    destruct (get_neo4j_credentials _ _ _ _) as [[u n] p].
    pose proof (mute_connect w u n p env) as Hmc.
    destruct (connect_ok w u n p srv env Hopen Hlog)
      as (env1 & Hc & _ & _ & Hcalls & _).
    unfold mbind at 1, M_bind at 1. rewrite Hc in *. cbn [snd] in Hmc.
    rewrite <- Hcalls in Hok.
    pose proof (mute_traverse_and_print (mkGraph (Some srv))
                  (recursion_limit w) env1) as Hmt.
    destruct (traverse_and_print_rootless srv (recursion_limit w) env1
                Hroot Hok) as (tr & Ht & Hin).
    unfold mbind at 1, M_bind at 1. rewrite Ht in *. cbn [snd] in Hmt.
    unfold printed in Hmt at 1. cbn [trace] in Hmt.
    unfold mbind at 1, M_bind at 1. unfold emit at 1.
    cbn [log_level calls trace].
    match goal with |- context [disconnect _ ?e] =>
      pose proof (mute_disconnect (mkGraph (Some srv)) e) as Hmd;
      destruct (disconnect_trace srv e) as (tr' & Hd) end.
    rewrite Hd in *. cbn [snd] in Hmd. eexists. split; [reflexivity|].
    split.
    - etrans; [exact Hmd|]. unfold printed at 1. cbn [trace].
      rewrite List.filter_app, Hmt, Hmc. done.
    - cbn [trace]. rewrite !elem_of_app. left. left. by right. }
  exists env'. split; [done|]. split; [done|]. split; [done|].
  destruct (traverse_graph_connection _ _ _ _ _ _ _ Hrun)
    as [[? _]|[[? _]|[_ ?]]]; done.
Qed.

Lemma traverse_graph_without_root_witness :
  ∃ env',
    traverse_graph
      (mkWorld ∅ ∅ (λ _ _, None) (λ _ _ _, Some (healthy (mkStore [] [])))
               1000 python_text)
      None None None initial_env = (Returned, env') ∧
    printed env' = printed initial_env ++ [Printed ""] ∧
    Logged "ERROR: Root node not found in graph" ∈ trace env' ∧
    connection env' = connection initial_env ++ [Opened; Closed].
Proof.
  apply (traverse_graph_without_root
           (mkWorld ∅ ∅ (λ _ _, None)
                    (λ _ _ _, Some (healthy (mkStore [] []))) 1000
                    python_text)
           None None None initial_env (healthy (mkStore [] []))).
  - reflexivity.
  - reflexivity.
  - intros n Hn. simpl in Hn. by apply elem_of_nil in Hn.
  - reflexivity.
Defined.
